(** * Parallel matrix multiplication (matrix_multiplicator.py)

    A shallow embedding of the Python module and the properties of its
    worker-pool multiply, its logging variant, its text codec and its
    streaming pipeline.

    Conventions.
    - A Python list of lists of numbers is a [list (list T)]; the number type
      [T] is a parameter with the operations the code uses ([0], [+], [*]).
      Instances: [Z] (Python ints) and binary64 floats.
    - A raised exception is a value of [exn]; fallible code returns [result].
    - Effects (files, pool start-up, cell computations in workers) are
      recorded as a trace of [event]s; effectful code lives in the monad [M].
    - What a run of [multiprocessing] leaves to the operating system (which
      worker computes next, which process moves next) is an explicit oracle,
      the schedule.

    What is taken from CPython's [multiprocessing] rather than from the
    module itself:
    - [Pool(processes=p)] raises [ValueError] for [p < 1] and [TypeError]
      for a [p] that is no int;
    - [Pool.map] cuts the iterable into batches of [chunksize] tasks, sends
      them to the workers in order, and returns the values in the order of
      the iterable once every batch is done; an exception in a task ends its
      batch and is raised by [map];
    - a batch is pickled when it is sent, and a [multiprocessing.Lock] cannot
      be pickled then ([SemLock.__getstate__] raises [RuntimeError] unless a
      child process is being started);
    - a [Queue] hands over what was put on it in the order of the puts, and
      [get] blocks on an empty queue.

    The file has three parts: the definitions, the lemmas, the theorems. *)

From Stdlib Require Import ZArith Lia Floats Ascii String.
From stdpp Require Import base list strings pretty gmap.

(** ** Exceptions and results *)

Inductive exn : Type :=
| ValueError (msg : string)
| TypeError (msg : string)
| IndexError
| RuntimeError (msg : string)
| FileNotFoundError (file : string).

Inductive result (A : Type) : Type :=
| Ok (a : A)
| Raise (e : exn).
Arguments Ok {A} a.
Arguments Raise {A} e.

#[export] Instance result_ret : MRet result := fun A a => Ok a.
#[export] Instance result_bind : MBind result := fun A B f r =>
  match r with
  | Ok a => f a
  | Raise e => Raise e
  end.

(** The messages of the [ValueError]s, and the names the specification gives
    to the three failures. *)
Definition msg_empty : string := "Матрицы не могут быть пустыми"%string.
Definition msg_dims : string :=
  "Число столбцов первой матрицы должно равняться числу строк второй матрицы"%string.
Definition msg_processes : string := "Number of processes must be at least 1"%string.
Definition msg_float : string :=
  "'float' object cannot be interpreted as an integer"%string.
Definition msg_str : string :=
  "'<' not supported between instances of 'str' and 'int'"%string.
Definition msg_lock : string :=
  "Lock objects should only be shared between processes through inheritance"%string.

(** [raise ValueError(..)] of lines 50 and 98. *)
Definition EmptyOperand : exn := ValueError msg_empty.
(** [raise ValueError(..)] of lines 52 and 100. *)
Definition DimensionMismatch : exn := ValueError msg_dims.
(** What [Pool(processes=n)] raises for an [n] it does not accept: a
    [ValueError] below 1, a [TypeError] for what is no int. *)
Definition InvalidConfiguration (e : exn) : Prop :=
  e = ValueError msg_processes ∨ e = TypeError msg_float ∨ e = TypeError msg_str.
(** What pickling a [multiprocessing.Lock] raises outside process start-up. *)
Definition LockNotShareable : exn := RuntimeError msg_lock.

(** ** Events and the effect monad *)

Inductive event : Type :=
| EvOpenW (file : string)                  (* open(file, 'w'): create or truncate *)
| EvWrite (file : string) (text : string)  (* text is written at the end of file *)
| EvTasks (n : nat)                        (* the list of n cell tasks is built *)
| EvPool (workers : nat)                   (* Pool(processes=workers) has started *)
| EvRun (i j : nat).                       (* a worker starts on cell (i, j) *)

Definition M (A : Type) : Type := list event * result A.

#[export] Instance M_ret : MRet M := fun A a => ([], Ok a).
#[export] Instance M_bind : MBind M := fun A B f m =>
  match m.2 with
  | Ok a => (m.1 ++ (f a).1, (f a).2)
  | Raise e => (m.1, Raise e)
  end.

Definition emit (e : event) : M unit := ([e], Ok tt).
Definition raise {A} (e : exn) : M A := ([], Raise e).
Definition lift {A} (r : result A) : M A := ([], r).

(** A [for x in xs] loop that threads a value through its body. *)
Fixpoint for_each {S X : Type} (body : S → X → result S) (s : S) (xs : list X)
  : result S :=
  match xs with
  | [] => Ok s
  | x :: xs' => s' ← body s x; for_each body s' xs'
  end.

(** ** Python lists *)

(** [l[i]] for [i >= 0]. *)
Definition getitem {X} (l : list X) (i : nat) : result X :=
  match l !! i with
  | Some x => Ok x
  | None => Raise IndexError
  end.

(** [C[i][j] = value]. *)
Definition setitem2 {X} (C : list (list X)) (i j : nat) (value : X)
  : result (list (list X)) :=
  row ← getitem C i;
  if decide (j < length row) then Ok (<[i := <[j := value]> row]> C)
  else Raise IndexError.

(** [not l] for a list. *)
Definition is_empty {X} (l : list X) : bool :=
  match l with
  | [] => true
  | _ :: _ => false
  end.

(** ** Numbers *)

Class Number (T : Type) : Type := {
  zero : T;                (* the literal 0 *)
  add : T → T → T;
  mul : T → T → T
}.

#[export] Instance Z_number : Number Z :=
  {| zero := 0%Z; add := Z.add; mul := Z.mul |}.

(** Binary64 floats; the int literal [0] is converted to [0.0] by [+]. *)
#[export] Instance float_number : Number float :=
  {| zero := 0%float; add := PrimFloat.add; mul := PrimFloat.mul |}.

(** ** The pool of [multiprocessing] *)

(** What a caller may pass for a number of processes: an int (a bool is
    one), a float, a string. *)
Inductive pyvalue : Type :=
| PyInt (n : Z)
| PyFloat (x : float)
| PyStr (s : string).

(** [Pool(processes=p)]: the number of workers started. The constructor
    compares [p < 1] and then starts [range(p)] worker processes. *)
Definition Pool (processes : pyvalue) : M nat :=
  match processes with
  | PyInt n =>
    if (n <? 1)%Z then raise (ValueError msg_processes)
    else let workers := Z.to_nat n in
         _ ← emit (EvPool workers); mret workers
  | PyFloat x =>
    if PrimFloat.ltb x 1 then raise (ValueError msg_processes)
    else raise (TypeError msg_float)
  | PyStr _ => raise (TypeError msg_str)
  end.

(** The batch size [Pool.map] picks when the caller names none. *)
Definition chunksize (len workers : nat) : nat :=
  if decide (len = 0) then 0
  else
    let q := len / (workers * 4) in
    let extra := len mod (workers * 4) in
    if decide (extra = 0) then q else S q.

(** [Pool._get_tasks]: consecutive slices of [size] items, up to the first
    empty one. *)
Fixpoint get_tasks_aux {X} (fuel size : nat) (it : list X) : list (list X) :=
  match fuel with
  | 0 => []
  | S fuel' =>
    match take size it with
    | [] => []
    | x => x :: get_tasks_aux fuel' size (drop size it)
    end
  end.

Definition get_tasks {X} (size : nat) (it : list X) : list (list X) :=
  get_tasks_aux (length it) size it.

(** A batch in a running [Pool.map]: the values its worker has produced so
    far and the tasks it still has to run. *)
Record slot (X Y : Type) : Type := Slot { done : list Y; todo : list X }.
Arguments Slot {X Y} done todo.
Arguments done {X Y} s.
Arguments todo {X Y} s.

Definition unfinished {X Y} (slots : list (slot X Y)) : nat :=
  length (filter (λ s, todo s ≠ []) slots).

Definition pending {X Y} (slots : list (slot X Y)) : list X :=
  concat (todo <$> slots).

(** One worker step: the [k]-th unfinished batch runs its next task. A task
    that raises ends its batch ([mapstar] stops at the first exception). *)
Fixpoint step_slot {X Y} (func : X → M Y) (k : nat) (slots : list (slot X Y))
  : option (list event * option exn * list (slot X Y)) :=
  match slots with
  | [] => None
  | s :: rest =>
    match todo s, k with
    | x :: xs, 0 =>
      match func x with
      | (evs, Ok y) => Some (evs, None, Slot (done s ++ [y]) xs :: rest)
      | (evs, Raise e) => Some (evs, Some e, Slot (done s) [] :: rest)
      end
    | [], _ => (λ r, (r.1, s :: r.2)) <$> step_slot func k rest
    | _ :: _, S k' => (λ r, (r.1, s :: r.2)) <$> step_slot func k' rest
    end
  end.

(** The first exception to arrive is the one [MapResult] keeps. *)
Definition first_exn (e1 e2 : option exn) : option exn :=
  match e1 with
  | Some _ => e1
  | None => e2
  end.

(** The workers run the dispatched batches. Batches are taken from the
    shared queue in order, so the batches in progress are always among the
    first [workers] unfinished ones; the schedule [sched] says which of them
    makes the next step. *)
Fixpoint run_slots {X Y} (func : X → M Y) (workers fuel : nat) (sched : list nat)
    (slots : list (slot X Y)) : list event * option exn * list (slot X Y) :=
  match fuel with
  | 0 => ([], None, slots)
  | S fuel' =>
    let n := workers `min` unfinished slots in
    match step_slot func (hd 0 sched `mod` n) slots with
    | None => ([], None, slots)
    | Some (evs, e, slots') =>
      let r := run_slots func workers fuel' (tl sched) slots' in
      (evs ++ r.1.1, first_exn e r.1.2, r.2)
    end
  end.

(** Sending a batch to a worker pickles it; the first object that cannot be
    pickled makes the whole batch fail in the parent, and no worker sees it. *)
Definition pickle_batch {X} (pickle : X → option exn) (batch : list X) : option exn :=
  foldr (λ x acc, first_exn (pickle x) acc) None batch.

Definition dispatch {X Y} (pickle : X → option exn) (batch : list X) : slot X Y :=
  match pickle_batch pickle batch with
  | None => Slot [] batch
  | Some _ => Slot [] []
  end.

(** [pool.map(func, iterable)] on a pool of [workers] processes. The values
    come back in the order of [iterable] whatever the order of completion;
    the call returns (or raises) only when every batch is done. *)
Definition pool_map {X Y} (pickle : X → option exn) (func : X → M Y)
    (iterable : list X) (workers : nat) (sched : list nat) : M (list Y) :=
  let batches := get_tasks (chunksize (length iterable) workers) iterable in
  let unsent := foldr (λ b acc, first_exn (pickle_batch pickle b) acc) None batches in
  let r := run_slots func workers (length iterable) sched (dispatch pickle <$> batches) in
  (r.1.1,
   match first_exn unsent r.1.2 with
   | Some e => Raise e
   | None => Ok (concat (done <$> r.2))
   end).

(** ** Text *)

(** The newline character. *)
Definition nl : string := String "010"%char EmptyString.

(** [str.isspace] on the code points below 256. *)
Definition isspace (c : ascii) : bool :=
  let n := nat_of_ascii c in
  (9 <=? n) && (n <=? 13) || (28 <=? n) && (n <=? 32) || (n =? 133) || (n =? 160).

Definition is_nl (c : ascii) : bool := nat_of_ascii c =? 10.

Fixpoint lstrip (s : string) : string :=
  match s with
  | EmptyString => EmptyString
  | String c s' => if isspace c then lstrip s' else s
  end.

Fixpoint rstrip (s : string) : string :=
  match s with
  | EmptyString => EmptyString
  | String c s' =>
    match rstrip s' with
    | EmptyString => if isspace c then EmptyString else String c EmptyString
    | r => String c r
    end
  end.

(** [s.strip()] *)
Definition strip (s : string) : string := rstrip (lstrip s).

(** [s.split()]: the maximal runs of characters that are no whitespace;
    [tok] is the run being read. *)
Fixpoint split_go (tok : string) (s : string) : list string :=
  match s with
  | EmptyString => if decide (tok = EmptyString) then [] else [tok]
  | String c s' =>
    if isspace c then
      if decide (tok = EmptyString) then split_go EmptyString s'
      else tok :: split_go EmptyString s'
    else split_go (tok +:+ String c EmptyString) s'
  end.

Definition split (s : string) : list string := split_go EmptyString s.

(** [sep.join(parts)] *)
Fixpoint join (sep : string) (parts : list string) : string :=
  match parts with
  | [] => EmptyString
  | [p] => p
  | p :: ps => p +:+ sep +:+ join sep ps
  end.

(** [for line in file], on the text as Python's text layer hands it over:
    each line with its newline, the last one as it is. *)
Fixpoint lines_go (cur : string) (s : string) : list string :=
  match s with
  | EmptyString => if decide (cur = EmptyString) then [] else [cur]
  | String c s' =>
    if is_nl c then (cur +:+ nl) :: lines_go EmptyString s'
    else lines_go (cur +:+ String c EmptyString) s'
  end.

Definition lines (s : string) : list string := lines_go EmptyString s.

(** [str] of a number, as [write_matrix] and the log use it, and [float] of a
    token, as [read_matrix] uses it. *)
Class Text (T : Type) : Type := {
  str : T → string;
  float_of : string → result T
}.

(** Python ints as numbers: [str] prints decimals; reading a decimal back. *)
Definition digit_of (c : ascii) : option Z :=
  let n := nat_of_ascii c in
  if (48 <=? n) && (n <=? 57) then Some (Z.of_nat (n - 48)) else None.

Fixpoint digits_go (acc : Z) (s : string) : option Z :=
  match s with
  | EmptyString => Some acc
  | String c s' => d ← digit_of c; digits_go (10 * acc + d)%Z s'
  end.

Definition int_of (s : string) : result Z :=
  let bad := Raise (ValueError ("could not convert string to float: " +:+ s)) in
  match s with
  | EmptyString => bad
  | String "-" (String c s') => from_option (λ n, Ok (- n)%Z) bad (digits_go 0 (String c s'))
  | _ => from_option Ok bad (digits_go 0 s)
  end.

#[export] Instance Z_text : Text Z := {| str := pretty; float_of := int_of |}.

(** ** Files *)

(** The files, by name, with their text. *)
Abbreviation files := (gmap string string).

Definition apply_event (fs : files) (e : event) : files :=
  match e with
  | EvOpenW file => <[file := EmptyString]> fs
  | EvWrite file text => <[file := default EmptyString (fs !! file) +:+ text]> fs
  | _ => fs
  end.

Definition apply_events (fs : files) (evs : list event) : files :=
  foldl apply_event fs evs.

(** ** The functions of the module *)

(** [multiprocessing.Lock()] is a semaphore handle that other processes can
    only inherit: pickling it for a running worker raises. A lock obtained
    from a [Manager] is a proxy that can be sent to workers. The module only
    ever creates the first kind, at its line 109. *)
Inductive lock : Type := ProcessLock | ManagerLock.

Definition Lock : lock := ProcessLock.

Definition pickle_lock (l : lock) : option exn :=
  match l with
  | ProcessLock => Some LockNotShareable
  | ManagerLock => None
  end.

(** [mapM]: [list(map(f, xs))] for an [f] that may raise. *)
Fixpoint map_result {X Y} (f : X → result Y) (xs : list X) : result (list Y) :=
  match xs with
  | [] => Ok []
  | x :: xs' => y ← f x; ys ← map_result f xs'; Ok (y :: ys)
  end.

(** A matrix: a list of rows. *)
Abbreviation matrix T := (list (list T)).

Section Functions.
Context {T : Type} `{Number T} `{Text T}.

(** [multiprocessing.cpu_count()]. *)
Variable cpu_count : Z.

Definition read_matrix (fs : files) (filename : string) : result (matrix T) :=
  match fs !! filename with
  | None => Raise (FileNotFoundError filename)
  | Some file =>
    for_each (λ matrix line,
      if decide (strip line ≠ EmptyString) then
        row ← map_result float_of (split (strip line));
        Ok (matrix ++ [row])
      else Ok matrix) [] (lines file)
  end.

Definition write_matrix (filename : string) (matrix : matrix T) : M unit :=
  (EvOpenW filename ::
   ((λ row, let line := join " " (str <$> row) in
            EvWrite filename (line +:+ nl)) <$> matrix),
   Ok tt).

(** A cell task [(i, j, A, B)]. *)
Definition task : Type := nat * nat * matrix T * matrix T.

Definition compute_element (args : task) : M (nat * nat * T) :=
  let '(i, j, A, B) := args in
  _ ← emit (EvRun i j);
  lift (A0 ← getitem A 0;
        let N := length A0 in
        result ← for_each (λ result k,
                    Ai ← getitem A i; a ← getitem Ai k;
                    Bk ← getitem B k; b ← getitem Bk j;
                    Ok (add result (mul a b))) zero (seq 0 N);
        Ok (i, j, result)).

(** The double comprehension [for i in range(rows) for j in range(cols)]. *)
Definition positions (rows cols : nat) : list (nat * nat) :=
  i ← seq 0 rows; j ← seq 0 cols; [(i, j)].

(** [for i, j, value in results: C[i][j] = value] *)
Definition fill (C : matrix T) (results : list (nat * nat * T)) : result (matrix T) :=
  for_each (λ C '(i, j, value), setitem2 C i j value) C results.

Definition multiply_matrices (A B : matrix T) (num_processes : option pyvalue)
    (sched : list nat) : M (matrix T) :=
  if is_empty A || is_empty B then raise EmptyOperand else
  A0 ← lift (getitem A 0);
  if decide (length A0 ≠ length B) then raise DimensionMismatch else
  let rows_A := length A in
  let cols_A := length A0 in
  B0 ← lift (getitem B 0);
  let cols_B := length B0 in
  let tasks : list task := (λ '(i, j), (i, j, A, B)) <$> positions rows_A cols_B in
  _ ← emit (EvTasks (length tasks));
  let num_processes := default (PyInt cpu_count) num_processes in
  pool ← Pool num_processes;
  results ← pool_map (λ _, None) compute_element tasks pool sched;
  let C := replicate rows_A (replicate cols_B zero) in
  lift (fill C results).

(** A logging task [(i, j, A, B, lock, filename)]. *)
Definition write_task : Type := nat * nat * matrix T * matrix T * lock * string.

(** Pickling a task pickles the lock it holds. *)
Definition pickle_write_task (args : write_task) : option exn :=
  let '(i, j, A, B, lock, filename) := args in pickle_lock lock.

(** The line [f"{i} {j} {result}\n"]. *)
Definition log_line (i j : nat) (result : T) : string :=
  pretty i +:+ " " +:+ pretty j +:+ " " +:+ str result +:+ nl.

(** The append happens with the lock held, so it is one event. *)
Definition compute_and_write (args : write_task) : M (nat * nat * T) :=
  let '(i, j, A, B, lock, filename) := args in
  _ ← emit (EvRun i j);
  result ← lift (A0 ← getitem A 0;
                 let N := length A0 in
                 for_each (λ result k,
                    Ai ← getitem A i; a ← getitem Ai k;
                    Bk ← getitem B k; b ← getitem Bk j;
                    Ok (add result (mul a b))) zero (seq 0 N));
  _ ← emit (EvWrite filename (log_line i j result));
  mret (i, j, result).

(** The body of [multiply_matrices_with_intermediate_write], with the lock
    of its line 109 as an argument. *)
Definition intermediate_write_with (lock : lock) (A B : matrix T)
    (intermediate_file : string) (num_processes : option pyvalue)
    (sched : list nat) : M (matrix T) :=
  if is_empty A || is_empty B then raise EmptyOperand else
  A0 ← lift (getitem A 0);
  if decide (length A0 ≠ length B) then raise DimensionMismatch else
  let rows_A := length A in
  let cols_A := length A0 in
  B0 ← lift (getitem B 0);
  let cols_B := length B0 in
  _ ← emit (EvOpenW intermediate_file);
  let tasks : list write_task :=
    (λ '(i, j), (i, j, A, B, lock, intermediate_file)) <$> positions rows_A cols_B in
  _ ← emit (EvTasks (length tasks));
  let num_processes := default (PyInt cpu_count) num_processes in
  pool ← Pool num_processes;
  results ← pool_map pickle_write_task compute_and_write tasks pool sched;
  let C := replicate rows_A (replicate cols_B zero) in
  lift (fill C results).

Definition multiply_matrices_with_intermediate_write (A B : matrix T)
    (intermediate_file : string) (num_processes : option pyvalue)
    (sched : list nat) : M (matrix T) :=
  intermediate_write_with Lock A B intermediate_file num_processes sched.

End Functions.

(** ** The streaming pipeline *)

(** What travels on a queue: a matrix, or [None] for the end of the stream. *)
Abbreviation message T := (option (matrix T)).

Inductive channel : Type := QueueA | QueueB | ResultQueue.

#[export] Instance channel_eq_dec : EqDecision channel.
Proof. solve_decision. Defined.

(** What the actors do to the queues, and the calls of the multiply. *)
Inductive action (T : Type) : Type :=
| Put (q : channel) (m : message T)
| Get (q : channel) (m : message T)
| Multiply (A B : message T).
Arguments Put {T} q m.
Arguments Get {T} q m.
Arguments Multiply {T} A B.

(** [multiply_matrices_async] is about to call [queue_A.get()], holds [A]
    and is about to call [queue_B.get()], has returned, or has died of an
    exception. *)
Inductive multiplier (T : Type) : Type :=
| GetA
| GetB (A : message T)
| MultiplierDone
| MultiplierFailed (e : exn).
Arguments GetA {T}.
Arguments GetB {T} A.
Arguments MultiplierDone {T}.
Arguments MultiplierFailed {T} e.

(** The loop of [async_multiplication_demo] and its count. *)
Inductive consumer : Type :=
| Counting (completed : nat)
| Reported (completed : nat).

Section Pipeline.
Variable T : Type.
Context `{Number T}.
Variable cpu_count : Z.

(** The random number generator of a process and [random.random()]. *)
Variable rng : Type.
Variable random : rng → T * rng.

Fixpoint random_row (n : nat) (g : rng) : list T * rng :=
  match n with
  | 0 => ([], g)
  | S n' =>
    let '(x, g1) := random g in
    let '(row, g2) := random_row n' g1 in
    (x :: row, g2)
  end.

Fixpoint random_rows (rows n : nat) (g : rng) : matrix T * rng :=
  match rows with
  | 0 => ([], g)
  | S rows' =>
    let '(row, g1) := random_row n g in
    let '(rest, g2) := random_rows rows' n g1 in
    (row :: rest, g2)
  end.

(** [[[random.random() for _ in range(size)] for _ in range(size)]] *)
Definition generate_random_matrix (size : Z) (g : rng) : matrix T * rng :=
  random_rows (Z.to_nat size) (Z.to_nat size) g.

(** [generate_random_matrix_process]: in its loop with so many matrices
    still to generate (the sentinel follows the last one), or returned. *)
Inductive generator : Type :=
| Generating (remaining : nat) (g : rng)
| GeneratorDone.

(** One [queue.put] of a generator. *)
Definition generator_step (size : Z) (s : generator)
  : option (message T * generator) :=
  match s with
  | Generating (S remaining) g =>
    let '(matrix, g') := generate_random_matrix size g in
    Some (Some matrix, Generating remaining g')
  | Generating 0 g => Some (None, GeneratorDone)
  | GeneratorDone => None
  end.

(** One [get] of [multiply_matrices_async] and what follows it up to the
    next [get]; [None] when the queue is empty and the actor blocks. The
    result is the actions, the new state, the two input queues and what was
    put on the result queue. *)
Definition multiplier_step (sched : list nat) (s : multiplier T)
    (queue_A queue_B : list (message T))
  : option (list (action T) * multiplier T * list (message T) * list (message T)
            * list (message T)) :=
  match s with
  | GetA =>
    match queue_A with
    | [] => None
    | A :: queue_A' => Some ([Get QueueA A], GetB A, queue_A', queue_B, [])
    end
  | GetB A =>
    match queue_B with
    | [] => None
    | B :: queue_B' =>
      match A, B with
      | Some a, Some b =>
        match (multiply_matrices cpu_count a b None sched).2 with
        | Ok C =>
          Some ([Get QueueB B; Multiply A B; Put ResultQueue (Some C)],
                GetA, queue_A, queue_B', [Some C])
        | Raise e =>
          Some ([Get QueueB B; Multiply A B], MultiplierFailed e, queue_A, queue_B', [])
        end
      | _, _ =>
        Some ([Get QueueB B; Put ResultQueue None],
              MultiplierDone, queue_A, queue_B', [None])
      end
    end
  | MultiplierDone | MultiplierFailed _ => None
  end.

(** One [result_queue.get()] of the draining loop. *)
Definition consumer_step (s : consumer) (result_queue : list (message T))
  : option (message T * consumer * list (message T)) :=
  match s, result_queue with
  | Counting completed, Some C :: rest => Some (Some C, Counting (completed + 1), rest)
  | Counting completed, None :: rest => Some (None, Reported completed, rest)
  | _, _ => None
  end.

(** The processes of [async_multiplication_demo] and their queues. *)
Record pipeline : Type := Pipeline {
  queue_A : list (message T);
  queue_B : list (message T);
  result_queue : list (message T);
  generator_A : generator;
  generator_B : generator;
  the_multiplier : multiplier T;
  the_consumer : consumer;
  history : list (action T)
}.

(** Who makes the next step; the multiplier's pool has a schedule of its own. *)
Inductive actor : Type :=
| GeneratorA
| GeneratorB
| Multiplier (sched : list nat)
| Consumer.

Definition step (size : Z) (who : actor) (p : pipeline) : option pipeline :=
  match who with
  | GeneratorA =>
    '(m, s) ← generator_step size (generator_A p);
    Some (Pipeline (queue_A p ++ [m]) (queue_B p) (result_queue p)
            s (generator_B p) (the_multiplier p) (the_consumer p)
            (history p ++ [Put QueueA m]))
  | GeneratorB =>
    '(m, s) ← generator_step size (generator_B p);
    Some (Pipeline (queue_A p) (queue_B p ++ [m]) (result_queue p)
            (generator_A p) s (the_multiplier p) (the_consumer p)
            (history p ++ [Put QueueB m]))
  | Multiplier sched =>
    '(acts, s, qA, qB, out) ← multiplier_step sched (the_multiplier p) (queue_A p) (queue_B p);
    Some (Pipeline qA qB (result_queue p ++ out)
            (generator_A p) (generator_B p) s (the_consumer p)
            (history p ++ acts))
  | Consumer =>
    '(m, s, rest) ← consumer_step (the_consumer p) (result_queue p);
    Some (Pipeline (queue_A p) (queue_B p) rest
            (generator_A p) (generator_B p) (the_multiplier p) s
            (history p ++ [Get ResultQueue m]))
  end.

(** The three processes have been started and the loop is about to begin. *)
Definition async_multiplication_demo (num_matrices : Z) (gA gB : rng) : pipeline :=
  Pipeline [] [] []
    (Generating (Z.to_nat num_matrices) gA) (Generating (Z.to_nat num_matrices) gB)
    GetA (Counting 0) [].

(** A run: the actors step in the order [who]. *)
Fixpoint exec (size : Z) (who : list actor) (p : pipeline) : option pipeline :=
  match who with
  | [] => Some p
  | a :: who' => p' ← step size a p; exec size who' p'
  end.

(** Nobody can move: every process has ended or waits for ever. *)
Definition stuck (size : Z) (p : pipeline) : Prop :=
  ∀ who, step size who p = None.

End Pipeline.

Arguments Generating {rng} remaining g.
Arguments GeneratorDone {rng}.
Arguments generator_step {T rng} random size s.
Arguments multiplier_step {T _} cpu_count sched s queue_A queue_B.
Arguments consumer_step {T} s result_queue.
Arguments Pipeline {T rng}.
Arguments queue_A {T rng} p.
Arguments queue_B {T rng} p.
Arguments result_queue {T rng} p.
Arguments generator_A {T rng} p.
Arguments generator_B {T rng} p.
Arguments the_multiplier {T rng} p.
Arguments the_consumer {T rng} p.
Arguments history {T rng} p.
Arguments step {T _} cpu_count {rng} random size who p.
Arguments exec {T _} cpu_count {rng} random size who p.
Arguments stuck {T _} cpu_count {rng} random size p.
Arguments async_multiplication_demo {T rng} num_matrices gA gB.
Arguments generate_random_matrix {T rng} random size g.
Arguments random_rows {T rng} random rows n g.
Arguments random_row {T rng} random n g.

(** ** The vocabulary of the properties *)

Section Vocabulary.
Context {T : Type} `{Number T}.

(** [C[i][j]], when there is such a cell. *)
Definition lookup2 (C : matrix T) (i j : nat) : option T := C !! i ≫= (.!! j).

Definition cell (C : matrix T) (i j : nat) : T := default zero (lookup2 C i j).

(** [A] has [m] rows of [n] numbers each. *)
Definition shape (A : matrix T) (m n : nat) : Prop :=
  length A = m ∧ Forall (λ row, length row = n) A.

(** The reference of the specification: the sequential triple loop
    [for i: for j: for k: C[i][j] += A[i][k] * B[k][j]] on a zero matrix of
    [rows(A)] by [cols(B)], with [k] from 0 upward. *)
Definition naive_product (A B : matrix T) : matrix T :=
  let m := length A in
  let K := length (hd [] A) in
  let n := length (hd [] B) in
  foldl (λ C i,
    foldl (λ C j,
      foldl (λ C k,
        alter (alter (λ c, add c (mul (cell A i k) (cell B k j))) j) i C)
      C (seq 0 K))
    C (seq 0 n))
  (replicate m (replicate n zero)) (seq 0 m).

(** The sum of one cell, and a matrix given cell by cell. *)
Definition dot (A B : matrix T) (K i j : nat) : T :=
  foldl (λ acc k, add acc (mul (cell A i k) (cell B k j))) zero (seq 0 K).

Definition tabulate (m n : nat) (f : nat → nat → T) : matrix T :=
  (λ i, f i <$> seq 0 n) <$> seq 0 m.

(** [C'] is [C] with [F i j] applied to the cells that satisfy [P]. *)
Definition updates (P : nat → nat → Prop) (F : nat → nat → T → T)
    (C C' : matrix T) : Prop :=
  length C' = length C ∧
  ∀ i j, (P i j → lookup2 C' i j = F i j <$> lookup2 C i j) ∧
         (¬ P i j → lookup2 C' i j = lookup2 C i j).

End Vocabulary.

(** A number of processes that [Pool] accepts: an int, at least 1. *)
Definition positive_int (v : pyvalue) : Prop := ∃ n, v = PyInt n ∧ (1 ≤ n)%Z.

(** The count a call ends up with is accepted: the override when there is
    one, [cpu_count()] otherwise. *)
Definition valid_count (cpu_count : Z) (num_processes : option pyvalue) : Prop :=
  ∃ n, default (PyInt cpu_count) num_processes = PyInt n ∧ (1 ≤ n)%Z.

(** Every task of [xs] returns [g x] after the events [ev x]. *)
Definition runs_well {X Y} (func : X → M Y) (ev : X → list event) (g : X → Y)
    (xs : list X) : Prop :=
  ∀ x, x ∈ xs → func x = (ev x, Ok (g x)).

(** The values of a batch once its worker is through. *)
Definition finish {X Y} (g : X → Y) (s : slot X Y) : list Y :=
  done s ++ (g <$> todo s).

(** *** The pipeline *)

Section PipelineVocabulary.
Context {T : Type} {rng : Type}.
Variable random : rng → T * rng.

(** The matrices of [n] calls of [generate_random_matrix] in a row. *)
Fixpoint generated (size : Z) (n : nat) (g : rng) : list (matrix T) :=
  match n with
  | 0 => []
  | S n' =>
    let '(matrix, g') := generate_random_matrix random size g in
    matrix :: generated size n' g'
  end.

(** What a generator has still to put on its queue. *)
Definition stream_from (size : Z) (s : generator rng) : list (message T) :=
  match s with
  | Generating remaining g => (Some <$> generated size remaining g) ++ [None]
  | GeneratorDone => []
  end.

(** What was put on a queue and what was taken from it, in order. *)
Definition sent (q : channel) (h : list (action T)) : list (message T) :=
  omap (λ a, match a with
             | Put q' m => if decide (q' = q) then Some m else None
             | _ => None
             end) h.

Definition received (q : channel) (h : list (action T)) : list (message T) :=
  omap (λ a, match a with
             | Get q' m => if decide (q' = q) then Some m else None
             | _ => None
             end) h.

(** The actions of the multiplier actor: its two gets, its calls of the
    multiply and its puts. *)
Definition by_multiplier (a : action T) : bool :=
  match a with
  | Get QueueA _ | Get QueueB _ | Multiply _ _ | Put ResultQueue _ => true
  | _ => false
  end.

Definition multiplier_actions (h : list (action T)) : list (action T) :=
  filter (λ a, by_multiplier a = true) h.

(** What is left to do, counted so that every step takes some of it away. *)
Definition to_generate (s : generator rng) : nat :=
  match s with
  | Generating remaining _ => S remaining
  | GeneratorDone => 0
  end.

Definition potential (p : pipeline T rng) : nat :=
  2 * to_generate (generator_A p) + length (queue_A p)
  + 3 * to_generate (generator_B p) + 2 * length (queue_B p)
  + length (result_queue p).

End PipelineVocabulary.

(** *** The text of a matrix *)

(** No whitespace in [s]; no newline in [s]. *)
Fixpoint no_space (s : string) : bool :=
  match s with
  | EmptyString => true
  | String c s' => negb (isspace c) && no_space s'
  end.

Fixpoint no_nl (s : string) : bool :=
  match s with
  | EmptyString => true
  | String c s' => negb (is_nl c) && no_nl s'
  end.

(** What [split] returns: a run of characters that are no whitespace. *)
Definition token (s : string) : Prop := s ≠ EmptyString ∧ no_space s = true.

(** The text of a file written piece by piece. *)
Fixpoint concat_text (ls : list string) : string :=
  match ls with
  | [] => EmptyString
  | l :: ls' => l +:+ concat_text ls'
  end.

Section TextVocabulary.
Context {T : Type} `{Text T}.
(** The line [write_matrix] writes for a row. *)
Definition row_line (row : list T) : string := join " " (str <$> row) +:+ nl.
(** [str x] is one token and [float] reads it back as a number that is
    [close] to [x]: what the text form of floats keeps of a number. *)
Definition printable (close : T → T → Prop) (x : T) : Prop :=
  token (str x) ∧ ∃ y, float_of (str x) = Ok y ∧ close x y.
End TextVocabulary.

(** A [size] by [size] matrix. *)
Definition square {T} (size : Z) (m : matrix T) : Prop :=
  shape m (Z.to_nat size) (Z.to_nat size).

Section PipelineInvariant.
Context {T : Type} `{Number T} {rng : Type}.
Variable random : rng → T * rng.
Variable size : Z.

(** What the multiplier has received and sent fits its state. *)
Definition multiplier_fits (s : multiplier T) (rA rB sR : list (message T)) : Prop :=
  ∃ As Bs : list (matrix T),
    length As = length Bs ∧
    match s with
    | GetA =>
      rA = Some <$> As ∧ rB = Some <$> Bs ∧
      sR = Some <$> zip_with naive_product As Bs
    | GetB A =>
      rA = (Some <$> As) ++ [A] ∧ rB = Some <$> Bs ∧
      sR = Some <$> zip_with naive_product As Bs
    | MultiplierDone =>
      ∃ A B, (A = None ∨ B = None) ∧
        rA = (Some <$> As) ++ [A] ∧ rB = (Some <$> Bs) ++ [B] ∧
        sR = (Some <$> zip_with naive_product As Bs) ++ [None]
    | MultiplierFailed _ => False
    end.

Definition consumer_fits (s : consumer) (rR : list (message T)) : Prop :=
  ∃ Cs : list (matrix T),
    match s with
    | Counting completed => rR = Some <$> Cs ∧ completed = length Cs
    | Reported completed => rR = (Some <$> Cs) ++ [None] ∧ completed = length Cs
    end.

(** The invariant of a run whose generators are to send [sA] and [sB]. *)
Definition fits (sA sB : list (message T)) (p : pipeline T rng) : Prop :=
  let h := history p in
  sent QueueA h ++ stream_from random size (generator_A p) = sA ∧
  sent QueueB h ++ stream_from random size (generator_B p) = sB ∧
  received QueueA h ++ queue_A p = sent QueueA h ∧
  received QueueB h ++ queue_B p = sent QueueB h ∧
  received ResultQueue h ++ result_queue p = sent ResultQueue h ∧
  multiplier_fits (the_multiplier p) (received QueueA h) (received QueueB h)
    (sent ResultQueue h) ∧
  consumer_fits (the_consumer p) (received ResultQueue h).
End PipelineInvariant.

Section MultiplierVocabulary.
Context {T : Type}.

(** One full round of the multiplier actor. *)
Definition round (a b C : matrix T) : list (action T) :=
  [Get QueueA (Some a); Get QueueB (Some b); Multiply (Some a) (Some b);
   Put ResultQueue (Some C)].

Inductive product_rounds : list (action T) → Prop :=
| rounds_nil : product_rounds []
| rounds_snoc h a b C : product_rounds h → product_rounds (h ++ round a b C).

(** The actions of the multiplier actor by its state: full rounds, then the
    gets of the round in progress; the last round of an actor that has
    returned holds a sentinel and ends with the one sentinel it puts. *)
Definition multiplier_shape (s : multiplier T) (h : list (action T)) : Prop :=
  ∃ h0, product_rounds h0 ∧
    match s with
    | GetA => h = h0
    | GetB A => h = h0 ++ [Get QueueA A]
    | MultiplierDone =>
      ∃ A B, (A = None ∨ B = None) ∧
        h = h0 ++ [Get QueueA A; Get QueueB B; Put ResultQueue None]
    | MultiplierFailed _ =>
      ∃ a b, h = h0 ++ [Get QueueA (Some a); Get QueueB (Some b);
                        Multiply (Some a) (Some b)]
    end.

(** An action that involves no sentinel. *)
Definition sentinel_free (x : action T) : Prop :=
  match x with
  | Get _ (Some _) | Put _ (Some _) | Multiply (Some _) (Some _) => True
  | _ => False
  end.

(** Stopping at once: after a sentinel has been taken from a queue, no get
    follows. *)
Definition stops_at_sentinel (h : list (action T)) : Prop :=
  ∀ h1 q h2, h = h1 ++ Get q None :: h2 → ∀ q' m, Get q' m ∉ h2.
End MultiplierVocabulary.

(** The pieces of text written to [file], in order, and whether [file] is
    opened for writing (and so emptied) by one of the events. *)
Definition written (file : string) (evs : list event) : list string :=
  omap (λ e, match e with
             | EvWrite f text => if decide (f = file) then Some text else None
             | _ => None
             end) evs.

Definition reopened (file : string) (evs : list event) : Prop :=
  EvOpenW file ∈ evs.

(** A random source for examples: it counts up from its seed. *)
Definition counting_random (g : nat) : Z * nat := (Z.of_nat g, S g).

(** *** Operands that are not rectangular *)

Section RaggedVocabulary.
Context {T : Type} `{Number T}.

(** Every row of [A] has at least [n] entries. *)
Definition wide (A : matrix T) (n : nat) : Prop := Forall (λ row, n ≤ length row) A.

(** [A] cut to its first [n] columns. *)
Definition truncate (n : nat) (A : matrix T) : matrix T := take n <$> A.

(** The cells that [compute_element] reads for the cell [(i, j)] exist:
    [A[i][k]] and [B[k][j]] for every [k] below [len(A[0])]. *)
Definition readable (A B : matrix T) (i j : nat) : Prop :=
  Forall (λ k, is_Some (lookup2 A i k) ∧ is_Some (lookup2 B k j))
         (seq 0 (length (hd [] A))).

(** All the cells of all the tasks of [multiply_matrices] exist. *)
Definition all_readable (A B : matrix T) : Prop :=
  Forall (λ p, readable A B p.1 p.2) (positions (length A) (length (hd [] B))).

#[export] Instance readable_dec A B i j : Decision (readable A B i j).
Proof. unfold readable. apply _. Defined.

#[export] Instance all_readable_dec A B : Decision (all_readable A B).
Proof. unfold all_readable. apply _. Defined.

(** The four ways [multiply_matrices] raises. *)
Definition multiply_error (e : exn) : Prop :=
  e = EmptyOperand ∨ e = DimensionMismatch ∨ InvalidConfiguration e ∨ e = IndexError.

End RaggedVocabulary.

(** *** The layout of a text *)

(** Whitespace and nothing else. *)
Fixpoint blank (s : string) : bool :=
  match s with
  | EmptyString => true
  | String c s' => isspace c && blank s'
  end.

(** The token lists of the lines of a text that hold a token. *)
Definition token_lines (text : string) : list (list string) :=
  filter (λ toks, toks ≠ []) (split <$> lines text).

(** *** Runs of the pipeline that do not end well *)

Section StarvedVocabulary.
Context {T : Type} {rng : Type}.
Variable random : rng → T * rng.
Variable size : Z.

(** The next message is the matrix without rows. *)
Definition empty_matrix_first (ms : list (message T)) : Prop :=
  ∃ rest, ms = Some [] :: rest.

(** The state of a run for a size below 1: nothing reaches the result
    queue, and the first pair the multiplier takes is a pair of matrices
    without rows. *)
Definition starved (p : pipeline T rng) : Prop :=
  result_queue p = [] ∧ the_consumer p = Counting 0 ∧
  sent ResultQueue (history p) = [] ∧
  match the_multiplier p with
  | GetA =>
    empty_matrix_first (queue_A p ++ stream_from random size (generator_A p)) ∧
    empty_matrix_first (queue_B p ++ stream_from random size (generator_B p))
  | GetB A =>
    A = Some [] ∧
    empty_matrix_first (queue_B p ++ stream_from random size (generator_B p))
  | MultiplierFailed e => e = EmptyOperand
  | MultiplierDone => False
  end.

(** A generator that has no matrix left to generate. *)
Definition idle (s : generator rng) : Prop :=
  match s with
  | Generating remaining _ => remaining = 0
  | GeneratorDone => True
  end.

End StarvedVocabulary.

(** A pipeline whose generators have no matrix left to generate. *)
Definition idle_pipeline {T rng} (p : pipeline T rng) : Prop :=
  idle (generator_A p) ∧ idle (generator_B p).

(** The count of the draining loop. *)
Definition completed_of (s : consumer) : nat :=
  match s with
  | Counting completed | Reported completed => completed
  end.

(** The matrices among the messages. *)
Definition matrices {T} (ms : list (message T)) : list (matrix T) := omap id ms.

(** ** The command line *)

(** How [main] ends: it returns; an exception leaves it; [input] finds the
    standard input at its end; or it has reached its last statement in mode
    3, the call [async_multiplication_demo(size, num_matrices)]. *)
Inductive outcome : Type :=
| Returned
| Raised (e : exn)
| EndOfInput
| Demo (size num_matrices : Z).

(** The lines still to be read from the standard input, what has been
    written to the standard output, and the files. *)
Record world : Type := World {
  stdin : list string;
  stdout : list string;
  disk : files
}.

(** A statement of [main]: it goes on with a value, or it ends [main]. *)
Definition proc (A : Type) : Type := world → (A + outcome) * world.

#[export] Instance proc_ret : MRet proc := λ A a w, (inl a, w).
#[export] Instance proc_bind : MBind proc := λ A B f m w,
  match m w with
  | (inl a, w') => f a w'
  | (inr o, w') => (inr o, w')
  end.

(** [print(text)] *)
Definition print (text : string) : proc unit := λ w,
  (inl tt, World (stdin w) (stdout w ++ [text +:+ nl]) (disk w)).

(** [input(prompt)]: the prompt is written and a line is read, which comes
    without its newline. *)
Definition input (prompt : string) : proc string := λ w,
  let out := stdout w ++ [prompt] in
  match stdin w with
  | [] => (inr EndOfInput, World [] out (disk w))
  | line :: rest => (inl line, World rest out (disk w))
  end.

(** [return] *)
Definition return_ {A} : proc A := λ w, (inr Returned, w).

(** [os.path.exists(path)], on a disk of plain files. *)
Definition path_exists (path : string) : proc bool := λ w,
  (inl (bool_decide (is_Some (disk w !! path))), w).

(** A call that reads the files. *)
Definition reading {A} (f : files → result A) : proc A := λ w,
  match f (disk w) with
  | Ok a => (inl a, w)
  | Raise e => (inr (Raised e), w)
  end.

(** A call in the monad of the functions: its events change the files, its
    exception leaves [main]. *)
Definition calling {A} (m : M A) : proc A := λ w,
  let w' := World (stdin w) (stdout w) (apply_events (disk w) m.1) in
  match m.2 with
  | Ok a => (inl a, w')
  | Raise e => (inr (Raised e), w')
  end.

Section Main.
Context {T : Type} `{Number T} `{Text T}.

Variable cpu_count : Z.
(** [int(text)] of a line of input: [None] where it raises [ValueError]. *)
Variable int : string → option Z.

(** The branch [choice == '1']. *)
Definition main_mode_1 (sched : list nat) : proc unit :=
  matrix1_file ← input "Введите имя файла первой матрицы (например, matrix1.txt): ";
  matrix2_file ← input "Введите имя файла второй матрицы (например, matrix2.txt): ";
  result_file ← input "Введите имя файла для записи результата (например, result_matrix.txt): ";
  found1 ← path_exists matrix1_file;
  if negb found1 then
    _ ← print ("Файл " +:+ matrix1_file +:+ " не найден."); return_
  else
  found2 ← path_exists matrix2_file;
  if negb found2 then
    _ ← print ("Файл " +:+ matrix2_file +:+ " не найден."); return_
  else
  A ← reading (λ fs, read_matrix (T:=T) fs matrix1_file);
  B ← reading (λ fs, read_matrix (T:=T) fs matrix2_file);
  _ ← print "Перемножение матриц...";
  C ← calling (multiply_matrices cpu_count A B None sched);
  _ ← calling (write_matrix result_file C);
  print ("Результат записан в файл " +:+ result_file).

(** The branch [choice == '2']. *)
Definition main_mode_2 (sched : list nat) : proc unit :=
  matrix1_file ← input "Введите имя файла первой матрицы (например, matrix1.txt): ";
  matrix2_file ← input "Введите имя файла второй матрицы (например, matrix2.txt): ";
  intermediate_file ← input "Введите имя промежуточного файла (например, intermediate_results.txt): ";
  result_file ← input "Введите имя файла для записи результата (например, result_matrix.txt): ";
  found1 ← path_exists matrix1_file;
  if negb found1 then
    _ ← print ("Файл " +:+ matrix1_file +:+ " не найден."); return_
  else
  found2 ← path_exists matrix2_file;
  if negb found2 then
    _ ← print ("Файл " +:+ matrix2_file +:+ " не найден."); return_
  else
  A ← reading (λ fs, read_matrix (T:=T) fs matrix1_file);
  B ← reading (λ fs, read_matrix (T:=T) fs matrix2_file);
  _ ← print "Перемножение матриц с записью промежуточных результатов...";
  C ← calling (multiply_matrices_with_intermediate_write cpu_count A B
                 intermediate_file None sched);
  _ ← calling (write_matrix result_file C);
  _ ← print ("Результат записан в файл " +:+ result_file);
  print ("Промежуточные результаты записаны в файл " +:+ intermediate_file).

(** The branch [choice == '3']: the second line is only read when the first
    one is an integer. *)
Definition main_mode_3 : proc unit :=
  let invalid : proc unit :=
    _ ← print "Некорректный ввод. Размерность и количество должны быть целыми числами.";
    return_ in
  let start (size num_matrices : Z) : proc unit :=
    _ ← print "Запуск асинхронной генерации и перемножения матриц...";
    ((λ w, (inr (Demo size num_matrices), w)) : proc unit) in
  size_text ← input "Введите размерность квадратных матриц (например, 100): ";
  match int size_text return proc unit with
  | None => invalid
  | Some size =>
    count_text ← input "Введите количество матриц для генерации и перемножения (например, 5): ";
    match int count_text return proc unit with
    | None => invalid
    | Some num_matrices => start size num_matrices
    end
  end.

Definition main_body (sched : list nat) : proc unit :=
  _ ← print "Параллельное перемножение матриц с использованием multiprocessing";
  _ ← print "Выберите режим работы:";
  _ ← print "1. Перемножение матриц из файлов.";
  _ ← print "2. Перемножение матриц из файлов с записью промежуточных результатов.";
  _ ← print "3. Генерация случайных матриц и их асинхронное перемножение.";
  choice ← input "Введите номер режима (1/2/3): ";
  if decide (choice = "1") then main_mode_1 sched
  else if decide (choice = "2") then main_mode_2 sched
  else if decide (choice = "3") then main_mode_3
  else print "Некорректный выбор режима.".

Definition main (sched : list nat) (w : world) : outcome * world :=
  match main_body sched w with
  | (inl _, w') => (Returned, w')
  | (inr o, w') => (o, w')
  end.

End Main.

(** Events that leave the files as they are. *)
Definition touches_no_file (evs : list event) : Prop :=
  Forall (λ e, match e with
               | EvOpenW _ | EvWrite _ _ => False
               | _ => True
               end) evs.

(** [int] for lines of decimal digits with an optional minus sign. *)
Definition int_of_digits (text : string) : option Z :=
  match int_of text with
  | Ok n => Some n
  | Raise _ => None
  end.

(** * The model at work *)

Example chunksize_of_4_tasks_8_workers : chunksize 4 8 = 1.
Proof. reflexivity. Qed.

Example chunksize_of_100_tasks_2_workers : chunksize 100 2 = 13.
Proof. reflexivity. Qed.

Example get_tasks_of_5 : get_tasks 2 [1; 2; 3; 4; 5] = [[1; 2]; [3; 4]; [5]].
Proof. reflexivity. Qed.

Example Pool_of_a_float :
  Pool (PyFloat 2.5) = ([], Raise (TypeError msg_float)).
Proof. reflexivity. Qed.

Example Pool_of_zero :
  Pool (PyInt 0) = ([], Raise (ValueError msg_processes)).
Proof. reflexivity. Qed.

(** Two schedules of two workers: the cells are computed in another order,
    the product is the same. *)
Example multiply_in_order :
  multiply_matrices 4 [[1; 2]; [3; 4]]%Z [[5; 6]; [7; 8]]%Z (Some (PyInt 2)) []
  = ([EvTasks 4; EvPool 2; EvRun 0 0; EvRun 0 1; EvRun 1 0; EvRun 1 1],
     Ok [[19; 22]; [43; 50]]%Z).
Proof. reflexivity. Qed.

Example multiply_out_of_order :
  multiply_matrices 4 [[1; 2]; [3; 4]]%Z [[5; 6]; [7; 8]]%Z (Some (PyInt 2)) [3; 1; 2; 1]
  = ([EvTasks 4; EvPool 2; EvRun 0 1; EvRun 1 0; EvRun 0 0; EvRun 1 1],
     Ok [[19; 22]; [43; 50]]%Z).
Proof. reflexivity. Qed.

(** A ragged operand passes the checks and fails in a worker. *)
Example multiply_ragged :
  multiply_matrices 4 [[1; 2]; [3]]%Z [[5]; [7]]%Z None []
  = ([EvTasks 2; EvPool 4; EvRun 0 0; EvRun 1 0], Raise IndexError).
Proof. reflexivity. Qed.

Example split_of_a_line :
  split (" 12  3.5 -7" +:+ nl) = ["12"; "3.5"; "-7"].
Proof. reflexivity. Qed.

Example lines_of_a_file :
  lines ("1 2" +:+ nl +:+ nl +:+ "3 4") = ["1 2" +:+ nl; nl; "3 4"].
Proof. reflexivity. Qed.

Example read_skips_blank_lines :
  read_matrix (T:=Z) {["m.txt" := "1 2" +:+ nl +:+ " " +:+ nl +:+ "3 4"]} "m.txt"
  = Ok [[1; 2]; [3; 4]]%Z.
Proof. reflexivity. Qed.

(** The logging multiply as the module has it, and its body with a lock that
    can be sent to the workers. *)
Example logging_multiply_as_it_is :
  multiply_matrices_with_intermediate_write 4 [[1; 2]; [3; 4]]%Z [[5; 6]; [7; 8]]%Z
    "log.txt" None []
  = ([EvOpenW "log.txt"; EvTasks 4; EvPool 4], Raise LockNotShareable).
Proof. reflexivity. Qed.

Example logging_multiply_with_manager_lock :
  apply_events {["log.txt" := "old"]}
    (intermediate_write_with 4 ManagerLock [[1; 2]; [3; 4]]%Z [[5; 6]; [7; 8]]%Z
       "log.txt" None [2; 1]).1 !! "log.txt"
  = Some ("1 0 43" +:+ nl +:+ "0 1 22" +:+ nl +:+ "0 0 19" +:+ nl +:+ "1 1 50" +:+ nl).
Proof. vm_compute. reflexivity. Qed.

(** * Lemmas *)

(** ** Results and loops *)

Lemma for_each_app {S X} (body : S → X → result S) s xs ys :
  for_each body s (xs ++ ys) = (s' ← for_each body s xs; for_each body s' ys).
Proof.
  revert s. induction xs as [|x xs IH]; intros s; simpl; [done|].
  destruct (body s x) as [s'|e]; simpl; [apply IH | done].
Qed.

(** A loop whose body never raises is a fold. *)
Lemma for_each_foldl {S X} (body : S → X → result S) (f : S → X → S) xs :
  ∀ s, (∀ s x, x ∈ xs → body s x = Ok (f s x)) →
  for_each body s xs = Ok (foldl f s xs).
Proof.
  induction xs as [|x xs IH]; intros s Hb; simpl; [done|].
  rewrite Hb by left. simpl. apply IH. intros. apply Hb. by right.
Qed.

(** ** Batches *)

Lemma chunksize_pos len workers : 0 < len → 0 < workers → 0 < chunksize len workers.
Proof.
  intros Hl Hw. unfold chunksize.
  destruct (decide (len = 0)); [lia|].
  destruct (decide (len `mod` (workers * 4) = 0)) as [He|]; [|lia].
  pose proof (Nat.div_mod_eq len (workers * 4)). 
  destruct (len / (workers * 4)); lia.
Qed.

Lemma get_tasks_aux_concat {X} fuel size (it : list X) :
  0 < size → length it ≤ fuel → concat (get_tasks_aux fuel size it) = it.
Proof.
  intros Hs. revert it. induction fuel as [|fuel IH]; intros it Hl; simpl.
  - destruct it; [done | simpl in Hl; lia].
  - destruct (take size it) as [|y ys] eqn:Ht.
    + destruct it; [done|]. destruct size; [lia | by simpl in Ht].
    + rewrite <- Ht. simpl. rewrite IH, take_drop; [done|].
      rewrite length_drop. destruct it; [by destruct size|]. simpl in *. lia.
Qed.

(** The batches are the iterable, cut up. *)
Lemma get_tasks_concat {X} size (it : list X) :
  (it ≠ [] → 0 < size) → concat (get_tasks size it) = it.
Proof.
  intros Hs. unfold get_tasks. destruct it as [|x it]; [done|].
  apply get_tasks_aux_concat; [by apply Hs | done].
Qed.

(** ** Workers *)

Section Workers.
Context {X Y : Type} (func : X → M Y) (ev : X → list event) (g : X → Y).

Local Abbreviation runs_well := (runs_well func ev g).
Local Abbreviation finish := (finish g).

Lemma unfinished_0 (slots : list (slot X Y)) :
  unfinished slots = 0 ↔ pending slots = [].
Proof.
  unfold unfinished, pending. induction slots as [|s slots IH]; [done|].
  rewrite filter_cons, fmap_cons. case_decide as Hd; simpl.
  - split; [lia|]. by intros [? ?]%app_eq_nil.
  - destruct (todo s); [done | done].
Qed.

Lemma step_slot_none k (slots : list (slot X Y)) :
  pending slots = [] → step_slot func k slots = None.
Proof.
  unfold pending. revert k. induction slots as [|s slots IH]; intros k Hp; simpl in *; [done|].
  apply app_eq_nil in Hp as [-> Hp]. rewrite IH by done. by destruct k.
Qed.

(** A step of the [k]-th unfinished batch, when every task runs well: the
    batch gives its first task and gains the value of that task. *)
Lemma step_slot_ok k (slots : list (slot X Y)) :
  k < unfinished slots → runs_well (pending slots) →
  ∃ pre s x xs post,
    slots = pre ++ s :: post ∧ todo s = x :: xs ∧
    step_slot func k slots = Some (ev x, None, pre ++ Slot (done s ++ [g x]) xs :: post).
Proof.
  unfold unfinished, pending. revert k.
  induction slots as [|s slots IH]; intros k Hk Hw; [simpl in *; lia|].
  rewrite filter_cons in Hk. rewrite fmap_cons in Hw. case_decide as Hd.
  - destruct (todo s) as [|x xs] eqn:Hs; [done|]. simpl in *. rewrite Hs.
    destruct k as [|k].
    + exists [], s, x, xs, slots. rewrite (Hw x) by left. done.
    + destruct (IH k) as (pre & s' & x' & xs' & post & -> & Ht & ->).
      * simpl in Hk. lia.
      * intros y Hy. apply Hw. right. apply elem_of_app. by right.
      * by exists (s :: pre), s', x', xs', post.
  - destruct (todo s) as [|x xs] eqn:Hs; [|done]. simpl in *. rewrite Hs.
    destruct (IH k Hk Hw) as (pre & s' & x & xs & post & -> & Ht & ->).
    exists (s :: pre), s', x, xs, post. by destruct k.
Qed.

(** Whatever the schedule, the workers run every task once, each batch ends
    with the values of its tasks in their order, and the events are those of
    the tasks in some order. *)
Lemma run_slots_ok workers fuel sched (slots : list (slot X Y)) :
  0 < workers → runs_well (pending slots) → length (pending slots) ≤ fuel →
  ∃ evs slots',
    run_slots func workers fuel sched slots = (evs, None, slots') ∧
    done <$> slots' = finish <$> slots ∧
    evs ≡ₚ concat (ev <$> pending slots).
Proof.
  intros Hw. revert sched slots.
  assert (Hbase : ∀ slots : list (slot X Y), pending slots = [] →
            done <$> slots = finish <$> slots).
  { unfold pending, finish. induction slots as [|s slots IH]; [done|].
    rewrite !fmap_cons. cbn [concat]. intros [Hs Hp]%app_eq_nil.
    rewrite Hs, IH by done. simpl. by rewrite app_nil_r. }
  induction fuel as [|fuel IH]; intros sched slots Hgood Hlen; simpl.
  - assert (pending slots = []) as Hp by (destruct (pending slots); [done | simpl in *; lia]).
    exists [], slots. rewrite Hp. auto.
  - destruct (decide (unfinished slots = 0)) as [H0|H0].
    + apply unfinished_0 in H0. rewrite step_slot_none by done.
      exists [], slots. rewrite H0. auto.
    + destruct (step_slot_ok (hd 0 sched `mod` (workers `min` unfinished slots)) slots)
        as (pre & s & x & xs & post & -> & Ht & ->); [|done|].
      { pose proof (Nat.mod_upper_bound (hd 0 sched) (workers `min` unfinished slots)). lia. }
      assert (Hp : pending (pre ++ s :: post) = pending pre ++ x :: xs ++ pending post).
      { unfold pending. rewrite fmap_app, concat_app. simpl. by rewrite Ht. }
      assert (Hp' : pending (pre ++ Slot (done s ++ [g x]) xs :: post)
                    = pending pre ++ xs ++ pending post).
      { unfold pending. rewrite fmap_app, concat_app. done. }
      rewrite Hp in *.
      destruct (IH (tl sched) (pre ++ Slot (done s ++ [g x]) xs :: post))
        as (evs & slots' & -> & Hd & Hev).
      { rewrite Hp'. intros y Hy. apply Hgood.
        rewrite !elem_of_app, elem_of_cons, elem_of_app in *. tauto. }
      { rewrite Hp'. rewrite !length_app in *. simpl in *. rewrite length_app in Hlen. lia. }
      exists (ev x ++ evs), slots'. split; [done|]. split.
      * rewrite Hd, !fmap_app. simpl. do 2 f_equal. unfold finish. simpl.
        rewrite Ht. simpl. by rewrite <- app_assoc.
      * rewrite Hev, Hp'. rewrite !fmap_app, !concat_app, fmap_cons, fmap_app.
        cbn [concat]. rewrite concat_app. apply Permutation_app_swap_app.
Qed.

(** [pool.map] returns the values in the order of the iterable, for every
    number of workers and every schedule. *)
Lemma pool_map_ok pickle iterable workers sched :
  0 < workers → (∀ x, x ∈ iterable → pickle x = None) → runs_well iterable →
  ∃ evs,
    pool_map pickle func iterable workers sched = (evs, Ok (g <$> iterable)) ∧
    evs ≡ₚ concat (ev <$> iterable).
Proof.
  intros Hw Hpk Hgood. unfold pool_map.
  set (batches := get_tasks (chunksize (length iterable) workers) iterable).
  assert (Hc : concat batches = iterable).
  { apply get_tasks_concat. intros Hne. apply chunksize_pos; [|done].
    destruct iterable; [done | simpl; lia]. }
  assert (Hb : ∀ b, b ∈ batches → pickle_batch pickle b = None).
  { intros b Hin. assert (Hsub : ∀ x, x ∈ b → pickle x = None).
    { intros x Hx. apply Hpk. rewrite <- Hc. apply list_elem_of_In, in_concat.
      exists b. by rewrite <- !list_elem_of_In. }
    clear Hin. unfold pickle_batch. induction b as [|x b IH]; simpl; [done|].
    rewrite Hsub by left. simpl. apply IH. intros. apply Hsub. by right. }
  assert (Hd : dispatch (Y:=Y) pickle <$> batches = Slot [] <$> batches).
  { apply list_fmap_ext. intros i b Hin%list_elem_of_lookup_2.
    unfold dispatch. by rewrite Hb. }
  assert (Hu : foldr (λ b acc, first_exn (pickle_batch pickle b) acc) None batches = None).
  { clear Hd Hc. induction batches as [|b bs IH]; simpl; [done|].
    rewrite Hb by left. simpl. apply IH. intros. apply Hb. by right. }
  rewrite Hu, Hd.
  assert (Hp : pending (Slot (Y:=Y) [] <$> batches) = iterable).
  { unfold pending. rewrite <- list_fmap_compose. simpl.
    rewrite <- Hc. f_equal. by rewrite list_fmap_id. }
  destruct (run_slots_ok workers (length iterable) sched (Slot [] <$> batches))
    as (evs & slots' & -> & Hdone & Hev); [done| by rewrite Hp | by rewrite Hp |].
  exists evs. simpl. split; [|by rewrite Hev, Hp].
  rewrite Hdone. do 2 f_equal. rewrite <- Hc. clear.
  induction batches as [|b bs IH]; [done|].
  rewrite !fmap_cons. cbn [concat]. by rewrite fmap_app, IH.
Qed.

End Workers.



(** ** Cells of a matrix *)

Section Cells.
Context {T : Type} `{Number T}.
Implicit Types C : matrix T.

(** Matrices with as many rows and the same cells are equal. *)
Lemma matrix_eq C1 C2 :
  length C1 = length C2 → (∀ i j, lookup2 C1 i j = lookup2 C2 i j) → C1 = C2.
Proof.
  intros Hl Hc. apply list_eq_same_length with (length C1); [done..|].
  intros i r1 r2 Hi H1 H2. apply list_eq. intros j.
  specialize (Hc i j). unfold lookup2 in Hc. by rewrite H1, H2 in Hc.
Qed.

Lemma lookup2_replicate m n (z : T) i j :
  lookup2 (replicate m (replicate n z)) i j
  = if decide (i < m ∧ j < n) then Some z else None.
Proof.
  unfold lookup2. case_decide as Hd.
  - destruct Hd. rewrite lookup_replicate_2 by done. simpl.
    by rewrite lookup_replicate_2.
  - destruct (decide (i < m)).
    + rewrite lookup_replicate_2 by done. simpl.
      apply lookup_replicate_None. lia.
    + by rewrite (proj1 (lookup_replicate_None m (replicate n z) i)) by lia.
Qed.

Lemma lookup2_tabulate m n (f : nat → nat → T) i j :
  lookup2 (tabulate m n f) i j
  = if decide (i < m ∧ j < n) then Some (f i j) else None.
Proof.
  unfold lookup2, tabulate. rewrite list_lookup_fmap.
  destruct (decide (i < m)) as [Hi|Hi].
  - rewrite lookup_seq_lt by done. simpl. rewrite list_lookup_fmap.
    destruct (decide (j < n)) as [Hj|Hj].
    + rewrite lookup_seq_lt by done. simpl. by rewrite decide_True.
    + rewrite lookup_seq_ge by lia. simpl. rewrite decide_False by lia. done.
  - rewrite lookup_seq_ge by lia. simpl. rewrite decide_False by lia. done.
Qed.

Lemma lookup2_alter (f : T → T) C i j i' j' :
  lookup2 (alter (alter f j) i C) i' j'
  = if decide (i = i' ∧ j = j') then f <$> lookup2 C i' j' else lookup2 C i' j'.
Proof.
  unfold lookup2. destruct (decide (i = i')) as [<-|Hi].
  - rewrite list_lookup_alter_eq. destruct (C !! i) as [row|]; simpl.
    + destruct (decide (j = j')) as [<-|Hj].
      * rewrite list_lookup_alter_eq. by rewrite decide_True.
      * rewrite list_lookup_alter_ne by done. rewrite decide_False by tauto. done.
    + by case_decide.
  - rewrite list_lookup_alter_ne by done. rewrite decide_False by tauto. done.
Qed.

(** [C[i][j] = v] on a cell that exists changes that cell and no other. *)
Lemma setitem2_ok C i j v :
  is_Some (lookup2 C i j) →
  ∃ C', setitem2 C i j v = Ok C' ∧ length C' = length C ∧
    ∀ i' j', lookup2 C' i' j'
             = if decide (i = i' ∧ j = j') then Some v else lookup2 C i' j'.
Proof.
  unfold lookup2, setitem2, getitem. intros [x Hx].
  destruct (C !! i) as [row|] eqn:Hr; [|done]. simpl in *.
  apply lookup_lt_Some in Hx as Hj. rewrite decide_True by done.
  eexists. split; [done|]. split; [by rewrite length_insert|].
  intros i' j'. apply lookup_lt_Some in Hr as Hi.
  destruct (decide (i = i')) as [<-|Hne].
  - rewrite list_lookup_insert_eq by done. simpl.
    destruct (decide (j = j')) as [<-|Hne].
    + rewrite list_lookup_insert_eq by done. by rewrite decide_True.
    + rewrite list_lookup_insert_ne by done. rewrite decide_False by tauto.
      by rewrite Hr.
  - rewrite list_lookup_insert_ne by done. rewrite decide_False by tauto. done.
Qed.

(** Filling in the results of the tasks for positions [ps]. *)
Lemma fill_ok (f : nat → nat → T) ps : ∀ C,
  (∀ i j, (i, j) ∈ ps → is_Some (lookup2 C i j)) →
  ∃ C', fill C ((λ '(i, j), (i, j, f i j)) <$> ps) = Ok C' ∧
    length C' = length C ∧
    ∀ i j, lookup2 C' i j
           = if decide ((i, j) ∈ ps) then Some (f i j) else lookup2 C i j.
Proof.
  unfold fill. induction ps as [|[i j] ps IH]; intros C Hin.
  - exists C. split_and!; [done..|]. intros i j. rewrite decide_False; [done|].
    apply not_elem_of_nil.
  - rewrite fmap_cons. cbn [for_each].
    destruct (setitem2_ok C i j (f i j)) as (C1 & -> & Hl1 & Hc1); [apply Hin; left|].
    cbn [mbind result_bind].
    destruct (IH C1) as (C' & -> & Hl & Hc).
    { intros i' j' Hp. rewrite Hc1. case_decide; [done|]. apply Hin. by right. }
    exists C'. split_and!; [done | congruence|].
    intros i' j'. rewrite Hc, Hc1.
    destruct (decide ((i', j') ∈ ps)) as [Hp|Hp].
    + rewrite decide_True by (by right). done.
    + destruct (decide (i = i' ∧ j = j')) as [[<- <-]|Hne].
      * rewrite decide_True by left. done.
      * rewrite decide_False; [done|]. rewrite elem_of_cons.
        intros [[= <- <-]|?]; [by apply Hne | done].
Qed.

Lemma elem_of_positions m n i j : (i, j) ∈ positions m n ↔ i < m ∧ j < n.
Proof.
  unfold positions. rewrite list_elem_of_bind. split.
  - intros (i' & (j' & Hij & Hj)%list_elem_of_bind & Hi).
    apply list_elem_of_singleton in Hij as [= <- <-].
    apply elem_of_seq in Hi, Hj. lia.
  - intros [Hi Hj]. exists i. rewrite list_elem_of_bind, !elem_of_seq.
    split; [|lia]. exists j. rewrite list_elem_of_singleton, elem_of_seq. split; [done|lia].
Qed.

(** Aggregation: the zero matrix filled with one result per position is the
    matrix of the results. *)
Lemma fill_positions m n (f : nat → nat → T) :
  fill (replicate m (replicate n zero)) ((λ '(i, j), (i, j, f i j)) <$> positions m n)
  = Ok (tabulate m n f).
Proof.
  destruct (fill_ok f (positions m n) (replicate m (replicate n zero)))
    as (C' & -> & Hl & Hc).
  { intros i j Hp%elem_of_positions. rewrite lookup2_replicate, decide_True by done. eauto. }
  f_equal. apply matrix_eq.
  - rewrite Hl. unfold tabulate. by rewrite length_replicate, length_fmap, length_seq.
  - intros i j. rewrite Hc, lookup2_tabulate, lookup2_replicate.
    destruct (decide (i < m ∧ j < n)) as [Hd|Hd].
    + by rewrite decide_True by (by apply elem_of_positions).
    + by rewrite decide_False by (by rewrite elem_of_positions).
Qed.

End Cells.

(** ** The reference loop *)

Section Loops.
Context {T : Type} `{Number T}.
Implicit Types C : matrix T.

(** A loop of updates that touch disjoint sets of cells touches each cell
    of the union once. *)
Lemma updates_foldl {X} (u : matrix T → X → matrix T) (P : X → nat → nat → Prop) F xs :
  (∀ x C, updates (P x) F C (u C x)) →
  (∀ x y i j, P x i j → P y i j → x = y) →
  NoDup xs →
  ∀ C, updates (λ i j, ∃ x, x ∈ xs ∧ P x i j) F C (foldl u C xs).
Proof.
  intros Hu Hdisj. induction 1 as [|x xs Hx Hnd IH]; intros C; simpl.
  - split; [done|]. intros i j. split; [|done].
    intros (x & Hin & _). by apply not_elem_of_nil in Hin.
  - destruct (IH (u C x)) as [Hl Hc]. destruct (Hu x C) as [Hl1 Hc1].
    split; [congruence|]. intros i j.
    destruct (Hc i j) as [Hyes Hno]. destruct (Hc1 i j) as [Hyes1 Hno1]. split.
    + intros (y & [->|Hin]%elem_of_cons & Hy).
      * rewrite Hno, Hyes1; [done..|].
        intros (z & Hz & HPz). apply Hx. by rewrite (Hdisj _ _ _ _ Hy HPz).
      * rewrite Hyes by eauto. rewrite Hno1; [done|].
        intros HPx. apply Hx. by rewrite (Hdisj _ _ _ _ HPx Hy).
    + intros Hn. rewrite Hno, Hno1; [done|..].
      * intros HPx. apply Hn. exists x. split; [left|done].
      * intros (y & Hin & Hy). apply Hn. exists y. split; [by right|done].
Qed.

(** The loop over [k] adds up one cell, from [k = 0] upward. *)
Lemma updates_cell (t : nat → T) ks i j : ∀ C,
  updates (λ i' j', i = i' ∧ j = j')
    (λ _ _ c, foldl (λ acc k, add acc (t k)) c ks) C
    (foldl (λ C k, alter (alter (λ c, add c (t k)) j) i C) C ks).
Proof.
  induction ks as [|k ks IH]; intros C; simpl.
  - split; [done|]. intros i' j'. split; [|done]. intros _.
    by destruct (lookup2 C i' j').
  - destruct (IH (alter (alter (λ c, add c (t k)) j) i C)) as [Hl Hc].
    split; [by rewrite Hl, length_alter|]. intros i' j'.
    destruct (Hc i' j') as [Hyes Hno]. split.
    + intros Hp. rewrite Hyes, lookup2_alter, decide_True by done.
      by destruct (lookup2 C i' j').
    + intros Hp. rewrite Hno, lookup2_alter, decide_False by done. done.
Qed.

(** The triple loop computes every cell as its sum. *)
Lemma naive_product_tabulate (A B : matrix T) :
  naive_product A B
  = tabulate (length A) (length (hd [] B)) (dot A B (length (hd [] A))).
Proof.
  unfold naive_product.
  set (m := length A). set (K := length (hd [] A)). set (n := length (hd [] B)).
  set (t := λ i j k, mul (cell A i k) (cell B k j)).
  set (F := λ i j c, foldl (λ acc k, add acc (t i j k)) c (seq 0 K)).
  set (row := λ C i, foldl (λ C j,
     foldl (λ C k, alter (alter (λ c, add c (mul (cell A i k) (cell B k j))) j) i C)
       C (seq 0 K)) C (seq 0 n)).
  assert (Hrow : ∀ i C, updates (λ i' j', i = i' ∧ j' < n) F C (row C i)).
  { intros i C.
    destruct (updates_foldl
      (λ C j, foldl (λ C k, alter (alter (λ c, add c (t i j k)) j) i C) C (seq 0 K))
      (λ j i' j', i = i' ∧ j = j') F (seq 0 n)) with (C := C) as [Hl Hc].
    - intros j C0. destruct (updates_cell (t i j) (seq 0 K) i j C0) as [Hl Hc].
      split; [done|]. intros i' j'. destruct (Hc i' j') as [Hyes Hno].
      split; [|done]. intros [<- <-]. by apply Hyes.
    - intros x y i' j' [_ ->] [_ ->]. done.
    - apply NoDup_seq.
    - split; [done|]. intros i' j'. destruct (Hc i' j') as [Hyes Hno]. split.
      + intros [-> Hj]. apply Hyes. exists j'. rewrite elem_of_seq. split; [lia|done].
      + intros Hn. apply Hno. intros (j & Hj%elem_of_seq & -> & ->). apply Hn.
        split; [done|lia]. }
  destruct (updates_foldl row (λ i i' j', i = i' ∧ j' < n) F (seq 0 m))
    with (C := replicate m (replicate n zero)) as [Hl Hc].
  { done. } { intros x y i' j' [-> _] [-> _]. done. } { apply NoDup_seq. }
  apply matrix_eq.
  - fold row. rewrite Hl. unfold tabulate.
    by rewrite length_replicate, length_fmap, length_seq.
  - intros i j. fold row. rewrite lookup2_tabulate. destruct (Hc i j) as [Hyes Hno].
    case_decide as Hd.
    + destruct Hd as [Hi Hj].
      rewrite Hyes by (exists i; rewrite elem_of_seq; split; [lia|done]).
      by rewrite lookup2_replicate, decide_True.
    + rewrite Hno, lookup2_replicate, decide_False; [done..|].
      intros (i' & Hi%elem_of_seq & -> & Hj). apply Hd. split; [lia|done].
Qed.

End Loops.

Lemma getitem_Some {X} (l : list X) i x : l !! i = Some x → getitem l i = Ok x.
Proof. unfold getitem. by intros ->. Qed.

Lemma bind_emit {B} e (k : unit → M B) :
  (emit e ≫= k) = (e :: (k tt).1, (k tt).2).
Proof. done. Qed.

Lemma bind_lift_Ok {A B} (a : A) (k : A → M B) : (lift (Ok a) ≫= k) = k a.
Proof. unfold lift, mbind, M_bind. simpl. by destruct (k a). Qed.

Lemma bind_Ok {A B} evs (a : A) (k : A → M B) :
  ((evs, Ok a) : M A) ≫= k = (evs ++ (k a).1, (k a).2).
Proof. done. Qed.

Lemma length_positions m n : length (positions m n) = m * n.
Proof.
  unfold positions.
  assert (Hrow : ∀ (i s : nat), length (seq s n ≫= λ j, [(i, j)]) = n).
  { intros i. induction n as [|n' IH]; intros s; [done|].
    cbn [seq]. rewrite bind_cons. simpl. by rewrite IH. }
  assert (Hall : ∀ s, length (seq s m ≫= λ i, seq 0 n ≫= λ j, [(i, j)]) = m * n).
  { induction m as [|m' IH]; intros s; [done|].
    cbn [seq]. rewrite bind_cons, length_app, IH, Hrow. lia. }
  apply Hall.
Qed.

Lemma concat_singletons {X Y} (f : X → Y) (l : list X) :
  concat ((λ x, [f x]) <$> l) = f <$> l.
Proof. induction l; [done|]. rewrite !fmap_cons. simpl. by f_equal. Qed.

(** ** The multiply on well-shaped operands *)

Section Correct.
Context {T : Type} `{Number T}.
Variable cpu_count : Z.

Lemma shape_lookup (A : matrix T) m n i :
  shape A m n → i < m → ∃ row, A !! i = Some row ∧ length row = n.
Proof.
  intros [Hl Hf] Hi. destruct (lookup_lt_is_Some_2 A i) as [row Hr]; [lia|].
  exists row. split; [done|]. by apply (Forall_lookup_1 _ _ _ _ Hf Hr).
Qed.

Lemma shape_cell (A : matrix T) m n i j :
  shape A m n → i < m → j < n →
  ∃ row, A !! i = Some row ∧ row !! j = Some (cell A i j).
Proof.
  intros Hs Hi Hj. destruct (shape_lookup A m n i Hs Hi) as (row & Hr & Hl).
  exists row. split; [done|]. unfold cell, lookup2. rewrite Hr. simpl.
  destruct (lookup_lt_is_Some_2 row j) as [x Hx]; [lia|]. by rewrite Hx.
Qed.

(** A worker on a cell of matrices of matching shapes returns its sum. *)
Lemma compute_element_ok (A B : matrix T) m K n i j :
  shape A m K → shape B K n → i < m → j < n →
  compute_element (i, j, A, B) = ([EvRun i j], Ok (i, j, dot A B K i j)).
Proof.
  intros HA HB Hi Hj. unfold compute_element.
  destruct (shape_lookup A m K 0 HA) as (A0 & HA0 & HlA0); [lia|].
  rewrite bind_emit, (getitem_Some _ _ _ HA0). cbn [mbind result_bind]. rewrite HlA0.
  rewrite (for_each_foldl _ (λ acc k, add acc (mul (cell A i k) (cell B k j)))).
  - done.
  - intros acc k Hk%elem_of_seq.
    destruct (shape_cell A m K i k HA) as (Ai & HAi & Ha); [done|lia|].
    destruct (shape_cell B K n k j HB) as (Bk & HBk & Hb); [lia|done|].
    rewrite (getitem_Some _ _ _ HAi). cbn [mbind result_bind].
    rewrite (getitem_Some _ _ _ Ha). cbn [mbind result_bind].
    rewrite (getitem_Some _ _ _ HBk). cbn [mbind result_bind].
    by rewrite (getitem_Some _ _ _ Hb).
Qed.

(** The multiply on matrices of matching shapes: the task list, the pool,
    one run of every cell in some order, and the product. *)
Lemma multiply_matrices_ok (A B : matrix T) m K n num_processes sched :
  shape A m K → shape B K n → 0 < m → 0 < K → valid_count cpu_count num_processes →
  ∃ w evs,
    multiply_matrices cpu_count A B num_processes sched
    = (EvTasks (m * n) :: EvPool w :: evs, Ok (naive_product A B)) ∧
    evs ≡ₚ (λ '(i, j), EvRun i j) <$> positions m n.
Proof.
  intros HA HB Hm HK (w & Hw & Hw1). unfold multiply_matrices.
  destruct (shape_lookup A m K 0 HA Hm) as (A0 & HA0 & HlA0).
  destruct (shape_lookup B K n 0 HB HK) as (B0 & HB0 & HlB0).
  destruct HA as [HlA HfA]. destruct HB as [HlB HfB].
  destruct A as [|a A']; [simpl in *; lia|]. destruct B as [|b B']; [simpl in *; lia|].
  cbn [is_empty orb]. rewrite (getitem_Some _ _ _ HA0), (getitem_Some _ _ _ HB0).
  rewrite bind_lift_Ok. rewrite decide_False by lia. rewrite bind_lift_Ok.
  rewrite HlA, HlB0, Hw, bind_emit. unfold Pool.
  destruct (Z.ltb_spec w 1) as [|_]; [lia|]. rewrite bind_emit.
  cbn [mret M_ret fst snd]. rewrite bind_Ok.
  set (tasks := (λ '(i, j), (i, j, a :: A', b :: B')) <$> positions m n).
  destruct (pool_map_ok compute_element (λ '(i, j, _, _), [EvRun i j])
    (λ '(i, j, A, B), (i, j, dot A B K i j)) (λ _, None) tasks (Z.to_nat w) sched)
    as (evs & Hpm & Hev); [lia | done | |].
  { intros x (ij & -> & Hin)%list_elem_of_fmap. destruct ij as [i j].
    apply elem_of_positions in Hin as [Hi Hj].
    by apply compute_element_ok with m n. }
  exists (Z.to_nat w), evs. split.
  - rewrite Hpm, bind_Ok. unfold tasks.
    rewrite length_fmap, length_positions, <- list_fmap_compose.
    rewrite (list_fmap_ext _ (λ '(i, j), (i, j, dot (a :: A') (b :: B') K i j)))
      by (by intros ? [??] ?).
    rewrite fill_positions, naive_product_tabulate. cbn [lift fst snd hd].
    rewrite app_nil_r. simpl in HA0, HB0. by rewrite HlA, <- HlB0, <- HlA0; simplify_eq.
  - rewrite Hev. unfold tasks. rewrite <- list_fmap_compose.
    rewrite (list_fmap_ext _ (λ p, [(λ '(i, j), EvRun i j) p])) by (by intros ? [??] ?).
    by rewrite concat_singletons.
Qed.

End Correct.

(** What [Pool] does with a number of processes it does not accept. *)
Lemma Pool_invalid v :
  ¬ positive_int v → ∃ e, Pool v = ([], Raise e) ∧ InvalidConfiguration e.
Proof.
  intros Hv. unfold Pool, InvalidConfiguration. destruct v as [n|x|s].
  - destruct (Z.ltb_spec n 1) as [|Hn]; [eauto|]. destruct Hv. by exists n.
  - destruct (PrimFloat.ltb x 1); eauto.
  - eauto.
Qed.

Lemma Pool_valid n : (1 ≤ n)%Z → Pool (PyInt n) = ([EvPool (Z.to_nat n)], Ok (Z.to_nat n)).
Proof. intros Hn. unfold Pool. by destruct (Z.ltb_spec n 1) as [|_]; [lia|]. Qed.

Lemma get_tasks_aux_nonempty {X} fuel size (it : list X) b :
  b ∈ get_tasks_aux fuel size it → b ≠ [].
Proof.
  revert it. induction fuel as [|fuel IH]; intros it; simpl; [by intros ?%not_elem_of_nil|].
  destruct (take size it) as [|y ys] eqn:Ht; [by intros ?%not_elem_of_nil|].
  intros [->|Hin]%elem_of_cons; [done|]. by apply IH in Hin.
Qed.

(** When no task can be pickled, no batch reaches a worker and [pool.map]
    raises what pickling raised. *)
Lemma pool_map_unsent {X Y} (pickle : X → option exn) (func : X → M Y) e
    iterable workers sched :
  0 < workers → iterable ≠ [] → (∀ x, x ∈ iterable → pickle x = Some e) →
  pool_map pickle func iterable workers sched = ([], Raise e).
Proof.
  intros Hw Hne Hpk. unfold pool_map.
  set (batches := get_tasks (chunksize (length iterable) workers) iterable).
  assert (Hc : concat batches = iterable).
  { apply get_tasks_concat. intros _. apply chunksize_pos; [|done].
    destruct iterable; [done | simpl; lia]. }
  assert (Hb : ∀ b, b ∈ batches → pickle_batch pickle b = Some e).
  { intros b Hin. pose proof (get_tasks_aux_nonempty _ _ _ _ Hin) as Hb.
    destruct b as [|x b]; [done|].
    unfold pickle_batch. simpl. rewrite Hpk; [done|].
    rewrite <- Hc. apply list_elem_of_In, in_concat.
    exists (x :: b). rewrite <- !list_elem_of_In. split; [done|left]. }
  assert (Hd : dispatch (Y:=Y) pickle <$> batches = (λ _, Slot [] []) <$> batches).
  { apply list_fmap_ext. intros i b Hin%list_elem_of_lookup_2.
    unfold dispatch. by rewrite Hb. }
  assert (Hu : foldr (λ b acc, first_exn (pickle_batch pickle b) acc) None batches = Some e).
  { destruct batches as [|b bs]; [by rewrite <- Hc in Hne|].
    simpl. by rewrite Hb by left. }
  rewrite Hu, Hd. 
  assert (Hp : pending ((λ _, Slot (X:=X) (Y:=Y) [] []) <$> batches) = []).
  { unfold pending. clear. induction batches as [|b bs IH]; [done|].
    by rewrite !fmap_cons. }
  destruct (length iterable); simpl; [done|].
  by rewrite step_slot_none.
Qed.

(** ** The multiply on other arguments *)

Section Errors.
Context {T : Type} `{Number T} `{Text T}.
Variable cpu_count : Z.

Lemma multiply_matrices_empty (A B : matrix T) num_processes sched :
  A = [] ∨ B = [] →
  multiply_matrices cpu_count A B num_processes sched = ([], Raise EmptyOperand).
Proof.
  intros [-> | ->]; unfold multiply_matrices; [done|]. by destruct A.
Qed.

Lemma multiply_matrices_mismatch (A B : matrix T) num_processes sched :
  A ≠ [] → B ≠ [] → length (hd [] A) ≠ length B →
  multiply_matrices cpu_count A B num_processes sched = ([], Raise DimensionMismatch).
Proof.
  intros HA HB Hd. unfold multiply_matrices.
  destruct A as [|a A]; [done|]. destruct B as [|b B]; [done|].
  cbn [is_empty orb]. rewrite (getitem_Some (a :: A) 0 a) by done.
  rewrite bind_lift_Ok. by rewrite decide_True.
Qed.

Lemma multiply_matrices_invalid (A B : matrix T) v sched :
  A ≠ [] → B ≠ [] → length (hd [] A) = length B → ¬ positive_int v →
  ∃ e, multiply_matrices cpu_count A B (Some v) sched
       = ([EvTasks (length A * length (hd [] B))], Raise e)
       ∧ InvalidConfiguration e.
Proof.
  intros HA HB Hd Hv. unfold multiply_matrices.
  destruct A as [|a A]; [done|]. destruct B as [|b B]; [done|].
  cbn [is_empty orb]. rewrite (getitem_Some (a :: A) 0 a) by done.
  rewrite bind_lift_Ok. rewrite decide_False by (simpl in *; lia).
  rewrite (getitem_Some (b :: B) 0 b) by done. rewrite bind_lift_Ok, bind_emit.
  rewrite length_fmap, length_positions.
  destruct (Pool_invalid v Hv) as (e & HP & He). exists e. split; [|done].
  change (default (PyInt cpu_count) (Some v)) with v. by rewrite HP.
Qed.

Lemma multiply_matrices_no_columns (A : matrix T) num_processes sched :
  A ≠ [] → Forall (λ row, length row = 1) A → valid_count cpu_count num_processes →
  ∃ w, multiply_matrices cpu_count A [[]] num_processes sched
       = ([EvTasks 0; EvPool w], Ok (replicate (length A) [])).
Proof.
  intros HA Hrows (w & Hw & Hw1). unfold multiply_matrices.
  destruct A as [|a A]; [done|]. apply Forall_cons in Hrows as [Ha Hrows].
  cbn [is_empty orb]. rewrite (getitem_Some (a :: A) 0 a) by done.
  rewrite bind_lift_Ok. rewrite decide_False by (simpl; lia).
  rewrite (getitem_Some [[]] 0 []) by done. rewrite bind_lift_Ok, bind_emit.
  rewrite Hw, Pool_valid, bind_Ok by done.
  assert (Hpos : positions (length (a :: A)) (length (@nil T)) = []).
  { apply length_zero_iff_nil. rewrite length_positions. simpl. lia. }
  rewrite Hpos. exists (Z.to_nat w). done.
Qed.

(** The logging multiply as it is: its tasks hold a [multiprocessing.Lock],
    so [pool.map] raises after the log has been emptied. *)
Lemma intermediate_write_raises (A B : matrix T) m K n file num_processes sched :
  shape A m K → shape B K n → 0 < m → 0 < K → 0 < n →
  valid_count cpu_count num_processes →
  ∃ w, multiply_matrices_with_intermediate_write cpu_count A B file num_processes sched
       = ([EvOpenW file; EvTasks (m * n); EvPool w], Raise LockNotShareable).
Proof.
  intros HA HB Hm HK Hn (w & Hw & Hw1).
  unfold multiply_matrices_with_intermediate_write, intermediate_write_with.
  destruct (shape_lookup A m K 0 HA Hm) as (A0 & HA0 & HlA0).
  destruct (shape_lookup B K n 0 HB HK) as (B0 & HB0 & HlB0).
  destruct HA as [HlA HfA]. destruct HB as [HlB HfB].
  destruct A as [|a A']; [simpl in *; lia|]. destruct B as [|b B']; [simpl in *; lia|].
  cbn [is_empty orb]. rewrite (getitem_Some _ _ _ HA0), (getitem_Some _ _ _ HB0).
  rewrite bind_lift_Ok. rewrite decide_False by lia. rewrite bind_lift_Ok.
  rewrite HlA, HlB0, Hw, !bind_emit, Pool_valid, bind_Ok by done.
  rewrite length_fmap, length_positions.
  assert (Hpm : pool_map pickle_write_task compute_and_write
            ((λ '(i, j), (i, j, a :: A', b :: B', Lock, file)) <$> positions m n)
            (Z.to_nat w) sched = ([], Raise LockNotShareable)).
  { apply pool_map_unsent.
    - lia.
    - intros Hnil%(f_equal length). rewrite length_fmap, length_positions in Hnil.
      simpl in Hnil. nia.
    - by intros x ([i j] & -> & _)%list_elem_of_fmap. }
  rewrite Hpm. by exists (Z.to_nat w).
Qed.

End Errors.

(** ** Where an exception of the multiply comes from *)

Lemma for_each_raises {S X} (body : S → X → result S) (P : exn → Prop) xs :
  (∀ s x e, body s x = Raise e → P e) →
  ∀ s e, for_each body s xs = Raise e → P e.
Proof.
  intros Hb. induction xs as [|x xs IH]; intros s e; simpl; [done|].
  destruct (body s x) as [s'|e'] eqn:Hs; simpl.
  - apply IH.
  - intros [= <-]. by apply (Hb s x).
Qed.

Lemma getitem_raises {X} (l : list X) i e : getitem l i = Raise e → e = IndexError.
Proof. unfold getitem. destruct (l !! i); [done|]. by intros [= <-]. Qed.

Lemma step_slot_raises {X Y} (func : X → M Y) k (slots : list (slot X Y)) evs e slots' :
  step_slot func k slots = Some (evs, Some e, slots') → ∃ x, func x = (evs, Raise e).
Proof.
  revert k slots'. induction slots as [|s slots IH]; intros k slots'; simpl; [done|].
  destruct (todo s) as [|x xs].
  - destruct (step_slot func k slots) as [[[evs1 e1] sl1]|] eqn:Hs; [|done].
    simpl. intros [= -> -> <-]. by apply (IH k sl1).
  - destruct k as [|k].
    + destruct (func x) as [evs1 [y|e1]] eqn:Hf; [done|]. intros [= -> -> <-]. by exists x.
    + destruct (step_slot func k slots) as [[[evs1 e1] sl1]|] eqn:Hs; [|done].
      simpl. intros [= -> -> <-]. by apply (IH k sl1).
Qed.

Lemma run_slots_raises {X Y} (func : X → M Y) workers fuel sched
    (slots : list (slot X Y)) e :
  (run_slots func workers fuel sched slots).1.2 = Some e →
  ∃ x evs, func x = (evs, Raise e).
Proof.
  revert sched slots. induction fuel as [|fuel IH]; intros sched slots; simpl; [done|].
  destruct (step_slot _ _ slots) as [[[evs1 e1] sl1]|] eqn:Hs; [|done].
  simpl. destruct e1 as [e1|]; simpl.
  - intros [= <-]. apply step_slot_raises in Hs as [x Hx]. by exists x, evs1.
  - apply IH.
Qed.

Lemma pool_map_raises {X Y} (func : X → M Y) iterable workers sched e :
  (pool_map (λ _, None) func iterable workers sched).2 = Raise e →
  ∃ x evs, func x = (evs, Raise e).
Proof.
  unfold pool_map. cbn [snd].
  set (batches := get_tasks _ iterable).
  assert (Hu : foldr (λ b acc, first_exn (pickle_batch (λ _ : X, None) b) acc) None batches
               = None).
  { induction batches as [|b bs IH]; simpl; [done|]. rewrite IH.
    unfold pickle_batch. by induction b. }
  rewrite Hu. cbn [first_exn].
  destruct (run_slots _ _ _ _ _).1.2 as [e'|] eqn:Hr; [|done].
  intros [= <-]. by apply run_slots_raises in Hr.
Qed.

Section Raises.
Context {T : Type} `{Number T}.
Variable cpu_count : Z.

Lemma compute_element_raises (t : task) evs e :
  compute_element t = (evs, Raise e) → e = IndexError.
Proof.
  destruct t as [[[i j] A] B]. unfold compute_element. rewrite bind_emit.
  intros [= _ He]. revert He.
  destruct (getitem A 0) as [A0|e0] eqn:HA0; cbn [mbind result_bind];
    [|intros [= <-]; by apply getitem_raises in HA0].
  destruct (for_each _ zero (seq 0 (length A0))) as [r|e1] eqn:Hf;
    cbn [mbind result_bind]; [done|].
  intros [= <-]. revert Hf. apply (for_each_raises _ (λ e, e = IndexError)).
  clear. intros s k e.
  destruct (getitem A i) as [Ai|e0] eqn:H1; cbn [mbind result_bind];
    [|intros [= <-]; by apply getitem_raises in H1].
  destruct (getitem Ai k) as [a|e0] eqn:H2; cbn [mbind result_bind];
    [|intros [= <-]; by apply getitem_raises in H2].
  destruct (getitem B k) as [Bk|e0] eqn:H3; cbn [mbind result_bind];
    [|intros [= <-]; by apply getitem_raises in H3].
  destruct (getitem Bk j) as [b|e0] eqn:H4; cbn [mbind result_bind];
    [done|intros [= <-]; by apply getitem_raises in H4].
Qed.

Lemma fill_raises (C : matrix T) results e : fill C results = Raise e → e = IndexError.
Proof.
  unfold fill. apply (for_each_raises _ (λ e, e = IndexError)).
  intros C' [[i j] v] e'. unfold setitem2.
  destruct (getitem C' i) as [row|e0] eqn:H1; cbn [mbind result_bind];
    [|intros [= <-]; by apply getitem_raises in H1].
  case_decide; [done|]. by intros [= <-].
Qed.

(** The [ValueError] of line 50 is raised for operands without rows and for no
    others: a row without columns does not make an operand empty. *)
Lemma multiply_matrices_raises_empty (A B : matrix T) num_processes sched :
  (multiply_matrices cpu_count A B num_processes sched).2 = Raise EmptyOperand
  ↔ A = [] ∨ B = [].
Proof.
  split; [|intros Hor; by rewrite multiply_matrices_empty].
  destruct A as [|a A]; [auto|]. destruct B as [|b B]; [auto|].
  intros Hr. exfalso. revert Hr. unfold multiply_matrices.
  cbn [is_empty orb]. rewrite (getitem_Some (a :: A) 0 a) by done.
  rewrite bind_lift_Ok. case_decide; [done|].
  rewrite (getitem_Some (b :: B) 0 b) by done. rewrite bind_lift_Ok, bind_emit.
  cbn [snd].
  destruct (Pool (default (PyInt cpu_count) num_processes)) as [evs [w|e]] eqn:HP.
  - rewrite bind_Ok. cbn [snd].
    destruct (pool_map _ compute_element _ w sched) as [evs' [results|e]] eqn:Hpm.
    + rewrite bind_Ok. cbn [snd lift].
      destruct (fill _ results) as [C|e] eqn:Hf; [done|].
      apply fill_raises in Hf as ->. done.
    + assert (Hpm' : (pool_map (λ _ : task, None) compute_element
                        ((λ '(i, j), (i, j, a :: A, b :: B)) <$>
                           positions (length (a :: A)) (length b)) w sched).2 = Raise e)
        by (by rewrite Hpm).
      apply pool_map_raises in Hpm' as (x & evs0 & Hx).
      apply compute_element_raises in Hx as ->. done.
  - revert HP. unfold Pool. intros HP [= ->].
    destruct (default (PyInt cpu_count) num_processes) as [n|x|s].
    + by destruct (n <? 1)%Z.
    + by destruct (PrimFloat.ltb x 1).
    + done.
Qed.

End Raises.

(** ** Text *)

Lemma string_app_cons c s t : String c s +:+ t = String c (s +:+ t).
Proof. done. Qed.

Lemma string_app_nil_l t : "" +:+ t = t.
Proof. done. Qed.

Lemma string_app_nil_r s : s +:+ "" = s.
Proof. induction s as [|c s IH]; [done|]. by rewrite string_app_cons, IH. Qed.

Lemma string_app_assoc s1 s2 s3 : (s1 +:+ s2) +:+ s3 = s1 +:+ s2 +:+ s3.
Proof. induction s1 as [|c s1 IH]; [done|]. by rewrite !string_app_cons, IH. Qed.

Lemma string_app_nil s1 s2 : s1 +:+ s2 = "" → s1 = "" ∧ s2 = "".
Proof. by destruct s1. Qed.

Lemma join_cons sep p q ps : join sep (p :: q :: ps) = p +:+ sep +:+ join sep (q :: ps).
Proof. done. Qed.

Lemma is_nl_isspace c : is_nl c = true → isspace c = true.
Proof.
  unfold is_nl, isspace. intros Hc%Nat.eqb_eq. rewrite Hc. done.
Qed.

Lemma no_space_no_nl s : no_space s = true → no_nl s = true.
Proof.
  induction s as [|c s IH]; simpl; [done|].
  intros [Hc Hs]%andb_true_iff. rewrite IH by done.
  destruct (is_nl c) eqn:Hn; [|done]. by rewrite (is_nl_isspace c Hn) in Hc.
Qed.

Lemma no_nl_app s1 s2 : no_nl (s1 +:+ s2) = no_nl s1 && no_nl s2.
Proof.
  induction s1 as [|c s1 IH]; [done|].
  rewrite string_app_cons. simpl. by rewrite IH, andb_assoc.
Qed.

Lemma no_nl_join toks :
  Forall token toks → no_nl (join " " toks) = true.
Proof.
  induction 1 as [|t toks [_ Ht] Hts IH]; [done|].
  destruct toks as [|t' toks]; [by apply no_space_no_nl|].
  rewrite join_cons, !no_nl_app. rewrite (no_space_no_nl t Ht). simpl. exact IH.
Qed.

(** *** [split] *)

Lemma split_go_no_space tok t rest :
  no_space t = true → split_go tok (t +:+ rest) = split_go (tok +:+ t) rest.
Proof.
  revert tok. induction t as [|c t IH]; intros tok.
  - by rewrite string_app_nil_r.
  - intros [Hc Ht]%andb_true_iff. apply negb_true_iff in Hc.
    rewrite string_app_cons. cbn [split_go]. rewrite Hc.
    rewrite IH by done. by rewrite string_app_assoc.
Qed.

(** [split] undoes [join] on tokens. *)
Lemma split_join toks : Forall token toks → split (join " " toks) = toks.
Proof.
  unfold split. induction 1 as [|t toks [Hne Ht] Hts IH]; [done|].
  destruct toks as [|t' toks].
  - cbn [join]. rewrite <- (string_app_nil_r t) at 1.
    rewrite split_go_no_space by done. cbn [split_go]. by rewrite decide_False.
  - rewrite join_cons, split_go_no_space by done.
    change (" " +:+ ?s) with (String " " s). cbn [split_go].
    change (isspace " ") with true. cbv iota.
    rewrite string_app_nil_l, decide_False by done. by rewrite IH.
Qed.

(** *** [strip] *)

Lemma rstrip_app a b :
  rstrip (a +:+ b) = if decide (rstrip b = "") then rstrip a else a +:+ rstrip b.
Proof.
  induction a as [|c a IH].
  - rewrite string_app_nil_l. by case_decide.
  - rewrite string_app_cons. cbn [rstrip]. rewrite IH. case_decide as Hb; [done|].
    rewrite string_app_cons.
    destruct (a +:+ rstrip b) eqn:Hab; [|done].
    by apply string_app_nil in Hab as [_ ?].
Qed.

Lemma rstrip_no_space t : no_space t = true → rstrip t = t.
Proof.
  induction t as [|c t IH]; simpl; [done|].
  intros [Hc Ht]%andb_true_iff. apply negb_true_iff in Hc. rewrite IH, Hc by done.
  by destruct t.
Qed.

Lemma join_nonempty toks :
  toks ≠ [] → Forall token toks → join " " toks ≠ "".
Proof.
  intros Hne Hts. destruct Hts as [|t ts [Hn _] _]; [done|].
  destruct ts; [done|]. rewrite join_cons. by intros [? _]%string_app_nil.
Qed.

Lemma rstrip_join toks :
  toks ≠ [] → Forall token toks → rstrip (join " " toks) = join " " toks.
Proof.
  intros Hne Hts. induction Hts as [|t toks [Hn Ht] Hts IH]; [done|].
  destruct toks as [|t' toks].
  - by apply rstrip_no_space.
  - rewrite join_cons, rstrip_app. change (" " +:+ ?s) with (String " " s).
    cbn [rstrip]. rewrite IH by done.
    pose proof (join_nonempty (t' :: toks)) as Hj.
    destruct (join " " (t' :: toks)); [by destruct Hj|].
    by rewrite decide_False.
Qed.

Lemma lstrip_join toks :
  Forall token toks → lstrip (join " " toks) = join " " toks.
Proof.
  intros Hts. destruct Hts as [|t ts [Hn Ht] _]; [done|].
  destruct t as [|c t]; [done|]. simpl in Ht.
  apply andb_true_iff in Ht as [Hc%negb_true_iff _].
  destruct ts; [|rewrite join_cons, string_app_cons]; simpl; by rewrite Hc.
Qed.

(** [strip] takes the newline off a line of tokens and nothing else. *)
Lemma strip_line toks :
  toks ≠ [] → Forall token toks → strip (join " " toks +:+ nl) = join " " toks.
Proof.
  intros Hne Hts. unfold strip.
  assert (Hl : lstrip (join " " toks +:+ nl) = join " " toks +:+ nl).
  { pose proof (lstrip_join toks Hts) as Hl. pose proof (join_nonempty toks Hne Hts).
    destruct (join " " toks) as [|c s]; [done|]. simpl in *.
    destruct (isspace c); [|done].
    exfalso. clear -Hl. assert (Hlen : ∀ s, String.length (lstrip s) ≤ String.length s).
    { clear. induction s as [|c s IH]; simpl; [done|]. destruct (isspace c); simpl; lia. }
    specialize (Hlen s). rewrite Hl in Hlen. simpl in Hlen. lia. }
  rewrite Hl, rstrip_app. rewrite decide_True by done. by apply rstrip_join.
Qed.

(** *** [lines] *)

Lemma lines_go_line cur t rest :
  no_nl t = true →
  lines_go cur (t +:+ nl +:+ rest) = (cur +:+ t +:+ nl) :: lines_go "" rest.
Proof.
  revert cur. induction t as [|c t IH]; intros cur.
  - done.
  - intros [Hc Ht]%andb_true_iff. apply negb_true_iff in Hc.
    rewrite string_app_cons. cbn [lines_go]. rewrite Hc.
    rewrite IH by done. by rewrite string_app_assoc.
Qed.

(** Reading the lines of a text written line by line. *)
Lemma lines_concat_text ls :
  Forall (λ l, no_nl l = true) ls →
  lines (concat_text ((λ l, l +:+ nl) <$> ls)) = (λ l, l +:+ nl) <$> ls.
Proof.
  unfold lines. induction 1 as [|l ls Hl Hls IH]; [done|].
  rewrite fmap_cons. cbn [concat_text]. rewrite string_app_assoc.
  rewrite lines_go_line by done. by rewrite IH.
Qed.

(** *** Files *)

(** The text of a file after a series of writes to it. *)
Lemma apply_events_writes (fs : files) file texts :
  apply_events fs (EvWrite file <$> texts) !! file
  = match texts with
    | [] => fs !! file
    | _ => Some (default "" (fs !! file) +:+ concat_text texts)
    end.
Proof.
  unfold apply_events. revert fs. induction texts as [|t ts IH]; intros fs; [done|].
  rewrite fmap_cons. cbn [foldl apply_event]. rewrite IH.
  rewrite lookup_insert_eq. destruct ts; simpl.
  - by rewrite string_app_nil_r.
  - by rewrite !string_app_assoc.
Qed.

Section Codec.
Context {T : Type} `{Text T}.
Variable close : T → T → Prop.

Lemma map_result_printable (row : list T) :
  Forall (printable close) row →
  ∃ row', map_result float_of (str <$> row) = Ok row' ∧ Forall2 close row row'.
Proof.
  induction 1 as [|x row [_ (y & Hx & Hy)] Hrow (row' & IH & Hc)]; [by exists []|].
  exists (y :: row'). rewrite fmap_cons. cbn [map_result]. rewrite Hx.
  cbn [mbind result_bind]. rewrite IH. split; [done | by constructor].
Qed.

Lemma written_file (fs : files) file (matrix : matrix T) :
  apply_events fs (write_matrix file matrix).1 !! file
  = Some (concat_text (row_line <$> matrix)).
Proof.
  assert (Hev : (write_matrix file matrix).1
                = EvOpenW file :: (EvWrite file <$> (row_line <$> matrix))).
  { unfold write_matrix. cbn [fst]. by rewrite <- list_fmap_compose. }
  rewrite Hev. unfold apply_events. cbn [foldl apply_event].
  fold (apply_events (<[file:=""]> fs)).
  rewrite apply_events_writes, lookup_insert_eq.
  by destruct (row_line <$> matrix).
Qed.

Lemma read_lines (matrix acc : matrix T) :
  Forall (λ row, row ≠ [] ∧ Forall (printable close) row) matrix →
  ∃ matrix',
    for_each (λ matrix line,
        if decide (strip line ≠ EmptyString) then
          row ← map_result float_of (split (strip line));
          Ok (matrix ++ [row])
        else Ok matrix) acc (row_line <$> matrix)
    = Ok (acc ++ matrix') ∧ Forall2 (Forall2 close) matrix matrix'.
Proof.
  intros Hm. revert acc. induction Hm as [|row matrix [Hne Hrow] Hm IH]; intros acc.
  - exists []. by rewrite app_nil_r.
  - rewrite fmap_cons. cbn [for_each].
    assert (Htoks : Forall token (str <$> row)).
    { apply Forall_fmap. eapply Forall_impl; [exact Hrow|]. by intros x [Hx _]. }
    assert (Hne' : str <$> row ≠ []) by (by destruct row).
    assert (Hs : strip (row_line row) = join " " (str <$> row)) by (by apply strip_line).
    rewrite !Hs.
    rewrite decide_True by (by apply join_nonempty).
    destruct (map_result_printable row Hrow) as (row' & Hrow' & Hclose).
    rewrite split_join, Hrow' by done.
    cbn [mbind result_bind]. destruct (IH (acc ++ [row'])) as (matrix' & -> & Hall).
    exists (row' :: matrix'). rewrite <- app_assoc. split; [done | by constructor].
Qed.

(** Reading back what [write_matrix] wrote, for rows that are not empty and
    entries that are printable. *)
Lemma write_read_matrix (fs : files) file (matrix : matrix T) :
  Forall (λ row, row ≠ [] ∧ Forall (printable close) row) matrix →
  ∃ matrix',
    read_matrix (apply_events fs (write_matrix file matrix).1) file = Ok matrix'
    ∧ Forall2 (Forall2 close) matrix matrix'.
Proof.
  intros Hm. destruct (read_lines matrix [] Hm) as (matrix' & Hread & Hall).
  exists matrix'. split; [|done]. unfold read_matrix. rewrite written_file.
  assert (Hl : row_line <$> matrix
               = (λ l, l +:+ nl) <$> ((λ row, join " " (str <$> row)) <$> matrix)).
  { by rewrite <- list_fmap_compose. }
  rewrite Hl at 1. rewrite lines_concat_text.
  - by rewrite <- Hl.
  - apply Forall_fmap. eapply Forall_impl; [exact Hm|]. intros row [_ Hrow].
    apply no_nl_join, Forall_fmap. eapply Forall_impl; [exact Hrow|]. by intros x [Hx _].
Qed.

End Codec.

(** ** The pipeline *)

Section Histories.
Context {T : Type}.
Implicit Types h : list (action T).

Lemma sent_app q h1 h2 : sent q (h1 ++ h2) = sent q h1 ++ sent q h2.
Proof. unfold sent. apply omap_app. Qed.

Lemma received_app q h1 h2 : received q (h1 ++ h2) = received q h1 ++ received q h2.
Proof. unfold received. apply omap_app. Qed.

Lemma multiplier_actions_app h1 h2 :
  multiplier_actions (h1 ++ h2) = multiplier_actions h1 ++ multiplier_actions h2.
Proof. unfold multiplier_actions. apply filter_app. Qed.

(** Lists of messages that are matrices up to a first [None]. *)
Lemma somes_no_None (xs : list (matrix T)) l r : Some <$> xs ≠ l ++ None :: r.
Proof.
  intros Heq. assert (Hin : (None : message T) ∈ Some <$> xs).
  { rewrite Heq. apply elem_of_app. right. left. }
  by apply list_elem_of_fmap in Hin as (x & ? & _).
Qed.

Lemma somes_None_inj (xs ys : list (matrix T)) r r' :
  (Some <$> xs) ++ None :: r = (Some <$> ys) ++ None :: r' → xs = ys ∧ r = r'.
Proof.
  revert ys. induction xs as [|x xs IH]; intros [|y ys]; simpl; intros Heq.
  - by injection Heq.
  - done.
  - done.
  - injection Heq as -> Heq. by destruct (IH _ Heq) as [-> ->].
Qed.

Lemma somes_inj (xs ys : list (matrix T)) : Some <$> xs = Some <$> ys → xs = ys.
Proof. apply (inj (fmap Some)). Qed.

End Histories.

Section Streams.
Context {T : Type} `{Number T} {rng : Type}.
Variable cpu_count : Z.
Variable random : rng → T * rng.
Variable size : Z.
Hypothesis cpu_count_pos : (1 ≤ cpu_count)%Z.
Hypothesis size_pos : (1 ≤ size)%Z.

Lemma random_row_length n g : length (random_row random n g).1 = n.
Proof.
  revert g. induction n as [|n IH]; intros g; simpl; [done|].
  destruct (random g) as [x g1]. specialize (IH g1).
  destruct (random_row random n g1) as [row g2]. simpl in *. by rewrite IH.
Qed.

Lemma random_rows_shape rows n g : shape (random_rows random rows n g).1 rows n.
Proof.
  revert g. induction rows as [|rows IH]; intros g; simpl; [by split|].
  pose proof (random_row_length n g) as Hr.
  destruct (random_row random n g) as [row g1]. specialize (IH g1).
  destruct (random_rows random rows n g1) as [rest g2]. simpl in *.
  destruct IH as [Hl Hf]. split; simpl; [by rewrite Hl | by constructor].
Qed.

Lemma generated_length n g : length (generated random size n g) = n.
Proof.
  revert g. induction n as [|n IH]; intros g; simpl; [done|].
  destruct (generate_random_matrix random size g) as [m g']. simpl. by rewrite IH.
Qed.

Lemma generated_square n g : Forall (square size) (generated random size n g).
Proof.
  revert g. induction n as [|n IH]; intros g; simpl; [done|].
  pose proof (random_rows_shape (Z.to_nat size) (Z.to_nat size) g) as Hs.
  unfold generate_random_matrix.
  destruct (random_rows random (Z.to_nat size) (Z.to_nat size) g) as [m g'].
  constructor; [exact Hs | apply IH].
Qed.

(** A step of a generator sends the head of what it has still to send. *)
Lemma generator_step_stream s m s' :
  generator_step random size s = Some (m, s') →
  stream_from random size s = m :: stream_from random size s'.
Proof.
  destruct s as [[|r] g|]; simpl; [by intros [= <- <-]| |done].
  destruct (generate_random_matrix random size g) as [mat g']. by intros [= <- <-].
Qed.

Lemma generator_step_None s :
  generator_step random size s = None → s = GeneratorDone.
Proof.
  destruct s as [[|r] g|]; simpl; [done| |done].
  by destruct (generate_random_matrix random size g).
Qed.

(** The multiply of the multiplier actor on square matrices. *)
Lemma product_ok (a b : matrix T) sched :
  square size a → square size b →
  (multiply_matrices cpu_count a b None sched).2 = Ok (naive_product a b).
Proof.
  intros Ha Hb.
  destruct (multiply_matrices_ok cpu_count a b _ _ _ None sched Ha Hb)
    as (w & evs & -> & _); [lia..| |done].
  exists cpu_count. done.
Qed.

End Streams.

Section Invariant.
Context {T : Type} `{Number T} {rng : Type}.
Variable cpu_count : Z.
Variable random : rng → T * rng.
Variable size : Z.
Hypothesis cpu_count_pos : (1 ≤ cpu_count)%Z.
Hypothesis size_pos : (1 ≤ size)%Z.
Variables sA sB : list (message T).
Hypothesis sA_square : ∀ m, Some m ∈ sA → square size m.
Hypothesis sB_square : ∀ m, Some m ∈ sB → square size m.

Local Abbreviation step := (step cpu_count random size).
Local Abbreviation fits := (fits random size sA sB).

(** Every step of every process keeps the invariant; [after_step] unfolds
    what the new actions add to what was sent and received. *)
Ltac after_step :=
  rewrite !sent_app, !received_app; simpl; rewrite !app_nil_r;
  split_and!; try done.

Lemma fits_step who p p' : fits p → step who p = Some p' → fits p'.
Proof.
  destruct p as [qA qB qR gA gB m c h].
  intros (HA & HB & HqA & HqB & HqR & Hm & Hc). unfold fits in *. simpl in *.
  destruct who as [| |sched|]; simpl.
  - destruct (generator_step random size gA) as [[msg s]|] eqn:Hg; [|done].
    intros [= <-]. simpl. apply generator_step_stream in Hg.
    after_step.
    + by rewrite <- HA, Hg, <- app_assoc.
    + by rewrite <- HqA, <- app_assoc.
  - destruct (generator_step random size gB) as [[msg s]|] eqn:Hg; [|done].
    intros [= <-]. simpl. apply generator_step_stream in Hg.
    after_step.
    + by rewrite <- HB, Hg, <- app_assoc.
    + by rewrite <- HqB, <- app_assoc.
  - destruct m as [|A| |e]; simpl; [| |done..].
    + destruct qA as [|A qA']; [done|]. intros [= <-]. simpl.
      after_step.
      * by rewrite <- HqA, <- app_assoc.
      * destruct Hm as (As & Bs & Hl & -> & -> & ->). by exists As, Bs.
    + destruct qB as [|B qB']; [done|].
      destruct Hm as (As & Bs & Hl & HrA & HrB & HsR).
      destruct A as [a|], B as [b|].
      * assert (Ha : square size a).
        { apply sA_square. rewrite <- HA, <- HqA, HrA. set_solver. }
        assert (Hb : square size b).
        { apply sB_square. rewrite <- HB, <- HqB. set_solver. }
        rewrite (product_ok cpu_count size cpu_count_pos size_pos a b sched Ha Hb).
        intros [= <-]. simpl.
        after_step.
        -- by rewrite <- HqB, <- app_assoc.
        -- by rewrite <- HqR, <- app_assoc.
        -- exists (As ++ [a]), (Bs ++ [b]). rewrite !length_app, Hl.
           split; [done|]. rewrite HrA, HrB, HsR, !fmap_app.
           rewrite zip_with_app by done. by rewrite fmap_app.
      * intros [= <-]. simpl.
        after_step.
        -- by rewrite <- HqB, <- app_assoc.
        -- by rewrite <- HqR, <- app_assoc.
        -- exists As, Bs. split; [done|]. exists (Some a), None.
           rewrite HrA, HrB, HsR. auto.
      * intros [= <-]. simpl.
        after_step.
        -- by rewrite <- HqB, <- app_assoc.
        -- by rewrite <- HqR, <- app_assoc.
        -- exists As, Bs. split; [done|]. exists None, (Some b).
           rewrite HrA, HrB, HsR. auto.
      * intros [= <-]. simpl.
        after_step.
        -- by rewrite <- HqB, <- app_assoc.
        -- by rewrite <- HqR, <- app_assoc.
        -- exists As, Bs. split; [done|]. exists None, None.
           rewrite HrA, HrB, HsR. auto.
  - destruct c as [n|n]; simpl; [|done].
    destruct qR as [|[C|] qR']; [done|..]; intros [= <-]; simpl.
    + after_step.
      * by rewrite <- HqR, <- app_assoc.
      * destruct Hc as (Cs & -> & ->). exists (Cs ++ [C]).
        rewrite fmap_app, length_app. simpl. split; [done|lia].
    + after_step.
      * by rewrite <- HqR, <- app_assoc.
      * destruct Hc as (Cs & -> & ->). by exists Cs.
Qed.

Lemma fits_exec who : ∀ p p', fits p → exec cpu_count random size who p = Some p' → fits p'.
Proof.
  induction who as [|a who IH]; intros p p' Hp; simpl; [by intros [= <-]|].
  destruct (step a p) as [p1|] eqn:Hs; [|done]. simpl.
  apply IH. by apply (fits_step a p).
Qed.

End Invariant.

Section Final.
Context {T : Type} `{Number T} {rng : Type}.
Variable cpu_count : Z.
Variable random : rng → T * rng.
Variable size : Z.
Hypothesis cpu_count_pos : (1 ≤ cpu_count)%Z.
Hypothesis size_pos : (1 ≤ size)%Z.

Local Abbreviation step := (step cpu_count random size).
Local Abbreviation exec := (exec cpu_count random size).
Local Abbreviation stuck := (stuck cpu_count random size).

(** *** Termination *)

(** Every step uses up some of the potential. *)
Lemma step_potential who p p' : step who p = Some p' → potential p' < potential p.
Proof.
  destruct p as [qA qB qR gA gB m c h]. unfold potential.
  destruct who as [| |sched|]; simpl.
  - destruct gA as [[|r] g|]; simpl; [| |done].
    + intros [= <-]. simpl. rewrite length_app. simpl. lia.
    + destruct (generate_random_matrix random size g). intros [= <-]. simpl.
      rewrite length_app. simpl. lia.
  - destruct gB as [[|r] g|]; simpl; [| |done].
    + intros [= <-]. simpl. rewrite length_app. simpl. lia.
    + destruct (generate_random_matrix random size g). intros [= <-]. simpl.
      rewrite length_app. simpl. lia.
  - destruct m as [|A| |e]; simpl; [| |done..].
    + destruct qA; [done|]. intros [= <-]. simpl. rewrite app_nil_r. lia.
    + destruct qB as [|B qB]; [done|]. destruct A, B.
      * destruct (multiply_matrices cpu_count _ _ None sched).2;
          intros [= <-]; simpl; rewrite ?length_app, ?app_nil_r; simpl; lia.
      * intros [= <-]; simpl; rewrite ?length_app; simpl; lia.
      * intros [= <-]; simpl; rewrite ?length_app; simpl; lia.
      * intros [= <-]; simpl; rewrite ?length_app; simpl; lia.
  - destruct c; simpl; [|done]. destruct qR as [|[|] ?]; [done|..];
      intros [= <-]; simpl; lia.
Qed.

Lemma exec_potential who : ∀ p p',
  exec who p = Some p' → potential p' + length who ≤ potential p.
Proof.
  induction who as [|a who IH]; intros p p'; simpl; [intros [= <-]; lia|].
  destruct (step a p) as [p1|] eqn:Hs; [|done]. simpl. intros He.
  apply IH in He. apply step_potential in Hs. lia.
Qed.

Lemma multiplier_blocked p :
  step (Multiplier []) p = None → ∀ sched, step (Multiplier sched) p = None.
Proof.
  destruct p as [qA qB qR gA gB m c h]. simpl.
  destruct m as [|A| |e]; simpl; [| |done..].
  - by destruct qA.
  - destruct qB as [|B qB]; [done|]. destruct A, B; simpl; [|done..].
    by destruct (multiply_matrices cpu_count _ _ None []).2.
Qed.

(** Every run can be continued until nobody can move. *)
Lemma run_to_the_end p : ∃ who p', exec who p = Some p' ∧ stuck p'.
Proof.
  remember (potential p) as n eqn:Hn. revert p Hn.
  induction n as [n IH] using lt_wf_ind. intros p ->.
  assert (Hmove : ∀ a p1, step a p = Some p1 →
            ∃ who p', exec who p = Some p' ∧ stuck p').
  { intros a p1 Hs. destruct (IH (potential p1)) with (p := p1) as (who & p' & He & Hst);
      [by apply (step_potential a) | done |].
    exists (a :: who), p'. simpl. rewrite Hs. done. }
  destruct (step GeneratorA p) as [p1|] eqn:H1; [by eapply Hmove|].
  destruct (step GeneratorB p) as [p1|] eqn:H2; [by eapply Hmove|].
  destruct (step (Multiplier []) p) as [p1|] eqn:H3; [by eapply Hmove|].
  destruct (step Consumer p) as [p1|] eqn:H4; [by eapply Hmove|].
  exists [], p. split; [done|]. intros [| |sched|]; try done.
  by apply multiplier_blocked.
Qed.

(** *** The end of a run *)

Variable num_matrices : Z.
Variables gA gB : rng.

Local Abbreviation count := (Z.to_nat num_matrices).
Local Abbreviation matrices_A := (generated random size count gA).
Local Abbreviation matrices_B := (generated random size count gB).
Local Abbreviation start := (async_multiplication_demo (T:=T) num_matrices gA gB).
Local Abbreviation sA := ((Some <$> matrices_A) ++ [None]).
Local Abbreviation sB := ((Some <$> matrices_B) ++ [None]).

Lemma start_fits : fits random size sA sB start.
Proof.
  unfold fits. simpl. split_and!; try done.
  - by exists [], [].
  - by exists [].
Qed.

Lemma stream_square n g m :
  Some m ∈ (Some <$> generated random size n g) ++ [None] → square size m.
Proof.
  intros [Hin|Hin]%elem_of_app; [|by apply list_elem_of_singleton in Hin].
  apply list_elem_of_fmap in Hin as (m' & [= ->] & Hin).
  by apply (proj1 (Forall_forall _ _) (generated_square random size n g)).
Qed.

Lemma reachable_fits who p : exec who start = Some p → fits random size sA sB p.
Proof.
  apply (fits_exec cpu_count random size cpu_count_pos size_pos sA sB).
  - apply stream_square.
  - apply stream_square.
  - apply start_fits.
Qed.

(** When nobody can move, every process has ended, the queues are empty,
    and what was sent is what was to be sent. *)
Lemma stuck_done p :
  fits random size sA sB p → stuck p →
  generator_A p = GeneratorDone ∧ generator_B p = GeneratorDone ∧
  the_multiplier p = MultiplierDone ∧ the_consumer p = Reported count ∧
  queue_A p = [] ∧ queue_B p = [] ∧ result_queue p = [] ∧
  sent QueueA (history p) = sA ∧ sent QueueB (history p) = sB ∧
  sent ResultQueue (history p)
  = (Some <$> zip_with naive_product matrices_A matrices_B) ++ [None].
Proof.
  intros (HA & HB & HqA & HqB & HqR & Hm & Hc) Hstuck.
  pose proof (Hstuck GeneratorA) as H1. pose proof (Hstuck GeneratorB) as H2.
  pose proof (Hstuck (Multiplier [])) as H3. pose proof (Hstuck Consumer) as H4.
  destruct p as [qA qB qR genA genB m c h]. simpl in *.
  assert (genA = GeneratorDone) as ->.
  { apply (generator_step_None random size).
    by destruct (generator_step random size genA) as [[??]|]. }
  assert (genB = GeneratorDone) as ->.
  { apply (generator_step_None random size).
    by destruct (generator_step random size genB) as [[??]|]. }
  simpl in HA, HB. rewrite app_nil_r in HA, HB.
  rewrite HA in HqA. rewrite HB in HqB.
  destruct Hm as (As & Bs & Hl & Hm).
  assert (Hmul : m = MultiplierDone ∧ As = matrices_A ∧ Bs = matrices_B
                 ∧ qA = [] ∧ qB = []
                 ∧ sent ResultQueue h
                   = (Some <$> zip_with naive_product As Bs) ++ [None]).
  { destruct m as [|A| |e]; simpl in *; [| | |done].
    - destruct qA; [|done]. destruct Hm as (HrA & _). rewrite app_nil_r, HrA in HqA.
      by apply somes_no_None in HqA.
    - destruct qB as [|B qB]; [|by destruct A, B; [destruct (multiply_matrices _ _ _ _ _).2|..]].
      destruct Hm as (_ & HrB & _). rewrite app_nil_r, HrB in HqB.
      by apply somes_no_None in HqB.
    - destruct Hm as (A & B & Hor & HrA & HrB & HsR).
      rewrite HrA, <- app_assoc in HqA. rewrite HrB, <- app_assoc in HqB.
      simpl in HqA, HqB.
      assert (As = matrices_A ∧ Bs = matrices_B) as [HAs HBs].
      { destruct Hor as [-> | ->].
        - apply somes_None_inj in HqA as [-> _]. split; [done|].
          apply app_inj_1 in HqB as [HB' _];
            [by apply somes_inj | by rewrite !length_fmap, <- Hl, !generated_length].
        - apply somes_None_inj in HqB as [-> _]. split; [|done].
          apply app_inj_1 in HqA as [HA' _];
            [by apply somes_inj | by rewrite !length_fmap, Hl, !generated_length]. }
      subst As Bs.
      apply app_inv_head in HqA. apply app_inv_head in HqB.
      by injection HqA as -> ->; injection HqB as -> ->. }
  destruct Hmul as (-> & -> & -> & -> & -> & HsR).
  rewrite HsR in HqR.
  assert (Hcon : c = Reported count ∧ qR = []).
  { destruct Hc as (Cs & Hc). destruct c as [n|n]; simpl in *.
    - destruct qR as [|[?|] ?]; [|done..]. destruct Hc as (HrR & _).
      rewrite app_nil_r, HrR in HqR. by apply somes_no_None in HqR.
    - destruct Hc as (HrR & ->). rewrite HrR, <- app_assoc in HqR. simpl in HqR.
      apply somes_None_inj in HqR as [-> ->].
      by rewrite length_zip_with, !generated_length, Nat.min_id. }
  destruct Hcon as [-> ->]. split_and!; done.
Qed.

End Final.

Section Shape.
Context {T : Type} `{Number T} {rng : Type}.
Variable cpu_count : Z.
Variable random : rng → T * rng.
Variable size : Z.

Local Abbreviation step := (step cpu_count random size).
Local Abbreviation exec := (exec cpu_count random size).

(** Every step keeps the shape of the multiplier's actions. *)
Lemma shape_step who (p p' : pipeline T rng) :
  multiplier_shape (the_multiplier p) (multiplier_actions (history p)) →
  step who p = Some p' →
  multiplier_shape (the_multiplier p') (multiplier_actions (history p')).
Proof.
  destruct p as [qA qB qR gA gB m c h]. simpl. intros (h0 & Hr & Hs).
  destruct who as [| |sched|]; simpl.
  - destruct (generator_step random size gA) as [[msg s]|]; [|done].
    intros [= <-]. simpl. rewrite multiplier_actions_app. simpl.
    rewrite app_nil_r. by exists h0.
  - destruct (generator_step random size gB) as [[msg s]|]; [|done].
    intros [= <-]. simpl. rewrite multiplier_actions_app. simpl.
    rewrite app_nil_r. by exists h0.
  - destruct m as [|A| |e]; simpl; [| |done..].
    + destruct qA as [|A qA']; [done|]. intros [= <-]. simpl.
      rewrite multiplier_actions_app, Hs. by exists h0.
    + destruct qB as [|B qB']; [done|]. destruct A as [a|], B as [b|].
      * destruct (multiply_matrices cpu_count a b None sched).2 as [C|e];
          intros [= <-]; simpl; rewrite multiplier_actions_app, Hs, <- app_assoc.
        -- exists (h0 ++ round a b C). split; [by constructor|done].
        -- exists h0. split; [done|]. by exists a, b.
      * intros [= <-]; simpl; rewrite multiplier_actions_app, Hs, <- app_assoc.
        exists h0. split; [done|]. exists (Some a), None. auto.
      * intros [= <-]; simpl; rewrite multiplier_actions_app, Hs, <- app_assoc.
        exists h0. split; [done|]. exists None, (Some b). auto.
      * intros [= <-]; simpl; rewrite multiplier_actions_app, Hs, <- app_assoc.
        exists h0. split; [done|]. exists None, None. auto.
  - destruct c as [n|n]; simpl; [|done].
    destruct qR as [|[C|] qR']; [done|..]; intros [= <-]; simpl;
      rewrite multiplier_actions_app; simpl; rewrite app_nil_r; by exists h0.
Qed.

Lemma shape_exec who : ∀ (p p' : pipeline T rng),
  multiplier_shape (the_multiplier p) (multiplier_actions (history p)) →
  exec who p = Some p' →
  multiplier_shape (the_multiplier p') (multiplier_actions (history p')).
Proof.
  induction who as [|a who IH]; intros p p' Hp; simpl; [by intros [= <-]|].
  destruct (step a p) as [p1|] eqn:Hs; [|done]. simpl.
  apply IH. by apply (shape_step a p).
Qed.

Lemma rounds_sentinel_free (h : list (action T)) :
  product_rounds h → Forall sentinel_free h.
Proof.
  induction 1 as [|h a b C Hr IH]; [done|].
  apply Forall_app. split; [done|]. by repeat constructor.
Qed.

(** Where a list of sentinel-free actions is followed by [t], an action that
    is not sentinel-free lies in [t]. *)
Lemma split_after_free (h0 t h1 h2 : list (action T)) x :
  Forall sentinel_free h0 → ¬ sentinel_free x →
  h0 ++ t = h1 ++ x :: h2 → ∃ t1, h1 = h0 ++ t1 ∧ t = t1 ++ x :: h2.
Proof.
  intros Hfree Hx. revert h1. induction Hfree as [|y h0 Hy Hfree IH]; intros h1 Heq.
  - by exists h1.
  - destruct h1 as [|z h1]; simpl in Heq.
    + injection Heq as -> _. done.
    + injection Heq as -> Heq. destruct (IH _ Heq) as (t1 & -> & ->). by exists t1.
Qed.

End Shape.

Section ShapeFacts.
Context {T : Type}.
Implicit Types h : list (action T).

(** The multiply is only called on matrices. *)
Lemma shape_multiply s h A B :
  multiplier_shape s h → Multiply A B ∈ h → is_Some A ∧ is_Some B.
Proof.
  intros (h0 & Hr%rounds_sentinel_free & Hs) Hin.
  assert (Hfree : ∀ x, x ∈ h0 → sentinel_free x) by (by apply Forall_forall).
  assert (H0 : Multiply A B ∈ h0 → is_Some A ∧ is_Some B).
  { intros Hx%Hfree. by destruct A, B. }
  destruct s as [|A'| |e].
  - subst h. auto.
  - subst h. apply elem_of_app in Hin as [?|Hin]; [auto|].
    by apply list_elem_of_singleton in Hin.
  - destruct Hs as (A' & B' & _ & ->). apply elem_of_app in Hin as [?|Hin]; [auto|].
    repeat (apply elem_of_cons in Hin as [?|Hin]; [done|]). by apply not_elem_of_nil in Hin.
  - destruct Hs as (a & b & ->). apply elem_of_app in Hin as [?|Hin]; [auto|].
    repeat (apply elem_of_cons in Hin as [Heq|Hin];
            [try done; injection Heq as -> ->; by split; eexists|]).
    by apply not_elem_of_nil in Hin.
Qed.

(** After a sentinel from A: nothing yet, or the get from B and the final
    put. After a sentinel from B: the final put. *)
Lemma shape_sentinel_got s h h1 q h2 :
  multiplier_shape s h → h = h1 ++ Get q None :: h2 →
  (q = QueueA ∧ (h2 = [] ∨ ∃ B, h2 = [Get QueueB B; Put ResultQueue None])) ∨
  (q = QueueB ∧ h2 = [Put ResultQueue None]).
Proof.
  intros (h0 & Hr%rounds_sentinel_free & Hs) Heq.
  assert (Hsplit : ∀ t, h = h0 ++ t → ∃ t1, h1 = h0 ++ t1 ∧ t = t1 ++ Get q None :: h2).
  { intros t Ht. apply (split_after_free h0 t h1 h2 (Get q None)); [done|by intros []|congruence]. }
  destruct s as [|A| |e].
  - destruct (Hsplit []) as (t1 & _ & Ht); [by rewrite app_nil_r|]. destruct t1; simplify_eq/=.
  - destruct (Hsplit _ Hs) as (t1 & _ & Ht).
    destruct t1 as [|? [|? ?]]; simplify_eq/=. left. auto.
  - destruct Hs as (A & B & Hor & Hs). destruct (Hsplit _ Hs) as (t1 & _ & Ht).
    destruct t1 as [|? [|? [|? [|? ?]]]]; simplify_eq/=.
    + left. split; [done|]. right. by exists B.
    + right. done.
  - destruct Hs as (a & b & Hs). destruct (Hsplit _ Hs) as (t1 & _ & Ht).
    destruct t1 as [|? [|? [|? [|? ?]]]]; simplify_eq/=.
Qed.

(** The sentinel is put once, as the last action of an actor that returned. *)
Lemma shape_sentinel_put s h h1 h2 :
  multiplier_shape s h → h = h1 ++ Put ResultQueue None :: h2 →
  h2 = [] ∧ (Put ResultQueue None ∉ h1) ∧ s = MultiplierDone.
Proof.
  intros (h0 & Hr%rounds_sentinel_free & Hs) Heq.
  assert (Hsplit : ∀ t, h = h0 ++ t →
            ∃ t1, h1 = h0 ++ t1 ∧ t = t1 ++ Put ResultQueue None :: h2).
  { intros t Ht. apply (split_after_free h0 t h1 h2 (Put ResultQueue None));
      [done|by intros []|congruence]. }
  assert (H0 : Put ResultQueue (None : message T) ∉ h0).
  { intros Hin. by apply (proj1 (Forall_forall _ _) Hr) in Hin. }
  destruct s as [|A| |e].
  - destruct (Hsplit []) as (t1 & _ & Ht); [by rewrite app_nil_r|]. destruct t1; simplify_eq/=.
  - destruct (Hsplit _ Hs) as (t1 & _ & Ht).
    destruct t1 as [|? [|? ?]]; simplify_eq/=.
  - destruct Hs as (A & B & Hor & Hs). destruct (Hsplit _ Hs) as (t1 & -> & Ht).
    destruct t1 as [|? [|? [|? [|? ?]]]]; simplify_eq/=.
    split_and!; [done| |done].
    rewrite elem_of_app, !elem_of_cons. intros [?|[?|[?|?%not_elem_of_nil]]]; done.
  - destruct Hs as (a & b & Hs). destruct (Hsplit _ Hs) as (t1 & _ & Ht).
    destruct t1 as [|? [|? [|? [|? ?]]]]; simplify_eq/=.
Qed.

End ShapeFacts.

(** ** The logging multiply *)

Lemma apply_events_app (fs : files) evs1 evs2 :
  apply_events fs (evs1 ++ evs2) = apply_events (apply_events fs evs1) evs2.
Proof. apply foldl_app. Qed.

(** The text of a file that is not reopened: what it held and what was written. *)
Lemma apply_events_written (fs : files) file evs :
  ¬ reopened file evs →
  apply_events fs evs !! file
  = match written file evs with
    | [] => fs !! file
    | texts => Some (default "" (fs !! file) +:+ concat_text texts)
    end.
Proof.
  unfold reopened, written, apply_events. revert fs.
  induction evs as [|e evs IH]; intros fs Hno; [done|].
  cbn [foldl]. rewrite IH by (intros ?; apply Hno; by right).
  destruct e as [f|f text|n|w|i j]; cbn [omap list_omap apply_event]; try done.
  - destruct (decide (f = file)) as [->|Hne]; [destruct Hno; left|].
    by rewrite lookup_insert_ne.
  - destruct (decide (f = file)) as [->|Hne].
    + rewrite lookup_insert_eq. cbn [default from_option id].
      destruct (omap _ evs); cbn [concat_text].
      * by rewrite string_app_nil_r.
      * by rewrite !string_app_assoc.
    + by rewrite lookup_insert_ne.
Qed.

Section Logging.
Context {T : Type} `{Number T} `{Text T}.
Variable cpu_count : Z.

(** A logging worker computes its cell and appends its line. *)
Lemma compute_and_write_ok (A B : matrix T) m K n i j lock file :
  shape A m K → shape B K n → i < m → j < n →
  compute_and_write (i, j, A, B, lock, file)
  = ([EvRun i j; EvWrite file (log_line i j (dot A B K i j))],
     Ok (i, j, dot A B K i j)).
Proof.
  intros HA HB Hi Hj. unfold compute_and_write.
  destruct (shape_lookup A m K 0 HA) as (A0 & HA0 & HlA0); [lia|].
  rewrite bind_emit, (getitem_Some _ _ _ HA0). cbn [mbind result_bind]. rewrite HlA0.
  rewrite (for_each_foldl _ (λ acc k, add acc (mul (cell A i k) (cell B k j)))).
  - done.
  - intros acc k Hk%elem_of_seq.
    destruct (shape_cell A m K i k HA) as (Ai & HAi & Ha); [done|lia|].
    destruct (shape_cell B K n k j HB) as (Bk & HBk & Hb); [lia|done|].
    rewrite (getitem_Some _ _ _ HAi). cbn [mbind result_bind].
    rewrite (getitem_Some _ _ _ Ha). cbn [mbind result_bind].
    rewrite (getitem_Some _ _ _ HBk). cbn [mbind result_bind].
    by rewrite (getitem_Some _ _ _ Hb).
Qed.

(** The body of the logging multiply does what it is meant to do when the
    lock it is given can be sent to the workers. *)
Lemma intermediate_write_with_manager_lock (A B : matrix T) m K n file
    num_processes sched (fs : files) :
  shape A m K → shape B K n → 0 < m → 0 < K →
  valid_count cpu_count num_processes →
  ∃ w evs,
    intermediate_write_with cpu_count ManagerLock A B file num_processes sched
    = (EvOpenW file :: EvTasks (m * n) :: EvPool w :: evs, Ok (naive_product A B)) ∧
    written file evs ≡ₚ (λ '(i, j), log_line i j (dot A B K i j)) <$> positions m n ∧
    ¬ reopened file evs ∧
    apply_events fs (EvOpenW file :: EvTasks (m * n) :: EvPool w :: evs) !! file
    = Some (concat_text (written file evs)).
Proof.
  intros HA HB Hm HK (w & Hw & Hw1). unfold intermediate_write_with.
  destruct (shape_lookup A m K 0 HA Hm) as (A0 & HA0 & HlA0).
  destruct (shape_lookup B K n 0 HB HK) as (B0 & HB0 & HlB0).
  destruct HA as [HlA HfA]. destruct HB as [HlB HfB].
  destruct A as [|a A']; [simpl in *; lia|]. destruct B as [|b B']; [simpl in *; lia|].
  cbn [is_empty orb]. rewrite (getitem_Some _ _ _ HA0), (getitem_Some _ _ _ HB0).
  rewrite bind_lift_Ok. rewrite decide_False by lia. rewrite bind_lift_Ok.
  rewrite HlA, HlB0, Hw, !bind_emit, Pool_valid, bind_Ok by done.
  set (tasks := (λ '(i, j), (i, j, a :: A', b :: B', ManagerLock, file)) <$> positions m n).
  destruct (pool_map_ok compute_and_write
    (λ '(i, j, A, B, _, file), [EvRun i j; EvWrite file (log_line i j (dot A B K i j))])
    (λ '(i, j, A, B, _, _), (i, j, dot A B K i j)) pickle_write_task tasks
    (Z.to_nat w) sched) as (evs & Hpm & Hev); [lia | | |].
  { by intros x ([i j] & -> & _)%list_elem_of_fmap. }
  { intros x (ij & -> & Hin)%list_elem_of_fmap. destruct ij as [i j].
    apply elem_of_positions in Hin as [Hi Hj].
    by apply compute_and_write_ok with m n. }
  assert (Hw' : written file evs
    ≡ₚ (λ '(i, j), log_line i j (dot (a :: A') (b :: B') K i j)) <$> positions m n).
  { unfold written. rewrite Hev. unfold tasks. rewrite <- list_fmap_compose.
    clear. induction (positions m n) as [|[i j] ps IH]; [done|].
    rewrite !fmap_cons. cbn [concat]. rewrite omap_app, IH. simpl.
    by rewrite decide_True. }
  assert (Hno : ¬ reopened file evs).
  { unfold reopened. rewrite Hev. unfold tasks. rewrite <- list_fmap_compose.
    intros Hin%list_elem_of_In%in_concat. destruct Hin as (l & Hl & Hin).
    apply list_elem_of_In, list_elem_of_fmap in Hl as ([i j] & -> & _).
    simpl in Hin. by destruct Hin as [|[|[]]]. }
  exists (Z.to_nat w), evs. split_and!; [|done|done|].
  - rewrite Hpm, bind_Ok. unfold tasks.
    rewrite length_fmap, length_positions, <- list_fmap_compose.
    rewrite (list_fmap_ext _ (λ '(i, j), (i, j, dot (a :: A') (b :: B') K i j)))
      by (by intros ? [??] ?).
    rewrite fill_positions, naive_product_tabulate. cbn [lift fst snd hd].
    rewrite app_nil_r. simpl in HA0, HB0. by rewrite HlA, <- HlB0, <- HlA0; simplify_eq.
  - change (EvOpenW file :: EvTasks (m * n) :: EvPool (Z.to_nat w) :: evs)
      with ([EvOpenW file; EvTasks (m * n); EvPool (Z.to_nat w)] ++ evs).
    rewrite apply_events_app, apply_events_written by done.
    unfold apply_events. cbn [foldl apply_event]. rewrite lookup_insert_eq.
    cbn [default from_option id]. by destruct (written file evs).
Qed.

End Logging.

(** ** Workers whose tasks may raise *)

Section FailingWorkers.
Context {X Y : Type} (func : X → M Y).

(** A step of the [k]-th unfinished batch: it runs its first task. *)
Lemma step_slot_some k (slots : list (slot X Y)) :
  k < unfinished slots →
  ∃ pre s x xs post,
    slots = pre ++ s :: post ∧ todo s = x :: xs ∧
    step_slot func k slots
    = Some (match func x with
            | (evs, Ok y) => (evs, None, pre ++ Slot (done s ++ [y]) xs :: post)
            | (evs, Raise e) => (evs, Some e, pre ++ Slot (done s) [] :: post)
            end).
Proof.
  unfold unfinished. revert k.
  induction slots as [|s slots IH]; intros k Hk; [simpl in *; lia|].
  rewrite filter_cons in Hk. case_decide as Hd.
  - destruct (todo s) as [|x xs] eqn:Hs; [done|]. simpl in *. rewrite Hs.
    destruct k as [|k].
    + exists [], s, x, xs, slots. split_and!; [done..|].
      by destruct (func x) as [evs [y|e]].
    + destruct (IH k) as (pre & s' & x' & xs' & post & -> & Ht & ->); [lia|].
      exists (s :: pre), s', x', xs', post. split_and!; [done..|].
      by destruct (func x') as [evs [y|e]].
  - destruct (todo s) as [|x xs] eqn:Hs; [|done]. simpl in *. rewrite Hs.
    destruct (IH k Hk) as (pre & s' & x & xs & post & -> & Ht & ->).
    exists (s :: pre), s', x, xs, post. split_and!; [done..|].
    destruct k; by destruct (func x) as [evs [y|e]].
Qed.

(** When one of the tasks still to run raises, the run ends with an
    exception, whatever the schedule. *)
Lemma run_slots_fails workers fuel sched (slots : list (slot X Y)) x :
  0 < workers → length (pending slots) ≤ fuel →
  x ∈ pending slots → (∃ e, (func x).2 = Raise e) →
  ∃ e, (run_slots func workers fuel sched slots).1.2 = Some e.
Proof.
  intros Hw. revert sched slots.
  induction fuel as [|fuel IH]; intros sched slots Hlen Hin Hx.
  - destruct (pending slots); [by apply not_elem_of_nil in Hin | simpl in Hlen; lia].
  - cbn [run_slots].
    assert (H0 : unfinished slots ≠ 0).
    { intros H0%unfinished_0. rewrite H0 in Hin. by apply not_elem_of_nil in Hin. }
    destruct (step_slot_some (hd 0 sched `mod` (workers `min` unfinished slots)) slots)
      as (pre & s & x' & xs & post & -> & Ht & ->).
    { pose proof (Nat.mod_upper_bound (hd 0 sched) (workers `min` unfinished slots)). lia. }
    assert (Hp : pending (pre ++ s :: post) = pending pre ++ x' :: xs ++ pending post).
    { unfold pending. rewrite fmap_app, concat_app. simpl. by rewrite Ht. }
    destruct (func x') as [evs [y|e]] eqn:Hf; [|by exists e].
    cbn [fst snd first_exn].
    assert (Hp' : pending (pre ++ Slot (done s ++ [y]) xs :: post)
                  = pending pre ++ xs ++ pending post).
    { unfold pending. by rewrite fmap_app, concat_app. }
    apply IH.
    + rewrite Hp'. rewrite Hp in Hlen. rewrite !length_app in *. simpl in Hlen.
      rewrite length_app in Hlen. lia.
    + rewrite Hp in Hin. rewrite Hp'.
      rewrite !elem_of_app, elem_of_cons, elem_of_app in *.
      destruct Hin as [?|[->|[?|?]]]; [tauto | | tauto | tauto].
      destruct Hx as [e He]. by rewrite Hf in He.
    + done.
Qed.

(** [pool.map] raises when one of the tasks does. *)
Lemma pool_map_fails iterable workers sched x :
  0 < workers → x ∈ iterable → (∃ e, (func x).2 = Raise e) →
  ∃ e, (pool_map (λ _, None) func iterable workers sched).2 = Raise e.
Proof.
  intros Hw Hin Hx. unfold pool_map. cbn [snd].
  set (batches := get_tasks (chunksize (length iterable) workers) iterable).
  assert (Hc : concat batches = iterable).
  { apply get_tasks_concat. intros Hne. apply chunksize_pos; [|done].
    destruct iterable; [done | simpl; lia]. }
  assert (Hu : foldr (λ b acc, first_exn (pickle_batch (λ _ : X, None) b) acc) None batches
               = None).
  { clear. induction batches as [|b bs IH]; simpl; [done|]. rewrite IH.
    unfold pickle_batch. by induction b. }
  assert (Hd : dispatch (Y:=Y) (λ _, None) <$> batches = Slot [] <$> batches).
  { apply list_fmap_ext. intros i b _. unfold dispatch.
    assert (pickle_batch (λ _ : X, None) b = None) as -> by (unfold pickle_batch; by induction b).
    done. }
  rewrite Hu, Hd. cbn [first_exn].
  assert (Hp : pending (Slot (Y:=Y) [] <$> batches) = iterable).
  { unfold pending. rewrite <- list_fmap_compose. simpl.
    rewrite <- Hc. f_equal. by rewrite list_fmap_id. }
  destruct (run_slots_fails workers (length iterable) sched (Slot [] <$> batches) x)
    as [e ->]; [done | by rewrite Hp | by rewrite Hp | done |].
  by exists e.
Qed.

End FailingWorkers.

(** ** The multiply on any operands *)

Lemma foldl_ext_in {A B} (f g : A → B → A) (l : list B) :
  (∀ a x, x ∈ l → f a x = g a x) → ∀ a, foldl f a l = foldl g a l.
Proof.
  induction l as [|x l IH]; intros Hfg a; simpl; [done|].
  rewrite Hfg by left. apply IH. intros. apply Hfg. by right.
Qed.

(** A loop whose body raises [e] wherever it does not satisfy [R]. *)
Lemma for_each_decide {S X} (body : S → X → result S) (f : S → X → S)
    (R : X → Prop) `{∀ x, Decision (R x)} e xs :
  (∀ s x, body s x = if decide (R x) then Ok (f s x) else Raise e) →
  ∀ s, for_each body s xs
       = if decide (Forall R xs) then Ok (foldl f s xs) else Raise e.
Proof.
  intros Hb. induction xs as [|x xs IH]; intros s; cbn [for_each foldl].
  - by destruct (decide (Forall R [])) as [|[]].
  - rewrite Hb. destruct (decide (R x)) as [HR|HR]; cbn [mbind result_bind].
    + rewrite IH. destruct (decide (Forall R xs)) as [HF|HF];
        destruct (decide (Forall R (x :: xs))) as [HF'|HF']; try done.
      * destruct HF'. by constructor.
      * by apply Forall_cons in HF' as [_ ?].
    + destruct (decide (Forall R (x :: xs))) as [HF'|HF']; [|done].
      by apply Forall_cons in HF' as [? _].
Qed.

Section Ragged.
Context {T : Type} `{Number T}.
Variable cpu_count : Z.
Implicit Types A B : matrix T.

(** What a worker returns for a cell, whatever the operands. *)
Lemma compute_element_outcome A B i j :
  compute_element (i, j, A, B)
  = ([EvRun i j],
     if decide (A ≠ [] ∧ readable A B i j)
     then Ok (i, j, dot A B (length (hd [] A)) i j)
     else Raise IndexError).
Proof.
  unfold compute_element. rewrite bind_emit. cbn [lift fst snd]. f_equal.
  destruct A as [|A0 A'].
  - by rewrite decide_False by (by intros [? _]).
  - rewrite (getitem_Some (A0 :: A') 0 A0) by done. cbn [mbind result_bind hd].
    rewrite (for_each_decide _
      (λ acc k, add acc (mul (cell (A0 :: A') i k) (cell B k j)))
      (λ k, is_Some (lookup2 (A0 :: A') i k) ∧ is_Some (lookup2 B k j)) IndexError).
    + unfold readable. cbn [hd]. unfold dot.
      destruct (decide (Forall _ (seq 0 (length A0)))) as [HF|HF].
      * by rewrite decide_True.
      * rewrite decide_False; [done|]. by intros [_ ?].
    + intros acc k. unfold cell, lookup2, getitem.
      destruct ((A0 :: A') !! i) as [Ai|]; cbn [mbind result_bind option_bind];
        [|by rewrite decide_False by (by intros [[? ?] _])].
      destruct (Ai !! k) as [a|]; cbn [mbind result_bind option_bind];
        [|by rewrite decide_False by (by intros [[? ?] _])].
      destruct (B !! k) as [Bk|]; cbn [mbind result_bind option_bind];
        [|by rewrite decide_False by (by intros [_ [? ?]])].
      destruct (Bk !! j) as [b|]; cbn [mbind result_bind option_bind];
        [|by rewrite decide_False by (by intros [_ [? ?]])].
      by rewrite decide_True by (split; eauto).
Qed.

Lemma wide_lookup2 A n i j :
  wide A n → i < length A → j < n → is_Some (lookup2 A i j).
Proof.
  intros Hw Hi Hj. destruct (lookup_lt_is_Some_2 A i Hi) as [row Hr].
  pose proof (Forall_lookup_1 _ _ _ _ Hw Hr) as Hl. simpl in Hl.
  unfold lookup2. rewrite Hr. simpl. apply lookup_lt_is_Some_2. lia.
Qed.

Lemma lookup2_wide A n :
  (∀ i j, i < length A → j < n → is_Some (lookup2 A i j)) → wide A n.
Proof.
  intros Hc. apply Forall_lookup_2. intros i row Hr.
  destruct n as [|n]; [lia|].
  destruct (Hc i n) as [x Hx]; [by eapply lookup_lt_Some | lia |].
  unfold lookup2 in Hx. rewrite Hr in Hx. simpl in Hx.
  apply lookup_lt_Some in Hx. lia.
Qed.

(** With at least one cell to compute, all the reads succeed exactly when no
    row of [A] is shorter than the first row of [A] and no row of [B] is
    shorter than the first row of [B]. *)
Lemma all_readable_wide A B :
  A ≠ [] → length (hd [] A) = length B → 0 < length (hd [] B) →
  all_readable A B ↔ wide A (length B) ∧ wide B (length (hd [] B)).
Proof.
  intros HA HK Hn. unfold all_readable, readable. rewrite HK.
  assert (Hm : 0 < length A) by (destruct A; [done | simpl; lia]).
  split.
  - intros Hall.
    assert (Hcell : ∀ i j k, i < length A → j < length (hd [] B) → k < length B →
              is_Some (lookup2 A i k) ∧ is_Some (lookup2 B k j)).
    { intros i j k Hi Hj Hk.
      assert (Hp : (i, j) ∈ positions (length A) (length (hd [] B)))
        by (by apply elem_of_positions).
      apply (proj1 (Forall_forall _ _) Hall) in Hp. simpl in Hp.
      apply (proj1 (Forall_forall _ _) Hp). apply elem_of_seq. lia. }
    split; apply lookup2_wide.
    + intros i k Hi Hk. by apply (Hcell i 0 k).
    + intros k j Hk Hj. by apply (Hcell 0 j k).
  - intros [HwA HwB]. apply Forall_forall. intros [i j] [Hi Hj]%elem_of_positions.
    simpl. apply Forall_forall. intros k Hk%elem_of_seq. split.
    + apply (wide_lookup2 A (length B)); [done | done | lia].
    + apply (wide_lookup2 B (length (hd [] B))); [done | lia | done].
Qed.

Lemma all_readable_no_columns A B : length (hd [] B) = 0 → all_readable A B.
Proof.
  intros Hn. unfold all_readable.
  assert (positions (length A) (length (hd [] B)) = []) as ->; [|done].
  apply length_zero_iff_nil. rewrite length_positions, Hn. lia.
Qed.

(** What [Pool] does, whatever it is given. *)
Lemma Pool_cases v :
  (∃ e, Pool v = ([], Raise e) ∧ InvalidConfiguration e) ∨
  (∃ n, v = PyInt n ∧ (1 ≤ n)%Z ∧ Pool v = ([EvPool (Z.to_nat n)], Ok (Z.to_nat n))).
Proof.
  destruct v as [n|x|s].
  - destruct (Z.ltb_spec n 1) as [Hn|Hn].
    + left. eexists. unfold Pool. rewrite (proj2 (Z.ltb_lt n 1) Hn).
      split; [done|]. by left.
    + right. exists n. split_and!; [done..|]. by apply Pool_valid.
  - left. unfold Pool, InvalidConfiguration. destruct (PrimFloat.ltb x 1); eauto.
  - left. unfold Pool, InvalidConfiguration. eauto.
Qed.

(** The multiply past its checks and the start of its pool: the product
    when every read of every worker succeeds, an [IndexError] otherwise. *)
Lemma multiply_matrices_general A B num_processes sched :
  A ≠ [] → B ≠ [] → length (hd [] A) = length B →
  valid_count cpu_count num_processes →
  ∃ w evs,
    multiply_matrices cpu_count A B num_processes sched
    = (EvTasks (length A * length (hd [] B)) :: EvPool w :: evs,
       if decide (all_readable A B) then Ok (naive_product A B) else Raise IndexError).
Proof.
  intros HA HB HK (w & Hw & Hw1). unfold multiply_matrices.
  destruct A as [|a A']; [done|]. destruct B as [|b B']; [done|].
  cbn [is_empty orb]. rewrite (getitem_Some (a :: A') 0 a) by done.
  rewrite bind_lift_Ok. rewrite decide_False by (simpl in *; lia).
  rewrite (getitem_Some (b :: B') 0 b) by done. rewrite bind_lift_Ok, bind_emit.
  rewrite Hw, Pool_valid, bind_Ok by done.
  rewrite length_fmap, length_positions.
  set (A := a :: A') in *. set (B := b :: B') in *.
  set (m := length A). set (n := length b).
  set (tasks := (λ '(i, j), (i, j, A, B)) <$> positions m n).
  exists (Z.to_nat w).
  destruct (decide (all_readable A B)) as [Hall|Hall].
  - destruct (pool_map_ok compute_element (λ '(i, j, _, _), [EvRun i j])
      (λ '(i, j, A, B), (i, j, dot A B (length (hd [] A)) i j)) (λ _, None) tasks
      (Z.to_nat w) sched) as (evs & Hpm & Hev); [lia | done | |].
    { intros x (ij & -> & Hin)%list_elem_of_fmap. destruct ij as [i j].
      rewrite compute_element_outcome. rewrite decide_True; [done|].
      split; [done|]. by apply (proj1 (Forall_forall _ _) Hall (i, j)). }
    exists (evs ++ []). rewrite Hpm, bind_Ok. unfold tasks.
    rewrite <- list_fmap_compose.
    rewrite (list_fmap_ext _ (λ '(i, j), (i, j, dot A B (length (hd [] A)) i j)))
      by (by intros ? [??] ?).
    rewrite fill_positions, naive_product_tabulate. done.
  - apply not_Forall_Exists in Hall; [|apply _].
    apply Exists_exists in Hall as ([i j] & Hin & Hno). simpl in Hno.
    destruct (pool_map_fails compute_element tasks (Z.to_nat w) sched (i, j, A, B))
      as [e He]; [lia | | |].
    { apply list_elem_of_fmap. by exists (i, j). }
    { rewrite compute_element_outcome. cbn [snd].
      rewrite decide_False by (by intros [_ ?]). by exists IndexError. }
    destruct (pool_map (λ _, None) compute_element tasks (Z.to_nat w) sched)
      as [evs r] eqn:Hpm.
    assert (Hpm' : (pool_map (λ _ : task, None) compute_element tasks (Z.to_nat w) sched).2
                   = Raise e) by (by rewrite Hpm, <- He).
    apply pool_map_raises in Hpm' as (x & evs0 & Hx).
    apply compute_element_raises in Hx as ->.
    simpl in He. subst r. by exists evs.
Qed.

(** The shape of what [fill] returns. *)
Lemma setitem2_shape (C C' : matrix T) m n i j v :
  shape C m n → setitem2 C i j v = Ok C' → shape C' m n.
Proof.
  intros [Hl Hf]. unfold setitem2, getitem.
  destruct (C !! i) as [row|] eqn:Hr; [|done]. cbn [mbind result_bind].
  case_decide; [|done]. intros [= <-]. split.
  - by rewrite length_insert.
  - apply Forall_insert; [done|]. rewrite length_insert.
    by apply (Forall_lookup_1 _ _ _ _ Hf Hr).
Qed.

Lemma fill_shape results : ∀ (C C' : matrix T) m n,
  shape C m n → fill C results = Ok C' → shape C' m n.
Proof.
  unfold fill. induction results as [|[[i j] v] results IH]; intros C C' m n HC; simpl.
  - by intros [= <-].
  - destruct (setitem2 C i j v) as [C1|e] eqn:Hs; [|done]. simpl.
    apply IH. by apply (setitem2_shape C C1 m n i j v).
Qed.

(** Whatever [multiply_matrices] returns has [rows(A)] rows of [len(B[0])]
    entries, and whatever it raises is one of four exceptions. *)
Lemma multiply_matrices_result A B num_processes sched :
  match (multiply_matrices cpu_count A B num_processes sched).2 with
  | Ok C => shape C (length A) (length (hd [] B))
  | Raise e => multiply_error e
  end.
Proof.
  unfold multiply_matrices, multiply_error.
  destruct A as [|a A]; [by left|]. destruct B as [|b B]; [by left|].
  cbn [is_empty orb]. rewrite (getitem_Some (a :: A) 0 a) by done.
  rewrite bind_lift_Ok. case_decide; [right; by left|].
  rewrite (getitem_Some (b :: B) 0 b) by done. rewrite bind_lift_Ok, bind_emit.
  cbn [snd].
  destruct (Pool_cases (default (PyInt cpu_count) num_processes))
    as [(e & -> & He)|(w & _ & _ & ->)]; [by right; right; left|].
  rewrite bind_Ok. cbn [snd].
  destruct (pool_map _ compute_element _ _ sched) as [evs' [results|e]] eqn:Hpm.
  - rewrite bind_Ok. cbn [snd lift hd].
    destruct (fill _ results) as [C|e] eqn:Hf.
    + apply (fill_shape results _ C (length (a :: A)) (length b)) in Hf; [done|].
      split; [by rewrite length_replicate|].
      apply Forall_forall. intros row ->%elem_of_replicate_inv.
      by rewrite length_replicate.
    + apply fill_raises in Hf as ->. by right; right; right.
  - assert (Hpm' : (pool_map (λ _ : task, None) compute_element
                      ((λ '(i, j), (i, j, a :: A, b :: B)) <$>
                         positions (length (a :: A)) (length b)) (Z.to_nat w) sched).2
                   = Raise e) by (by rewrite Hpm).
    apply pool_map_raises in Hpm' as (x & evs0 & Hx).
    apply compute_element_raises in Hx as ->. by right; right; right.
Qed.

(** *** Rows with surplus entries *)

Lemma cell_truncate A n i j : j < n → cell (truncate n A) i j = cell A i j.
Proof.
  intros Hj. unfold cell, lookup2, truncate. rewrite list_lookup_fmap.
  destruct (A !! i) as [row|]; simpl; [|done]. by rewrite lookup_take_lt.
Qed.

Lemma tabulate_ext m n (f g : nat → nat → T) :
  (∀ i j, i < m → j < n → f i j = g i j) → tabulate m n f = tabulate m n g.
Proof.
  intros Hfg. unfold tabulate. apply list_fmap_ext. intros k i Hi.
  apply lookup_seq in Hi as [-> Hi]. apply list_fmap_ext. intros k' j Hj.
  apply lookup_seq in Hj as [-> Hj]. apply Hfg; simpl; lia.
Qed.

(** The product reads the first [len(A[0])] entries of the rows of [A] and
    the first [len(B[0])] entries of the rows of [B], and no others. *)
Lemma naive_product_truncate A B :
  naive_product (truncate (length (hd [] A)) A) (truncate (length (hd [] B)) B)
  = naive_product A B.
Proof.
  rewrite !naive_product_tabulate.
  assert (Hhd : ∀ (M : matrix T),
            length (hd [] (truncate (length (hd [] M)) M)) = length (hd [] M)).
  { intros [|r M]; [done|]. simpl. rewrite length_take. lia. }
  rewrite !Hhd. unfold truncate at 1. rewrite length_fmap.
  apply tabulate_ext. intros i j Hi Hj. unfold dot.
  apply foldl_ext_in. intros acc k Hk%elem_of_seq.
  rewrite !cell_truncate by lia. done.
Qed.

Lemma truncate_shape A n : wide A n → shape (truncate n A) (length A) n.
Proof.
  intros Hw. unfold truncate. split; [by rewrite length_fmap|].
  apply Forall_fmap. eapply Forall_impl; [exact Hw|].
  intros row Hrow. simpl in *. rewrite length_take. lia.
Qed.

End Ragged.

Lemma NoDup_positions m n : NoDup (positions m n).
Proof.
  unfold positions. apply NoDup_bind.
  - intros i1 i2 [i j] _ _ (j1 & H1 & _)%list_elem_of_bind (j2 & H2 & _)%list_elem_of_bind.
    apply list_elem_of_singleton in H1, H2. congruence.
  - intros i _. apply NoDup_bind.
    + intros j1 j2 [i' j] _ _ H1%list_elem_of_singleton H2%list_elem_of_singleton.
      congruence.
    + intros j _. apply NoDup_singleton.
    + apply NoDup_seq.
  - apply NoDup_seq.
Qed.

(** ** The logging multiply on any operands *)

Section LoggingAnyOperands.
Context {T : Type} `{Number T} `{Text T}.
Variable cpu_count : Z.
Implicit Types A B : matrix T.

(** A logging worker is a worker that appends its line when it has a value. *)
Lemma compute_and_write_outcome A B i j (l : lock) file :
  compute_and_write (i, j, A, B, l, file)
  = match (compute_element (i, j, A, B)).2 with
    | Ok (_, _, result) =>
      ([EvRun i j; EvWrite file (log_line i j result)], Ok (i, j, result))
    | Raise e => ([EvRun i j], Raise e)
    end.
Proof.
  unfold compute_and_write, compute_element. rewrite !bind_emit. cbn [lift fst snd].
  destruct (getitem A 0) as [A0|e]; cbn [mbind result_bind M_bind fst snd]; [|done].
  destruct (for_each _ zero (seq 0 (length A0))) as [r|e];
    cbn [mbind result_bind M_bind fst snd]; done.
Qed.

(** Where a check fails, the logging multiply is the multiply. *)
Lemma intermediate_write_rejects A B file num_processes sched :
  A = [] ∨ B = [] ∨ length (hd [] A) ≠ length B →
  multiply_matrices_with_intermediate_write cpu_count A B file num_processes sched
  = multiply_matrices cpu_count A B num_processes sched
  ∧ (multiply_matrices cpu_count A B num_processes sched).1 = [].
Proof.
  unfold multiply_matrices_with_intermediate_write, intermediate_write_with,
    multiply_matrices.
  destruct A as [|a A]; [by intros _|]. destruct B as [|b B]; [by intros _|].
  intros [?|[?|Hd]]; [done..|].
  cbn [is_empty orb]. rewrite (getitem_Some (a :: A) 0 a) by done.
  rewrite !bind_lift_Ok. by rewrite !decide_True.
Qed.

(** Past the checks: the log is emptied, the tasks are built, the pool is
    started; then nothing is computed, since either there is no task or no
    task can be sent. *)
Lemma intermediate_write_past_checks A B file num_processes sched :
  A ≠ [] → B ≠ [] → length (hd [] A) = length B →
  let tasks := length A * length (hd [] B) in
  (∃ e, multiply_matrices_with_intermediate_write cpu_count A B file num_processes sched
        = ([EvOpenW file; EvTasks tasks], Raise e) ∧ InvalidConfiguration e
        ∧ Pool (default (PyInt cpu_count) num_processes) = ([], Raise e)) ∨
  (∃ w, multiply_matrices_with_intermediate_write cpu_count A B file num_processes sched
        = ([EvOpenW file; EvTasks tasks; EvPool w],
           if decide (length (hd [] B) = 0) then Ok (replicate (length A) [])
           else Raise LockNotShareable)
        ∧ valid_count cpu_count num_processes).
Proof.
  intros HA HB HK tasks. unfold tasks.
  unfold multiply_matrices_with_intermediate_write, intermediate_write_with.
  destruct A as [|a A']; [done|]. destruct B as [|b B']; [done|].
  cbn [is_empty orb]. rewrite (getitem_Some (a :: A') 0 a) by done.
  rewrite bind_lift_Ok. rewrite decide_False by (simpl in *; lia).
  rewrite (getitem_Some (b :: B') 0 b) by done. rewrite bind_lift_Ok, !bind_emit.
  rewrite length_fmap, length_positions. cbn [hd].
  destruct (Pool_cases (default (PyInt cpu_count) num_processes))
    as [(e & HP & He)|(w & Hw & Hw1 & HP)]; rewrite HP.
  - left. by exists e.
  - right. exists (Z.to_nat w). split; [|by exists w]. rewrite bind_Ok.
    destruct (decide (length b = 0)) as [Hn|Hn].
    + assert (Hpos : positions (length (a :: A')) (length b) = []).
      { apply length_zero_iff_nil. rewrite length_positions, Hn. lia. }
      rewrite Hpos, Hn. done.
    + assert (Hpm : pool_map pickle_write_task compute_and_write
                ((λ '(i, j), (i, j, a :: A', b :: B', Lock, file)) <$>
                   positions (length (a :: A')) (length b))
                (Z.to_nat w) sched = ([], Raise LockNotShareable)).
      { apply pool_map_unsent.
        - lia.
        - intros Hnil%(f_equal length). rewrite length_fmap, length_positions in Hnil.
          simpl in Hnil. lia.
        - by intros x ([i j] & -> & _)%list_elem_of_fmap. }
      by rewrite Hpm.
Qed.

(** What the call leaves on the disk. *)
Lemma intermediate_write_disk A B file num_processes sched (fs : files) :
  apply_events fs
    (multiply_matrices_with_intermediate_write cpu_count A B file num_processes sched).1
  = if decide (A ≠ [] ∧ B ≠ [] ∧ length (hd [] A) = length B)
    then <[file := EmptyString]> fs else fs.
Proof.
  case_decide as Hd.
  - destruct Hd as (HA & HB & HK).
    by destruct (intermediate_write_past_checks A B file num_processes sched HA HB HK)
      as [(e & -> & _)|(w & -> & _)].
  - destruct (intermediate_write_rejects A B file num_processes sched) as [-> ->]; [|done].
    destruct A; [by left|]. destruct B; [by right; left|]. right. right.
    intros HK. apply Hd. done.
Qed.

(** With a second operand whose rows have entries, the call raises. *)
Lemma intermediate_write_raises_with_entries A B file num_processes sched :
  Forall (λ row, row ≠ []) B →
  ∃ e, (multiply_matrices_with_intermediate_write cpu_count A B file
          num_processes sched).2 = Raise e.
Proof.
  intros Hrows.
  destruct (decide (A ≠ [] ∧ B ≠ [] ∧ length (hd [] A) = length B)) as [Hd|Hd].
  - destruct Hd as (HA & HB & HK).
    destruct (intermediate_write_past_checks A B file num_processes sched HA HB HK)
      as [(e & -> & _)|(w & -> & _)]; [by exists e|].
    cbn [snd]. rewrite decide_False; [by eexists|].
    destruct B as [|b B]; [done|]. apply Forall_cons in Hrows as [Hb _].
    simpl. by destruct b.
  - destruct (intermediate_write_rejects A B file num_processes sched) as [-> _].
    { destruct A; [by left|]. destruct B; [by right; left|]. right. right.
      intros HK. apply Hd. done. }
    destruct A as [|a A]; [by rewrite multiply_matrices_empty by (by left); eexists|].
    destruct B as [|b B]; [by rewrite multiply_matrices_empty by (by right); eexists|].
    rewrite multiply_matrices_mismatch; [by eexists|done..|].
    intros HK. apply Hd. done.
Qed.

End LoggingAnyOperands.

(** ** The layout of a matrix file *)

Lemma blank_app s1 s2 : blank (s1 +:+ s2) = blank s1 && blank s2.
Proof.
  induction s1 as [|c s1 IH]; [done|].
  rewrite string_app_cons. simpl. by rewrite IH, andb_assoc.
Qed.

Lemma lstrip_blank s : lstrip s = "" ↔ blank s = true.
Proof.
  induction s as [|c s IH]; simpl; [done|].
  destruct (isspace c); simpl; [done|]. split; [done|]. intros [=].
Qed.

(** What is left of a string after [lstrip] starts with a character that is
    no whitespace. *)
Lemma lstrip_head s : lstrip s = "" ∨ ∃ c r, lstrip s = String c r ∧ isspace c = false.
Proof.
  induction s as [|c s IH]; simpl; [by left|].
  destruct (isspace c) eqn:Hc; [done|]. right. by exists c, s.
Qed.

Lemma rstrip_head c r : isspace c = false → rstrip (String c r) ≠ "".
Proof. intros Hc. simpl. rewrite Hc. by destruct (rstrip r). Qed.

Lemma strip_blank s : strip s = "" ↔ blank s = true.
Proof.
  rewrite <- lstrip_blank. unfold strip.
  destruct (lstrip_head s) as [->|(c & r & -> & Hc)]; [done|].
  split; [|done]. intros Hr. by apply rstrip_head in Hr.
Qed.

Lemma split_go_tok tok s : tok ≠ "" → split_go tok s ≠ [].
Proof.
  revert tok. induction s as [|c s IH]; intros tok Ht; simpl.
  - by rewrite decide_False.
  - destruct (isspace c).
    + by rewrite decide_False.
    + apply IH. by intros [? _]%string_app_nil.
Qed.

Lemma split_lstrip tok s : tok = "" → split_go tok (lstrip s) = split_go tok s.
Proof.
  intros ->. induction s as [|c s IH]; [done|]. cbn [lstrip split_go].
  destruct (isspace c) eqn:Hc.
  - by rewrite (decide_True (P := "" = "")) by done.
  - cbn [split_go]. by rewrite Hc.
Qed.

Lemma split_rstrip s : ∀ tok, split_go tok (rstrip s) = split_go tok s.
Proof.
  induction s as [|c s IH]; intros tok; [done|]. cbn [rstrip].
  destruct (rstrip s) as [|c' r] eqn:Hr.
  - cbn [split_go]. destruct (isspace c) eqn:Hc; cbn [split_go].
    + rewrite <- (IH ""). cbn [split_go]. rewrite (decide_True (P := "" = "")) by done.
      by case_decide.
    + rewrite Hc. by rewrite <- IH.
  - revert tok.
    assert (Hstep : ∀ x y, (∀ tok, split_go tok x = split_go tok y) →
              ∀ tok, split_go tok (String c x) = split_go tok (String c y)).
    { intros x y Hxy tok. cbn [split_go]. by rewrite !Hxy. }
    by apply Hstep.
Qed.

(** [split] does not see what [strip] takes away. *)
Lemma split_strip s : split (strip s) = split s.
Proof. unfold split, strip. by rewrite split_rstrip, split_lstrip. Qed.

(** A line holds a token exactly when [strip] leaves something of it. *)
Lemma split_nil s : split s = [] ↔ strip s = "".
Proof.
  split.
  - intros Hs. rewrite <- split_strip in Hs. unfold strip in *.
    destruct (lstrip_head s) as [->|(c & r & Hl & Hc)]; [done|].
    rewrite Hl in *. pose proof (rstrip_head c r Hc) as Hne.
    destruct (rstrip (String c r)) as [|c' r'] eqn:Hr; [done|].
    exfalso. revert Hs. unfold split. cbn [split_go].
    assert (isspace c' = false) as ->.
    { simpl in Hr. rewrite Hc in Hr. destruct (rstrip r); by injection Hr as <- _. }
    apply split_go_tok. done.
  - intros Hs. by rewrite <- split_strip, Hs.
Qed.

Section Layout.
Context {T : Type} `{Text T}.

(** The loop of [read_matrix] sees the lines through their tokens. *)
Lemma read_lines_tokens (ls : list string) : ∀ acc : matrix T,
  for_each (λ matrix line,
      if decide (strip line ≠ EmptyString) then
        row ← map_result float_of (split (strip line));
        Ok (matrix ++ [row])
      else Ok matrix) acc ls
  = for_each (λ matrix toks, row ← map_result float_of toks; Ok (matrix ++ [row]))
      acc (filter (λ toks, toks ≠ []) (split <$> ls)).
Proof.
  induction ls as [|l ls IH]; intros acc; [done|].
  rewrite fmap_cons, filter_cons. cbn [for_each]. rewrite split_strip.
  destruct (decide (strip l ≠ "")) as [Hs|Hs].
  - rewrite decide_True by (by rewrite split_nil). cbn [for_each].
    destruct (map_result float_of (split l)) as [row|e]; cbn [mbind result_bind]; [|done].
    apply IH.
  - rewrite decide_False by (rewrite split_nil; tauto). cbn [mbind result_bind].
    apply IH.
Qed.

Lemma read_matrix_tokens (fs : files) filename text :
  fs !! filename = Some text →
  read_matrix fs filename
  = for_each (λ (matrix : matrix T) toks,
                row ← map_result float_of toks; Ok (matrix ++ [row]))
      [] (token_lines text).
Proof. intros Hf. unfold read_matrix. rewrite Hf. apply read_lines_tokens. Qed.

End Layout.

(** *** Lines *)

Lemma lines_go_last cur t :
  no_nl t = true →
  lines_go cur t = if decide (cur +:+ t = "") then [] else [cur +:+ t].
Proof.
  revert cur. induction t as [|c t IH]; intros cur.
  - by rewrite string_app_nil_r.
  - intros [Hc Ht]%andb_true_iff. apply negb_true_iff in Hc.
    cbn [lines_go]. rewrite Hc, IH by done.
    by rewrite string_app_assoc.
Qed.

(** The lines of a text: its full lines and what follows the last newline. *)
Lemma lines_text ls last :
  Forall (λ l, no_nl l = true) ls → no_nl last = true →
  lines (concat_text ((λ l, l +:+ nl) <$> ls) +:+ last)
  = ((λ l, l +:+ nl) <$> ls) ++ (if decide (last = "") then [] else [last]).
Proof.
  unfold lines. induction 1 as [|l ls Hl Hls IH]; intros Hlast.
  - cbn [fmap list_fmap concat_text]. rewrite string_app_nil_l.
    by rewrite lines_go_last.
  - rewrite fmap_cons. cbn [concat_text]. rewrite !string_app_assoc.
    rewrite lines_go_line by done. rewrite IH by done. done.
Qed.

(** Every text is a list of full lines and a rest without newline. *)
Lemma text_lines (s : string) :
  ∃ ls last, Forall (λ l, no_nl l = true) ls ∧ no_nl last = true ∧
             s = concat_text ((λ l, l +:+ nl) <$> ls) +:+ last.
Proof.
  induction s as [|c s (ls & last & Hls & Hlast & ->)].
  - by exists [], "".
  - destruct (is_nl c) eqn:Hc.
    + exists ("" :: ls), last. split_and!; [by constructor | done |].
      rewrite fmap_cons. cbn [concat_text].
      rewrite string_app_nil_l, string_app_assoc.
      change (nl +:+ ?x) with (String "010" x).
      f_equal. unfold is_nl in Hc. apply Nat.eqb_eq in Hc.
      rewrite <- (ascii_nat_embedding c), Hc. done.
    + destruct ls as [|l ls].
      * exists [], (String c last). split_and!; [done | by simpl; rewrite Hc |done].
      * exists (String c l :: ls), last. apply Forall_cons in Hls as [Hl Hls].
        split_and!; [constructor; [by simpl; rewrite Hc | done] | done | done].
Qed.

Lemma split_go_blank w : blank w = true → ∀ tok, split_go tok w = split_go tok "".
Proof.
  induction w as [|c w IH]; [done|]. simpl. intros [Hc Hw]%andb_true_iff tok.
  rewrite Hc, (IH Hw ""). cbn [split_go].
  rewrite (decide_True (P := "" = "")) by done. by case_decide.
Qed.

(** [split] does not see whitespace at the end. *)
Lemma split_app_blank s w : blank w = true → split (s +:+ w) = split s.
Proof.
  intros Hw. unfold split. generalize "" as tok.
  induction s as [|c s IH]; intros tok.
  - rewrite string_app_nil_l. by apply split_go_blank.
  - rewrite string_app_cons. cbn [split_go]. by rewrite !IH.
Qed.

Lemma split_skip_blank w s : blank w = true → split (w +:+ s) = split s.
Proof.
  intros Hw. unfold split. induction w as [|c w IH]; [done|]. simpl in Hw.
  apply andb_true_iff in Hw as [Hc Hw]. rewrite string_app_cons. cbn [split_go].
  rewrite Hc, (decide_True (P := "" = "")) by done. by apply IH.
Qed.

Lemma concat_text_app ls1 ls2 :
  concat_text (ls1 ++ ls2) = concat_text ls1 +:+ concat_text ls2.
Proof.
  induction ls1 as [|l ls1 IH]; [done|]. cbn [app concat_text].
  by rewrite IH, string_app_assoc.
Qed.

Lemma blank_nl : blank nl = true.
Proof. reflexivity. Qed.

(** The token lists of a text given by its lines. *)
Lemma token_lines_text ls last :
  Forall (λ l, no_nl l = true) ls → no_nl last = true →
  token_lines (concat_text ((λ l, l +:+ nl) <$> ls) +:+ last)
  = filter (λ toks, toks ≠ []) (split <$> (ls ++ [last])).
Proof.
  intros Hls Hlast. unfold token_lines. rewrite lines_text by done.
  rewrite !fmap_app, !filter_app. f_equal.
  - rewrite <- list_fmap_compose. f_equal. apply list_fmap_ext. intros i l _. simpl.
    apply split_app_blank, blank_nl.
  - case_decide as Hl; [by subst last|]. done.
Qed.

Lemma Forall_filter_keep {X} (P Q : X → Prop) `{∀ x, Decision (Q x)} l :
  Forall P l → Forall P (filter Q l).
Proof.
  induction 1 as [|x l Hx Hl IH]; [done|]. rewrite filter_cons.
  case_decide; [by constructor | done].
Qed.

(** The same for a text that ends with a newline. *)
Lemma token_lines_full ls :
  Forall (λ l, no_nl l = true) ls →
  token_lines (concat_text ((λ l, l +:+ nl) <$> ls))
  = filter (λ toks, toks ≠ []) (split <$> ls).
Proof.
  intros Hls. rewrite <- (string_app_nil_r (concat_text _)).
  rewrite token_lines_text by done.
  rewrite fmap_app, filter_app. cbn [fmap list_fmap].
  rewrite (filter_cons _ (split "")), decide_False by (by intros Hne; apply Hne).
  by rewrite filter_nil, app_nil_r.
Qed.

Lemma map_result_Forall2 {X Y} (f : X → result Y) xs ys :
  map_result f xs = Ok ys ↔ Forall2 (λ x y, f x = Ok y) xs ys.
Proof.
  revert ys. induction xs as [|x xs IH]; intros ys; simpl.
  - split; [intros [= <-]; constructor | by intros ->%Forall2_nil_inv_l].
  - destruct (f x) as [y|e] eqn:Hx; simpl.
    + destruct (map_result f xs) as [ys'|e] eqn:Hxs; simpl.
      * split.
        -- intros [= <-]. constructor; [done|]. by apply IH.
        -- intros (y' & ys'' & Hy & Hys & ->)%Forall2_cons_inv_l.
           apply IH in Hys. congruence.
      * split; [done|]. intros (y' & ys'' & Hy & Hys & ->)%Forall2_cons_inv_l.
        by apply IH in Hys.
    + split; [done|]. intros (y' & ys'' & Hy & Hys & ->)%Forall2_cons_inv_l. congruence.
Qed.

Lemma map_result_raises {X Y} (f : X → result Y) xs e :
  map_result f xs = Raise e → ∃ x, x ∈ xs ∧ f x = Raise e.
Proof.
  induction xs as [|x xs IH]; simpl; [done|].
  destruct (f x) as [y|e'] eqn:Hx; simpl.
  - destruct (map_result f xs) as [ys'|e'] eqn:Hxs; simpl; [done|].
    intros [= ->]. destruct IH as (x' & Hin & Hx'); [done|].
    exists x'. split; [by right | done].
  - intros [= ->]. exists x. split; [left | done].
Qed.

Section Rows.
Context {T : Type} `{Text T}.

(** The loop over the token lists: a row for each of them, or the exception
    of a token. *)
Lemma read_rows (tls : list (list string)) : ∀ acc : matrix T,
  match for_each (λ (matrix : matrix T) toks,
                    row ← map_result float_of toks; Ok (matrix ++ [row])) acc tls with
  | Ok matrix =>
    ∃ rows, matrix = acc ++ rows ∧
            Forall2 (Forall2 (λ t x, float_of t = Ok x)) tls rows
  | Raise e => ∃ toks t, toks ∈ tls ∧ t ∈ toks ∧ float_of t = Raise e
  end.
Proof.
  induction tls as [|toks tls IH]; intros acc; cbn [for_each].
  - exists []. by rewrite app_nil_r.
  - destruct (map_result float_of toks) as [row|e] eqn:Hrow; cbn [mbind result_bind].
    + specialize (IH (acc ++ [row])).
      destruct (for_each _ (acc ++ [row]) tls) as [matrix|e].
      * destruct IH as (rows & -> & Hrows). exists (row :: rows).
        rewrite <- app_assoc. split; [done|]. constructor; [|done].
        by apply map_result_Forall2.
      * destruct IH as (toks' & t & Hin & Ht & He). exists toks', t.
        split_and!; [by right | done..].
    + apply map_result_raises in Hrow as (t & Ht & He). exists toks, t.
      split_and!; [left | done..].
Qed.

Lemma read_rows_printable (close : T → T → Prop) (A : matrix T) : ∀ acc : matrix T,
  Forall (Forall (printable close)) A →
  ∃ A', for_each (λ (matrix : matrix T) toks,
                    row ← map_result (float_of (T:=T)) toks; Ok (matrix ++ [row]))
          acc ((λ row : list T, str <$> row) <$> A) = Ok (acc ++ A')
        ∧ Forall2 (Forall2 close) A A'.
Proof.
  intros acc HA. revert acc. induction HA as [|row A Hrow HA IH]; intros acc.
  - exists []. by rewrite app_nil_r.
  - rewrite fmap_cons. cbn [for_each].
    destruct (map_result_printable close row Hrow) as (row' & -> & Hclose).
    cbn [mbind result_bind]. destruct (IH (acc ++ [row'])) as (A' & -> & HA').
    exists (row' :: A'). rewrite <- app_assoc. split; [done | by constructor].
Qed.

End Rows.

(** *** What [write_matrix] leaves on the disk *)

Lemma apply_events_writes_all (fs : files) file texts :
  apply_events fs (EvWrite file <$> texts)
  = match texts with
    | [] => fs
    | _ => <[file := default "" (fs !! file) +:+ concat_text texts]> fs
    end.
Proof.
  unfold apply_events. revert fs. induction texts as [|t ts IH]; intros fs; [done|].
  rewrite fmap_cons. cbn [foldl apply_event]. rewrite IH.
  destruct ts as [|t' ts]; cbn [concat_text].
  - by rewrite string_app_nil_r.
  - rewrite lookup_insert_eq, insert_insert_eq. cbn [default from_option id].
    by rewrite !string_app_assoc.
Qed.

Lemma write_matrix_files {T} `{Text T} (fs : files) file (matrix : matrix T) :
  apply_events fs (write_matrix file matrix).1
  = <[file := concat_text (row_line <$> matrix)]> fs.
Proof.
  assert (Hev : (write_matrix file matrix).1
                = EvOpenW file :: (EvWrite file <$> (row_line <$> matrix))).
  { unfold write_matrix. cbn [fst]. by rewrite <- list_fmap_compose. }
  rewrite Hev. unfold apply_events. cbn [foldl apply_event].
  fold (apply_events (<[file:=""]> fs)).
  rewrite apply_events_writes_all.
  destruct (row_line <$> matrix) as [|l ls]; [done|].
  by rewrite lookup_insert_eq, insert_insert_eq.
Qed.

(** ** Runs of the pipeline for other sizes and counts *)

Section Starved.
Context {T : Type} `{Number T} {rng : Type}.
Variable cpu_count : Z.
Variable random : rng → T * rng.
Variable size : Z.
Hypothesis size_small : (size ≤ 0)%Z.

Local Abbreviation step := (step cpu_count random size).
Local Abbreviation exec := (exec cpu_count random size).
Local Abbreviation dying := (starved random size).

Lemma generate_nothing g : generate_random_matrix random size g = ([], g).
Proof. unfold generate_random_matrix. by replace (Z.to_nat size) with 0 by lia. Qed.

Lemma starved_step who p p' : dying p → step who p = Some p' → dying p'.
Proof.
  destruct p as [qA qB qR gA gB m c h].
  intros (HqR & Hc & HsR & Hm). unfold starved in *. simpl in *.
  subst qR c.
  destruct who as [| |sched|]; simpl.
  - destruct (generator_step random size gA) as [[msg s]|] eqn:Hg; [|done].
    intros [= <-]. simpl. apply generator_step_stream in Hg.
    rewrite sent_app, HsR. split_and!; [done..|].
    destruct m as [|A| |e]; [|done..].
    rewrite Hg in Hm. by rewrite <- app_assoc.
  - destruct (generator_step random size gB) as [[msg s]|] eqn:Hg; [|done].
    intros [= <-]. simpl. apply generator_step_stream in Hg.
    rewrite sent_app, HsR. split_and!; [done..|].
    rewrite Hg in Hm. destruct m as [|A| |e]; [| |done..]; by rewrite <- app_assoc.
  - destruct m as [|A| |e]; simpl; [| |done..].
    + destruct qA as [|A qA']; [done|]. intros [= <-]. simpl.
      rewrite sent_app, HsR. split_and!; [done..| |by destruct Hm].
      destruct Hm as [[rest HA] _]. by injection HA as ->.
    + destruct qB as [|B qB']; [done|]. destruct Hm as [-> [rest HB]].
      injection HB as -> _.
      rewrite (multiply_matrices_empty cpu_count [] [] None sched) by (by left).
      intros [= <-]. simpl. rewrite sent_app, HsR. done.
  - done.
Qed.

Lemma starved_exec who : ∀ p p', dying p → exec who p = Some p' → dying p'.
Proof.
  induction who as [|a who IH]; intros p p' Hp; simpl; [by intros [= <-]|].
  destruct (step a p) as [p1|] eqn:Hs; [|done]. simpl.
  apply IH. by apply (starved_step a p).
Qed.

Lemma starved_start num_matrices gA gB :
  (1 ≤ num_matrices)%Z → dying (async_multiplication_demo num_matrices gA gB).
Proof.
  intros Hn. unfold starved. simpl. split_and!; try done.
  - destruct (Z.to_nat num_matrices) as [|n] eqn:Hk; [lia|]. simpl.
    rewrite generate_nothing. by eexists.
  - destruct (Z.to_nat num_matrices) as [|n] eqn:Hk; [lia|]. simpl.
    rewrite generate_nothing. by eexists.
Qed.

(** When nobody can move in a starved run, the multiplier has died of the
    [ValueError] of the empty operand. *)
Lemma starved_stuck p :
  dying p → stuck cpu_count random size p →
  the_multiplier p = MultiplierFailed EmptyOperand ∧
  generator_A p = GeneratorDone ∧ generator_B p = GeneratorDone.
Proof.
  intros (HqR & Hc & HsR & Hm) Hstuck.
  pose proof (Hstuck GeneratorA) as H1. pose proof (Hstuck GeneratorB) as H2.
  pose proof (Hstuck (Multiplier [])) as H3.
  destruct p as [qA qB qR genA genB m c h]. simpl in *.
  assert (genA = GeneratorDone) as ->.
  { apply (generator_step_None random size).
    by destruct (generator_step random size genA) as [[??]|]. }
  assert (genB = GeneratorDone) as ->.
  { apply (generator_step_None random size).
    by destruct (generator_step random size genB) as [[??]|]. }
  simpl in Hm. split_and!; [|done..].
  destruct m as [|A| |e]; simpl in *.
  - destruct Hm as [[rest HA] _]. rewrite app_nil_r in HA. by subst qA.
  - destruct Hm as [-> [rest HB]]. rewrite app_nil_r in HB. subst qB. simpl in H3.
    done.
  - done.
  - by subst e.
Qed.

End Starved.

Section Idle.
Context {T : Type} `{Number T} {rng : Type}.
Variable cpu_count : Z.
Variable random : rng → T * rng.

Lemma generator_step_idle size size' (s : generator rng) :
  idle s →
  generator_step random size s = generator_step random size' s ∧
  ∀ m s', generator_step random size s = Some (m, s') → idle s'.
Proof.
  destruct s as [[|r] g|]; simpl; [|done|done].
  intros _. split; [done|]. by intros m s' [= <- <-].
Qed.

(** With nothing left to generate, the size plays no part. *)
Lemma step_idle size size' who p :
  idle_pipeline p →
  step cpu_count random size who p = step cpu_count random size' who p ∧
  ∀ p', step cpu_count random size who p = Some p' → idle_pipeline p'.
Proof.
  destruct p as [qA qB qR gA gB m c h]. intros [HA HB]. simpl in *.
  destruct who as [| |sched|]; simpl.
  - destruct (generator_step_idle size size' gA HA) as [-> Hi].
    split; [done|]. intros p'.
    destruct (generator_step random size' gA) as [[msg s]|] eqn:Hg; [|done].
    intros [= <-]. split; simpl; [|done]. by apply (Hi msg s).
  - destruct (generator_step_idle size size' gB HB) as [-> Hi].
    split; [done|]. intros p'.
    destruct (generator_step random size' gB) as [[msg s]|] eqn:Hg; [|done].
    intros [= <-]. split; simpl; [done|]. by apply (Hi msg s).
  - split; [done|]. intros p'.
    destruct (multiplier_step cpu_count sched m qA qB) as [[[[[acts s] qA'] qB'] out]|];
      [|done].
    by intros [= <-].
  - split; [done|]. intros p'.
    destruct (consumer_step c qR) as [[[msg s] rest]|]; [|done].
    by intros [= <-].
Qed.

Lemma exec_idle size size' who : ∀ p,
  idle_pipeline p →
  exec cpu_count random size who p = exec cpu_count random size' who p ∧
  ∀ p', exec cpu_count random size who p = Some p' → idle_pipeline p'.
Proof.
  induction who as [|a who IH]; intros p Hp; simpl.
  - split; [done|]. by intros p' [= <-].
  - destruct (step_idle size size' a p Hp) as [<- Hi].
    destruct (step cpu_count random size a p) as [p1|]; [|done]. simpl.
    apply IH. by apply Hi.
Qed.

Lemma stuck_idle size size' p :
  idle_pipeline p → stuck cpu_count random size p → stuck cpu_count random size' p.
Proof.
  intros Hp Hs who. destruct (step_idle size size' who p Hp) as [<- _]. apply Hs.
Qed.

End Idle.

(** *** The results so far *)

Lemma matrices_somes {T} (xs : list (matrix T)) : matrices (Some <$> xs) = xs.
Proof.
  unfold matrices. induction xs as [|x xs IH]; [done|].
  rewrite fmap_cons. cbn [omap list_omap id]. by rewrite IH.
Qed.

Lemma matrices_app {T} (xs ys : list (message T)) :
  matrices (xs ++ ys) = matrices xs ++ matrices ys.
Proof. apply omap_app. Qed.

(** What has been taken from a stream of matrices, with a tail that holds no
    matrix, is a prefix of the stream. *)
Lemma somes_prefix {T} (xs ms : list (matrix T)) rest tail :
  (Some <$> xs) ++ rest = (Some <$> ms) ++ tail →
  (∀ x, Some x ∉ tail) →
  xs = take (length xs) ms ∧ length xs ≤ length ms.
Proof.
  revert ms. induction xs as [|x xs IH]; intros ms Heq Ht; [simpl; split; [done|lia]|].
  destruct ms as [|m ms]; simpl in *.
  - destruct (Ht x). rewrite <- Heq. left.
  - injection Heq as -> Heq. destruct (IH ms Heq Ht) as [Hx Hl].
    split; [by f_equal | lia].
Qed.

Lemma zip_with_take_both {X Y Z} (f : X → Y → Z) k (xs : list X) (ys : list Y) :
  zip_with f (take k xs) (take k ys) = take k (zip_with f xs ys).
Proof.
  revert xs ys. induction k as [|k IH]; intros [|x xs] [|y ys]; simpl; try done.
  by rewrite IH.
Qed.

(** *** The random numbers of a matrix *)

Section Draws.
Context {T : Type} {rng : Type}.
Variable random : rng → T * rng.

Lemma random_row_app a b g :
  random_row random (a + b) g
  = let '(r1, g1) := random_row random a g in
    let '(r2, g2) := random_row random b g1 in
    (r1 ++ r2, g2).
Proof.
  revert g. induction a as [|a IH]; intros g; simpl.
  - by destruct (random_row random b g).
  - destruct (random g) as [x g0]. rewrite IH.
    destruct (random_row random a g0) as [r1 g1].
    by destruct (random_row random b g1) as [r2 g2].
Qed.

(** The rows of a matrix are consecutive draws. *)
Lemma random_rows_draws rows n g :
  (concat (random_rows random rows n g).1, (random_rows random rows n g).2)
  = random_row random (rows * n) g.
Proof.
  revert g. induction rows as [|rows IH]; intros g; simpl; [done|].
  rewrite random_row_app. destruct (random_row random n g) as [row g1].
  specialize (IH g1). destruct (random_rows random rows n g1) as [rest g2].
  simpl in *. by rewrite <- IH.
Qed.

Lemma random_row_all (P : T → Prop) n g :
  (∀ g, P (random g).1) → Forall P (random_row random n g).1.
Proof.
  intros HP. revert g. induction n as [|n IH]; intros g; simpl; [done|].
  specialize (HP g). destruct (random g) as [x g1]. specialize (IH g1).
  destruct (random_row random n g1) as [row g2]. by constructor.
Qed.

Lemma random_rows_all (P : T → Prop) rows n g :
  (∀ g, P (random g).1) → Forall (Forall P) (random_rows random rows n g).1.
Proof.
  intros HP. revert g. induction rows as [|rows IH]; intros g; simpl; [done|].
  pose proof (random_row_all P n g HP) as Hr.
  destruct (random_row random n g) as [row g1]. specialize (IH g1).
  destruct (random_rows random rows n g1) as [rest g2]. by constructor.
Qed.

End Draws.

(** ** The events of the multiply *)

Lemma apply_events_quiet (fs : files) evs :
  touches_no_file evs → apply_events fs evs = fs.
Proof.
  unfold apply_events. induction 1 as [|e evs He Hevs IH]; [done|].
  cbn [foldl]. by destruct e.
Qed.

Lemma step_slot_events {X Y} (func : X → M Y) k (slots : list (slot X Y)) evs e slots' :
  step_slot func k slots = Some (evs, e, slots') → ∃ x, evs = (func x).1.
Proof.
  revert k slots'. induction slots as [|s slots IH]; intros k slots'; simpl; [done|].
  destruct (todo s) as [|x xs].
  - destruct (step_slot func k slots) as [[[evs1 e1] sl1]|] eqn:Hs; [|done].
    simpl. intros [= -> -> <-]. by apply (IH k sl1).
  - destruct k as [|k].
    + destruct (func x) as [evs1 [y|e1]] eqn:Hf; intros [= <- <- <-];
        exists x; by rewrite Hf.
    + destruct (step_slot func k slots) as [[[evs1 e1] sl1]|] eqn:Hs; [|done].
      simpl. intros [= -> -> <-]. by apply (IH k sl1).
Qed.

Lemma run_slots_quiet {X Y} (func : X → M Y) workers fuel sched (slots : list (slot X Y)) :
  (∀ x, touches_no_file (func x).1) →
  touches_no_file (run_slots func workers fuel sched slots).1.1.
Proof.
  intros Hq. revert sched slots.
  induction fuel as [|fuel IH]; intros sched slots; simpl; [by constructor|].
  destruct (step_slot _ _ slots) as [[[evs1 e1] sl1]|] eqn:Hs; [|by constructor].
  simpl. apply Forall_app. split; [|apply IH].
  apply step_slot_events in Hs as [x ->]. apply Hq.
Qed.

Section Quiet.
Context {T : Type} `{Number T}.
Variable cpu_count : Z.

(** The multiply touches no file. *)
Lemma multiply_matrices_quiet (A B : matrix T) num_processes sched :
  touches_no_file (multiply_matrices cpu_count A B num_processes sched).1.
Proof.
  unfold multiply_matrices.
  destruct A as [|a A]; [by constructor|]. destruct B as [|b B]; [by constructor|].
  cbn [is_empty orb]. rewrite (getitem_Some (a :: A) 0 a) by done.
  rewrite bind_lift_Ok. case_decide; [by constructor|].
  rewrite (getitem_Some (b :: B) 0 b) by done. rewrite bind_lift_Ok, bind_emit.
  cbn [fst]. constructor; [done|].
  destruct (Pool_cases (default (PyInt cpu_count) num_processes))
    as [(e & -> & He)|(w & _ & _ & ->)]; [by constructor|].
  rewrite bind_Ok. cbn [fst]. constructor; [done|].
  assert (Hpm : ∀ tasks, touches_no_file
            (pool_map (λ _ : task, None) compute_element tasks (Z.to_nat w) sched).1).
  { intros tasks. unfold pool_map. cbn [fst]. apply run_slots_quiet.
    intros [[[i j] A'] B']. rewrite compute_element_outcome. by repeat constructor. }
  match goal with |- context [pool_map ?p ?f ?ts ?w ?s] =>
    specialize (Hpm ts); destruct (pool_map p f ts w s) as [evs [results|e]] end.
  - rewrite bind_Ok. cbn [fst lift]. by rewrite app_nil_r.
  - done.
Qed.

End Quiet.

(** ** The command line *)

Lemma bind_print {B} text (k : unit → proc B) w :
  (print text ≫= k) w = k tt (World (stdin w) (stdout w ++ [text +:+ nl]) (disk w)).
Proof. done. Qed.

Lemma bind_input {B} prompt (k : string → proc B) line rest out fs :
  (input prompt ≫= k) (World (line :: rest) out fs)
  = k line (World rest (out ++ [prompt]) fs).
Proof. done. Qed.

Lemma bind_input_end {B} prompt (k : string → proc B) out fs :
  (input prompt ≫= k) (World [] out fs) = (inr EndOfInput, World [] (out ++ [prompt]) fs).
Proof. done. Qed.

Lemma bind_path_exists {B} path (k : bool → proc B) w :
  (path_exists path ≫= k) w = k (bool_decide (is_Some (disk w !! path))) w.
Proof. done. Qed.

Lemma bind_return {A B} (k : A → proc B) w : (return_ ≫= k) w = (inr Returned, w).
Proof. done. Qed.

Lemma bind_reading {A B} (f : files → result A) (k : A → proc B) w a :
  f (disk w) = Ok a → (reading f ≫= k) w = k a w.
Proof. intros Hf. unfold mbind, proc_bind, reading. by rewrite Hf. Qed.

Lemma bind_reading_raises {A B} (f : files → result A) (k : A → proc B) w e :
  f (disk w) = Raise e → (reading f ≫= k) w = (inr (Raised e), w).
Proof. intros Hf. unfold mbind, proc_bind, reading. by rewrite Hf. Qed.

Lemma bind_calling {A B} (m : M A) (k : A → proc B) w :
  (calling m ≫= k) w
  = let w' := World (stdin w) (stdout w) (apply_events (disk w) m.1) in
    match m.2 with
    | Ok a => k a w'
    | Raise e => (inr (Raised e), w')
    end.
Proof. unfold mbind, proc_bind, calling. by destruct m.2. Qed.

Lemma write_matrix_returns {T} `{Text T} file (matrix : matrix T) :
  (write_matrix file matrix).2 = Ok tt.
Proof. done. Qed.

(** The next statements of [main] that always go on. *)
Ltac run_proc :=
  repeat first
    [ rewrite bind_print | rewrite bind_input | rewrite bind_input_end
    | rewrite bind_path_exists | rewrite bind_return | rewrite bind_calling
    | rewrite write_matrix_returns | rewrite write_matrix_files
    | progress cbn [stdin stdout disk] ].

Section MainLemmas.
Context {T : Type} `{Number T} `{Text T}.
Variable cpu_count : Z.
Variable int : string → option Z.

Lemma read_matrix_exists (fs : files) filename (A : matrix T) :
  read_matrix fs filename = Ok A → is_Some (fs !! filename).
Proof. unfold read_matrix. by destruct (fs !! filename). Qed.

(** A matrix read from a file has no row without entries. *)
Lemma read_matrix_rows (fs : files) filename (A : matrix T) :
  read_matrix fs filename = Ok A → Forall (λ row, row ≠ []) A.
Proof.
  intros Hr. destruct (read_matrix_exists fs filename A Hr) as [text Hf].
  rewrite (read_matrix_tokens fs filename text Hf) in Hr.
  pose proof (read_rows (T:=T) (token_lines text) []) as Hrows. rewrite Hr in Hrows.
  destruct Hrows as (rows & -> & Hrows). simpl.
  assert (Hne : Forall (λ toks : list string, toks ≠ []) (token_lines text)).
  { unfold token_lines. apply Forall_forall. intros toks [Hn _]%list_elem_of_filter. exact Hn. }
  clear Hr Hf. revert Hne.
  induction Hrows as [|toks row tls rows Hrow Hrows IH]; intros Hne; [done|].
  apply Forall_cons in Hne as [Htoks Hne]. constructor; [|by apply IH].
  intros ->. apply Forall2_nil_inv_r in Hrow. done.
Qed.

(** Mode 1 on input files that can be read. *)
Lemma main_mode_1_run sched out (fs : files) f1 f2 f3 rest (A B : matrix T) :
  read_matrix fs f1 = Ok A → read_matrix fs f2 = Ok B →
  ∃ out',
    main cpu_count int sched (World ("1" :: f1 :: f2 :: f3 :: rest) out fs)
    = match (multiply_matrices cpu_count A B None sched).2 with
      | Ok C =>
        (Returned,
         World rest (out' ++ ["Результат записан в файл " +:+ f3 +:+ nl])
           (<[f3 := concat_text (row_line <$> C)]> fs))
      | Raise e => (Raised e, World rest out' fs)
      end.
Proof.
  intros HA HB. unfold main, main_body. run_proc.
  rewrite (decide_True (P := "1" = "1")) by done. unfold main_mode_1. run_proc.
  rewrite bool_decide_true by (by eapply read_matrix_exists). cbn [negb]. run_proc.
  rewrite bool_decide_true by (by eapply read_matrix_exists). cbn [negb].
  rewrite (bind_reading (λ fs, read_matrix fs f1) _ (World _ _ fs) A HA).
  rewrite (bind_reading (λ fs, read_matrix fs f2) _ (World _ _ fs) B HB).
  run_proc. rewrite (apply_events_quiet fs) by apply multiply_matrices_quiet.
  eexists.
  destruct (multiply_matrices cpu_count A B None sched).2 as [C|e]; [|done].
  run_proc. done.
Qed.

(** Mode 2: [main] returns only for want of an input file; otherwise it
    ends with the exception of a read or of the logging multiply. *)
Lemma main_mode_2_run sched out (fs : files) f1 f2 f3 f4 rest :
  let finish := main cpu_count int sched (World ("2" :: f1 :: f2 :: f3 :: f4 :: rest) out fs) in
  (finish.1 = Returned ∧ disk finish.2 = fs ∧ ¬ (is_Some (fs !! f1) ∧ is_Some (fs !! f2))) ∨
  (∃ e, finish.1 = Raised e ∧ is_Some (fs !! f1) ∧ is_Some (fs !! f2) ∧
        ((disk finish.2 = fs ∧
          (read_matrix (T:=T) fs f1 = Raise e ∨ read_matrix (T:=T) fs f2 = Raise e)) ∨
         ∃ A B : matrix T,
           read_matrix fs f1 = Ok A ∧ read_matrix fs f2 = Ok B ∧
           (multiply_matrices_with_intermediate_write cpu_count A B f3 None sched).2
           = Raise e ∧
           disk finish.2
           = apply_events fs
               (multiply_matrices_with_intermediate_write cpu_count A B f3 None sched).1)).
Proof.
  intros finish. unfold finish, main, main_body. run_proc.
  rewrite (decide_False (P := "2" = "1")) by done.
  rewrite (decide_True (P := "2" = "2")) by done. unfold main_mode_2. run_proc.
  destruct (decide (is_Some (fs !! f1))) as [H1|H1];
    [rewrite bool_decide_true by done
    |rewrite bool_decide_false by done; cbn [negb]; run_proc; left; tauto].
  cbn [negb]. run_proc.
  destruct (decide (is_Some (fs !! f2))) as [H2|H2];
    [rewrite bool_decide_true by done
    |rewrite bool_decide_false by done; cbn [negb]; run_proc; left; tauto].
  cbn [negb]. right.
  destruct (read_matrix (T:=T) fs f1) as [A|e] eqn:HA;
    [rewrite (bind_reading (λ fs, read_matrix fs f1) _ (World _ _ fs) A HA)
    |rewrite (bind_reading_raises (λ fs, read_matrix fs f1) _ (World _ _ fs) e HA);
     exists e; split_and!; [done..|]; left; split; [done | by left]].
  destruct (read_matrix (T:=T) fs f2) as [B|e] eqn:HB;
    [rewrite (bind_reading (λ fs, read_matrix fs f2) _ (World _ _ fs) B HB)
    |rewrite (bind_reading_raises (λ fs, read_matrix fs f2) _ (World _ _ fs) e HB);
     exists e; split_and!; [done..|]; left; split; [done | by right]].
  run_proc.
  destruct (intermediate_write_raises_with_entries cpu_count A B f3 None sched)
    as [e He]; [by eapply read_matrix_rows|].
  rewrite He. exists e. split_and!; [done..|].
  right. by exists A, B.
Qed.

(** Whatever the input, [main] leaves the files as they were, or has written
    the result file of mode 1, or has emptied the intermediate file of mode
    2. *)
Lemma main_disk sched w :
  let finish := main cpu_count int sched w in
  disk finish.2 = disk w ∨
  (∃ f1 f2 f3 rest (C : matrix T),
     stdin w = "1"%string :: f1 :: f2 :: f3 :: rest ∧
     is_Some (disk w !! f1) ∧ is_Some (disk w !! f2) ∧
     finish.1 = Returned ∧
     disk finish.2 = <[f3 := concat_text (row_line <$> C)]> (disk w)) ∨
  (∃ f1 f2 f3 f4 rest e,
     stdin w = "2"%string :: f1 :: f2 :: f3 :: f4 :: rest ∧
     is_Some (disk w !! f1) ∧ is_Some (disk w !! f2) ∧
     finish.1 = Raised e ∧
     disk finish.2 = <[f3 := EmptyString]> (disk w)).
Proof.
  destruct w as [inp out fs]. cbn [stdin disk].
  destruct inp as [|choice inp]; [by left|].
  destruct (decide (choice = "1")) as [->|Hn1].
  { destruct inp as [|f1 [|f2 [|f3 rest]]]; [by left..|].
    destruct (decide (is_Some (fs !! f1))) as [H1|H1]; cycle 1.
    { left. unfold main, main_body. run_proc.
      rewrite (decide_True (P := "1" = "1")) by done. unfold main_mode_1. run_proc.
      rewrite bool_decide_false by done. cbn [negb]. by run_proc. }
    destruct (decide (is_Some (fs !! f2))) as [H2|H2]; cycle 1.
    { left. unfold main, main_body. run_proc.
      rewrite (decide_True (P := "1" = "1")) by done. unfold main_mode_1. run_proc.
      rewrite bool_decide_true by done. cbn [negb]. run_proc.
      rewrite bool_decide_false by done. cbn [negb]. by run_proc. }
    destruct (read_matrix (T:=T) fs f1) as [A|e] eqn:HA; cycle 1.
    { left. unfold main, main_body. run_proc.
      rewrite (decide_True (P := "1" = "1")) by done. unfold main_mode_1. run_proc.
      rewrite bool_decide_true by done. cbn [negb]. run_proc.
      rewrite bool_decide_true by done. cbn [negb].
      by rewrite (bind_reading_raises (λ fs, read_matrix fs f1) _ (World _ _ fs) e HA). }
    destruct (read_matrix (T:=T) fs f2) as [B|e] eqn:HB; cycle 1.
    { left. unfold main, main_body. run_proc.
      rewrite (decide_True (P := "1" = "1")) by done. unfold main_mode_1. run_proc.
      rewrite bool_decide_true by done. cbn [negb]. run_proc.
      rewrite bool_decide_true by done. cbn [negb].
      rewrite (bind_reading (λ fs, read_matrix fs f1) _ (World _ _ fs) A HA).
      by rewrite (bind_reading_raises (λ fs, read_matrix fs f2) _ (World _ _ fs) e HB). }
    destruct (main_mode_1_run sched out fs f1 f2 f3 rest A B HA HB) as [out' ->].
    destruct (multiply_matrices cpu_count A B None sched).2 as [C|e]; [|by left].
    right. left. by exists f1, f2, f3, rest, C. }
  destruct (decide (choice = "2")) as [->|Hn2].
  { destruct inp as [|f1 [|f2 [|f3 [|f4 rest]]]]; [by left..|].
    destruct (main_mode_2_run sched out fs f1 f2 f3 f4 rest)
      as [(_ & Hd & _)|(e & He & H1 & H2 & [[Hd _]|(A & B & _ & _ & _ & Hd)])];
      [by left | by left |].
    rewrite intermediate_write_disk in Hd. case_decide; [|by left].
    right. right. by exists f1, f2, f3, f4, rest, e. }
  left. unfold main, main_body. run_proc.
  rewrite (decide_False (P := choice = "1")), (decide_False (P := choice = "2")) by done.
  destruct (decide (choice = "3")) as [->|Hn3]; [|by run_proc].
  unfold main_mode_3. cbv zeta.
  destruct inp as [|size_text inp]; [by run_proc|]. run_proc.
  destruct (int size_text) as [size|]; [|by run_proc].
  destruct inp as [|count_text inp]; [by run_proc|]. run_proc.
  destruct (int count_text) as [num|]; by run_proc.
Qed.

End MainLemmas.

(** * Theorems

    ** The worker-pool multiply *)

(** C1: for compatible matrices [A] (m by k) and [B] (k by n) and every
    accepted number of workers (an int from 1 on, or the default), whatever
    the schedule of the workers, [multiply_matrices] returns exactly the
    matrix of the sequential triple loop with its sums taken from k = 0
    upward; for [[1,2],[3,4]] and [[5,6],[7,8]] that is [[19,22],[43,50]],
    on ints and on floats. *)
Theorem multiply_matrices_is_naive_product :
  (∀ (T : Type) (N : Number T) (cpu_count : Z) (A B : matrix T) (m k n : nat)
     (num_processes : option pyvalue) (sched : list nat),
     shape A m k → shape B k n → 0 < m → 0 < k →
     valid_count cpu_count num_processes →
     (multiply_matrices cpu_count A B num_processes sched).2
     = Ok (naive_product A B)) ∧
  (∀ (cpu_count : Z) (num_processes : option pyvalue) (sched : list nat),
     valid_count cpu_count num_processes →
     (multiply_matrices cpu_count [[1; 2]; [3; 4]]%Z [[5; 6]; [7; 8]]%Z
        num_processes sched).2 = Ok [[19; 22]; [43; 50]]%Z ∧
     (multiply_matrices cpu_count [[1; 2]; [3; 4]]%float [[5; 6]; [7; 8]]%float
        num_processes sched).2 = Ok [[19; 22]; [43; 50]]%float).
Proof.
  assert (Hgen : ∀ (T : Type) (N : Number T) cpu_count (A B : matrix T) m k n
            num_processes sched,
            shape A m k → shape B k n → 0 < m → 0 < k →
            valid_count cpu_count num_processes →
            (multiply_matrices cpu_count A B num_processes sched).2
            = Ok (naive_product A B)).
  { intros T N cpu A B m k n np sched HA HB Hm Hk Hv.
    destruct (multiply_matrices_ok cpu A B m k n np sched HA HB Hm Hk Hv)
      as (w & evs & -> & _).
    done. }
  split; [exact Hgen|]. intros cpu np sched Hv. split.
  - rewrite (Hgen Z _ cpu _ _ 2 2 2 np sched); [done|..]; try lia; try done.
    all: split; [done | by repeat constructor].
  - rewrite (Hgen float _ cpu _ _ 2 2 2 np sched); [by vm_compute|..]; try lia; try done.
    all: split; [done | by repeat constructor].
Qed.

Lemma multiply_matrices_is_naive_product_witness :
  (multiply_matrices 4 [[1; 2]; [3; 4]]%Z [[5; 6]; [7; 8]]%Z (Some (PyInt 2)) [1; 0; 1]).2
  = Ok (naive_product [[1; 2]; [3; 4]]%Z [[5; 6]; [7; 8]]%Z).
Proof.
  apply (proj1 multiply_matrices_is_naive_product Z _ 4%Z _ _ 2 2 2).
  - split; [reflexivity | repeat constructor].
  - split; [reflexivity | repeat constructor].
  - lia.
  - lia.
  - exists 2%Z. split; [reflexivity | lia].
Defined.

(** C3: with operands that pass the two checks, an override that is no int
    from 1 on makes [multiply_matrices] raise what [Pool] raises for it (a
    [ValueError] below 1, a [TypeError] for what is no int); the task list
    has been built, no pool has started and no worker has run. *)
Theorem multiply_matrices_invalid_count :
  ∀ (T : Type) (N : Number T) (cpu_count : Z) (A B : matrix T) (v : pyvalue)
    (sched : list nat),
    A ≠ [] → B ≠ [] → length (hd [] A) = length B → ¬ positive_int v →
    ∃ e, multiply_matrices cpu_count A B (Some v) sched
         = ([EvTasks (length A * length (hd [] B))], Raise e)
         ∧ InvalidConfiguration e.
Proof. intros. by apply multiply_matrices_invalid. Qed.

Lemma multiply_matrices_invalid_count_witness :
  ∃ e, multiply_matrices 4 [[1; 2]; [3; 4]]%Z [[5; 6]; [7; 8]]%Z (Some (PyInt 0)) []
       = ([EvTasks (2 * 2)], Raise e) ∧ InvalidConfiguration e.
Proof.
  apply (multiply_matrices_invalid_count Z _ 4%Z [[1; 2]; [3; 4]]%Z [[5; 6]; [7; 8]]%Z
           (PyInt 0) []).
  - discriminate.
  - discriminate.
  - reflexivity.
  - intros (n & Hn & Hpos). injection Hn as <-. lia.
Defined.

(** C4: for operands that are not empty and whose inner dimensions differ,
    [multiply_matrices] raises the [ValueError] of line 52 before anything
    else happens (no task list, no pool, no worker), whatever the number of
    processes asked for. *)
Theorem multiply_matrices_dimension_mismatch :
  ∀ (T : Type) (N : Number T) (cpu_count : Z) (A B : matrix T)
    (num_processes : option pyvalue) (sched : list nat),
    A ≠ [] → B ≠ [] → length (hd [] A) ≠ length B →
    multiply_matrices cpu_count A B num_processes sched
    = ([], Raise DimensionMismatch).
Proof. intros. by apply multiply_matrices_mismatch. Qed.

Lemma multiply_matrices_dimension_mismatch_witness :
  multiply_matrices 4 [[1; 2; 3]]%Z [[5; 6]; [7; 8]]%Z None []
  = ([], Raise DimensionMismatch).
Proof.
  apply (multiply_matrices_dimension_mismatch Z _ 4%Z [[1; 2; 3]]%Z [[5; 6]; [7; 8]]%Z None []).
  - discriminate.
  - discriminate.
  - simpl. lia.
Defined.

(** C5: when either operand has no rows, [multiply_matrices] raises the
    [ValueError] of line 50 and nothing else happens. *)
Theorem multiply_matrices_empty_operand :
  ∀ (T : Type) (N : Number T) (cpu_count : Z) (A B : matrix T)
    (num_processes : option pyvalue) (sched : list nat),
    A = [] ∨ B = [] →
    multiply_matrices cpu_count A B num_processes sched = ([], Raise EmptyOperand).
Proof. intros. by apply multiply_matrices_empty. Qed.

Lemma multiply_matrices_empty_operand_witness :
  multiply_matrices 4 [[1; 2]]%Z [] (Some (PyInt 0)) [] = ([], Raise EmptyOperand).
Proof.
  apply (multiply_matrices_empty_operand Z _ 4%Z [[1; 2]]%Z [] (Some (PyInt 0)) []).
  right. reflexivity.
Defined.

(** C10: for an [A] with at least one row and one column in every row and
    [B = [[]]], [multiply_matrices] passes both checks, raises nothing and
    returns [rows(A)] rows of length zero; the [ValueError] of the emptiness
    check is raised for operands without rows and for no others. *)
Theorem multiply_matrices_zero_columns :
  (∀ (T : Type) (N : Number T) (cpu_count : Z) (A : matrix T)
     (num_processes : option pyvalue) (sched : list nat),
     A ≠ [] → Forall (λ row, length row = 1) A →
     valid_count cpu_count num_processes →
     (multiply_matrices cpu_count A [[]] num_processes sched).2
     = Ok (replicate (length A) [])) ∧
  (∀ (T : Type) (N : Number T) (cpu_count : Z) (A B : matrix T)
     (num_processes : option pyvalue) (sched : list nat),
     (multiply_matrices cpu_count A B num_processes sched).2 = Raise EmptyOperand
     ↔ A = [] ∨ B = []).
Proof.
  split.
  - intros T N cpu A np sched HA Hrows Hv.
    by destruct (multiply_matrices_no_columns cpu A np sched HA Hrows Hv) as (w & ->).
  - intros. apply multiply_matrices_raises_empty.
Qed.

Lemma multiply_matrices_zero_columns_witness :
  (multiply_matrices 4 [[1]; [2]; [3]]%Z [[]] None []).2 = Ok [[]; []; []].
Proof.
  apply (proj1 multiply_matrices_zero_columns Z _ 4%Z [[1]; [2]; [3]]%Z None []).
  - discriminate.
  - repeat constructor.
  - exists 4%Z. split; [reflexivity | lia].
Defined.

(** ** The logging multiply *)

(** C6, where the code falls short of it: for operands of matching shapes
    with at least one cell to compute and an accepted number of workers,
    [multiply_matrices_with_intermediate_write] empties the log once, builds
    its tasks and starts the pool, and then raises the [RuntimeError] of the
    lock that cannot be sent to a worker: no worker runs, nothing is written,
    and the log is left empty instead of holding one line per cell. *)
Theorem intermediate_write_logs_nothing :
  ∀ (T : Type) (N : Number T) (Tx : Text T) (cpu_count : Z) (A B : matrix T)
    (m k n : nat) (file : string) (num_processes : option pyvalue)
    (sched : list nat) (fs : files),
    shape A m k → shape B k n → 0 < m → 0 < k → 0 < n →
    valid_count cpu_count num_processes →
    let r := multiply_matrices_with_intermediate_write cpu_count A B file
               num_processes sched in
    r.2 = Raise LockNotShareable ∧
    (∃ w, r.1 = [EvOpenW file; EvTasks (m * n); EvPool w]) ∧
    written file r.1 = [] ∧
    apply_events fs r.1 !! file = Some EmptyString.
Proof.
  intros T N Tx cpu A B m k n file np sched fs HA HB Hm Hk Hn Hv r.
  destruct (intermediate_write_raises cpu A B m k n file np sched HA HB Hm Hk Hn Hv)
    as (w & Hr).
  unfold r. rewrite Hr. split_and!; [done | by exists w | done |].
  unfold apply_events. simpl. by rewrite lookup_insert_eq.
Qed.

Lemma intermediate_write_logs_nothing_witness :
  let r := multiply_matrices_with_intermediate_write 4 [[1; 2]; [3; 4]]%Z
             [[5; 6]; [7; 8]]%Z "log.txt" None [] in
  r.2 = Raise LockNotShareable ∧
  (∃ w, r.1 = [EvOpenW "log.txt"; EvTasks (2 * 2); EvPool w]) ∧
  written "log.txt" r.1 = [] ∧
  apply_events ∅ r.1 !! "log.txt" = Some EmptyString.
Proof.
  apply (intermediate_write_logs_nothing Z _ _ 4%Z [[1; 2]; [3; 4]]%Z
           [[5; 6]; [7; 8]]%Z 2 2 2 "log.txt" None [] ∅).
  - split; [reflexivity | repeat constructor].
  - split; [reflexivity | repeat constructor].
  - lia.
  - lia.
  - lia.
  - exists 4%Z. split; [reflexivity | lia].
Defined.

(** C7, where the code falls short of it: on the same operands and number
    of workers, [multiply_matrices] returns the product and
    [multiply_matrices_with_intermediate_write] returns no matrix: it raises
    the [RuntimeError] of the lock. *)
Theorem intermediate_write_returns_no_matrix :
  ∀ (T : Type) (N : Number T) (Tx : Text T) (cpu_count : Z) (A B : matrix T)
    (m k n : nat) (file : string) (num_processes : option pyvalue)
    (sched sched' : list nat),
    shape A m k → shape B k n → 0 < m → 0 < k → 0 < n →
    valid_count cpu_count num_processes →
    (multiply_matrices cpu_count A B num_processes sched).2
    = Ok (naive_product A B) ∧
    (multiply_matrices_with_intermediate_write cpu_count A B file
       num_processes sched').2 = Raise LockNotShareable.
Proof.
  intros T N Tx cpu A B m k n file np sched sched' HA HB Hm Hk Hn Hv. split.
  - by destruct (multiply_matrices_ok cpu A B m k n np sched HA HB Hm Hk Hv)
      as (w & evs & -> & _).
  - by destruct (intermediate_write_raises cpu A B m k n file np sched' HA HB Hm Hk Hn Hv)
      as (w & ->).
Qed.

Lemma intermediate_write_returns_no_matrix_witness :
  (multiply_matrices 4 [[1; 2]; [3; 4]]%Z [[5; 6]; [7; 8]]%Z None []).2
  = Ok (naive_product [[1; 2]; [3; 4]]%Z [[5; 6]; [7; 8]]%Z) ∧
  (multiply_matrices_with_intermediate_write 4 [[1; 2]; [3; 4]]%Z
     [[5; 6]; [7; 8]]%Z "log.txt" None []).2 = Raise LockNotShareable.
Proof.
  apply (intermediate_write_returns_no_matrix Z _ _ 4%Z [[1; 2]; [3; 4]]%Z
           [[5; 6]; [7; 8]]%Z 2 2 2 "log.txt" None [] []).
  - split; [reflexivity | repeat constructor].
  - split; [reflexivity | repeat constructor].
  - lia.
  - lia.
  - lia.
  - exists 4%Z. split; [reflexivity | lia].
Defined.

(** ** The text codec *)

(** C9: a matrix with at least one row and one column whose entries are
    printable (each prints as one token that [float] reads back as a number
    [close] to it, as the text form of floats does) is read back from the
    file [write_matrix] wrote as a matrix of the same shape whose entries
    are [close] to the original ones. *)
Theorem write_matrix_read_matrix :
  ∀ (T : Type) (Tx : Text T) (close : T → T → Prop) (fs : files)
    (filename : string) (A : matrix T) (m n : nat),
    shape A m n → 0 < m → 0 < n →
    Forall (Forall (printable close)) A →
    ∃ A', read_matrix (apply_events fs (write_matrix filename A).1) filename = Ok A'
          ∧ Forall2 (Forall2 close) A A'.
Proof.
  intros T Tx close fs filename A m n [Hl Hrows] Hm Hn Hp.
  apply write_read_matrix. apply Forall_forall. intros row Hin. split.
  - apply (proj1 (Forall_forall _ _) Hrows) in Hin. destruct row; [simpl in Hin; lia | done].
  - by apply (proj1 (Forall_forall _ _) Hp).
Qed.

Lemma write_matrix_read_matrix_witness :
  ∃ A', read_matrix (apply_events ∅ (write_matrix "m.txt" [[1; -2]; [30; 4]]%Z).1) "m.txt"
        = Ok A' ∧ Forall2 (Forall2 eq) [[1; -2]; [30; 4]]%Z A'.
Proof.
  apply (write_matrix_read_matrix Z _ eq ∅ "m.txt" [[1; -2]; [30; 4]]%Z 2 2).
  - split; [reflexivity | repeat constructor].
  - lia.
  - lia.
  - repeat constructor; try discriminate; try (vm_compute; reflexivity);
      eexists; split; vm_compute; reflexivity.
Defined.

(** ** The streaming pipeline *)

(** C8: for a size from 1 on and a count [M] from 0 on, in every run of the
    pipeline, whatever the order in which the processes move: the run is
    finite and can always be continued to its end; at the end each generator
    has put its [M] matrices of [size] by [size], in the order it generated
    them, and then one sentinel; the multiplier has put the [M] products of
    the pairs and then one sentinel; and the draining loop reports [M]. *)
Theorem pipeline_counts :
  ∀ (T : Type) (N : Number T) (rng : Type) (cpu_count : Z)
    (random : rng → T * rng) (size num_matrices : Z) (gA gB : rng),
    (1 ≤ cpu_count)%Z → (1 ≤ size)%Z → (0 ≤ num_matrices)%Z →
    let start := async_multiplication_demo num_matrices gA gB in
    let matrices_A := generated random size (Z.to_nat num_matrices) gA in
    let matrices_B := generated random size (Z.to_nat num_matrices) gB in
    (Z.of_nat (length matrices_A) = num_matrices ∧ Forall (square size) matrices_A) ∧
    (Z.of_nat (length matrices_B) = num_matrices ∧ Forall (square size) matrices_B) ∧
    (∀ who p, exec cpu_count random size who start = Some p →
       length who ≤ 5 * (Z.to_nat num_matrices + 1) ∧
       ∃ who' p', exec cpu_count random size who' p = Some p' ∧
                  stuck cpu_count random size p') ∧
    (∀ who p, exec cpu_count random size who start = Some p →
       stuck cpu_count random size p →
       sent QueueA (history p) = (Some <$> matrices_A) ++ [None] ∧
       sent QueueB (history p) = (Some <$> matrices_B) ++ [None] ∧
       sent ResultQueue (history p)
       = (Some <$> zip_with naive_product matrices_A matrices_B) ++ [None] ∧
       length (zip_with naive_product matrices_A matrices_B) = Z.to_nat num_matrices ∧
       generator_A p = GeneratorDone ∧ generator_B p = GeneratorDone ∧
       the_multiplier p = MultiplierDone ∧
       ∃ completed, the_consumer p = Reported completed ∧
                    Z.of_nat completed = num_matrices).
Proof.
  intros T N rng cpu random size M gA gB Hcpu Hsize HM start mA mB.
  split_and!.
  - unfold mA. rewrite generated_length. lia.
  - apply generated_square.
  - unfold mB. rewrite generated_length. lia.
  - apply generated_square.
  - intros who p Hrun. split.
    + apply exec_potential in Hrun. unfold start, potential in Hrun. simpl in Hrun. lia.
    + apply run_to_the_end.
  - intros who p Hrun Hstuck.
    apply (reachable_fits cpu random size Hcpu Hsize) in Hrun.
    destruct (stuck_done cpu random size M gA gB p Hrun Hstuck)
      as (HgA & HgB & Hm & Hc & _ & _ & _ & HsA & HsB & HsR).
    split_and!; try done.
    + unfold mA, mB. by rewrite length_zip_with, !generated_length, Nat.min_id.
    + exists (Z.to_nat M). split; [done | lia].
Qed.

Lemma pipeline_counts_witness :
  ∃ p completed,
    exec 4 counting_random 2
      [GeneratorA; GeneratorB; Multiplier []; Multiplier [1]; Consumer;
       GeneratorA; GeneratorB; Multiplier []; Multiplier []; Consumer]
      (async_multiplication_demo 1 0 100) = Some p
    ∧ the_consumer p = Reported completed ∧ Z.of_nat completed = 1%Z.
Proof.
  destruct (pipeline_counts Z _ nat 4 counting_random 2 1 0 100
              ltac:(lia) ltac:(lia) ltac:(lia)) as (_ & _ & _ & Hend).
  edestruct (Hend [GeneratorA; GeneratorB; Multiplier []; Multiplier [1]; Consumer;
                   GeneratorA; GeneratorB; Multiplier []; Multiplier []; Consumer])
    as (_ & _ & _ & _ & _ & _ & _ & completed & Hc & Hn).
  - vm_compute. reflexivity.
  - intros [| |sched|]; reflexivity.
  - eexists _, completed. split; [vm_compute; reflexivity|]. split; [exact Hc | exact Hn].
Defined.

(** C2, as the code has it: the actions of the multiplier actor are full
    rounds (get from A, get from B, multiply, put the product) followed by
    the gets of the round in progress. It gets from B also when the value
    from A was the sentinel; once a round has met a sentinel it gets nothing
    more, puts exactly one sentinel as its last action and has returned; it
    never calls the multiply on a sentinel. *)
Theorem multiplier_actor_rounds :
  ∀ (T : Type) (N : Number T) (rng : Type) (cpu_count : Z)
    (random : rng → T * rng) (size : Z) (p0 p : pipeline T rng)
    (who : list actor),
    the_multiplier p0 = GetA → multiplier_actions (history p0) = [] →
    exec cpu_count random size who p0 = Some p →
    let h := multiplier_actions (history p) in
    multiplier_shape (the_multiplier p) h ∧
    (∀ A B, Multiply A B ∈ h → is_Some A ∧ is_Some B) ∧
    (∀ h1 q h2, h = h1 ++ Get q None :: h2 →
       (q = QueueA ∧ (h2 = [] ∨ ∃ B, h2 = [Get QueueB B; Put ResultQueue None])) ∨
       (q = QueueB ∧ h2 = [Put ResultQueue None])) ∧
    (∀ h1 h2, h = h1 ++ Put ResultQueue None :: h2 →
       h2 = [] ∧ (Put ResultQueue None ∉ h1) ∧ the_multiplier p = MultiplierDone).
Proof.
  intros T N rng cpu random size p0 p who Hm Hh Hrun h.
  assert (Hshape : multiplier_shape (the_multiplier p) h).
  { apply (shape_exec cpu random size who p0 p); [|done].
    rewrite Hm, Hh. exists []. split; [constructor | done]. }
  split_and!.
  - done.
  - intros A B. by apply (shape_multiply (the_multiplier p)).
  - intros h1 q h2. by apply (shape_sentinel_got (the_multiplier p)).
  - intros h1 h2. by apply (shape_sentinel_put (the_multiplier p)).
Qed.

Lemma multiplier_actor_rounds_witness :
  ∃ p, exec 4 counting_random 1 [GeneratorA; GeneratorB; Multiplier []; Multiplier []]
         (async_multiplication_demo 0 0 0) = Some p
       ∧ multiplier_shape (the_multiplier p) (multiplier_actions (history p)).
Proof.
  eexists. split; [vm_compute; reflexivity|].
  apply (multiplier_actor_rounds Z _ nat 4 counting_random 1
           (async_multiplication_demo 0 0 0) _
           [GeneratorA; GeneratorB; Multiplier []; Multiplier []]).
  - reflexivity.
  - reflexivity.
  - vm_compute. reflexivity.
Defined.

(** C2, to the letter, fails: in the run below the multiplier actor takes the
    sentinel from queue A and then still gets from queue B. *)
Lemma multiplier_gets_B_after_sentinel_from_A :
  ∃ p, exec 4 counting_random 1 [GeneratorA; GeneratorB; Multiplier []; Multiplier []]
         (async_multiplication_demo 0 0 0) = Some p
       ∧ multiplier_actions (history p)
         = [Get QueueA None; Get QueueB None; Put ResultQueue None]
       ∧ ¬ stops_at_sentinel (multiplier_actions (history p)).
Proof.
  eexists. split; [vm_compute; reflexivity|]. split; [reflexivity|].
  intros Hstops.
  apply (Hstops [] QueueA [Get QueueB None; Put ResultQueue None] eq_refl QueueB None).
  left.
Qed.

(** * Further properties *)

(** ** The multiply on operands of any form *)

(** X1 ([compute_element], lines 32-42): for indices from 0 on, a worker
    returns [(i, j, sum)] exactly when [A] has a first row and the cells
    [A[i][k]] and [B[k][j]] exist for every [k] below [len(A[0])], and raises
    [IndexError] otherwise; when the first row of [A] is empty it reads
    nothing and returns [(i, j, 0)] for every [i] and [j]. *)
Theorem compute_element_reads :
  ∀ (T : Type) (N : Number T) (A B : matrix T) (i j : nat),
    compute_element (i, j, A, B)
    = ([EvRun i j],
       if decide (A ≠ [] ∧ readable A B i j)
       then Ok (i, j, dot A B (length (hd [] A)) i j)
       else Raise IndexError)
    ∧ (∀ A', compute_element (i, j, [] :: A', B) = ([EvRun i j], Ok (i, j, zero))).
Proof.
  intros T N A B i j. split; [apply compute_element_outcome|].
  intros A'. rewrite compute_element_outcome.
  rewrite decide_True; [done|]. split; [done|]. by apply Forall_nil.
Qed.

(** X2 ([multiply_matrices], lines 54-73): past the two checks and with an
    accepted number of workers, the call raises [IndexError] exactly when
    there is a cell to compute and some row of [A] is shorter than [A[0]] or
    some row of [B] is shorter than [B[0]]. *)
Theorem multiply_matrices_index_error :
  ∀ (T : Type) (N : Number T) (cpu_count : Z) (A B : matrix T)
    (num_processes : option pyvalue) (sched : list nat),
    A ≠ [] → B ≠ [] → length (hd [] A) = length B →
    valid_count cpu_count num_processes →
    (multiply_matrices cpu_count A B num_processes sched).2 = Raise IndexError
    ↔ 0 < length (hd [] B)
      ∧ ¬ (wide A (length B) ∧ wide B (length (hd [] B))).
Proof.
  intros T N cpu A B np sched HA HB HK Hv.
  destruct (multiply_matrices_general cpu A B np sched HA HB HK Hv) as (w & evs & ->).
  cbn [snd]. destruct (decide (length (hd [] B) = 0)) as [Hn|Hn].
  - rewrite decide_True by (by apply all_readable_no_columns). split; [done|lia].
  - pose proof (all_readable_wide A B HA HK ltac:(lia)) as Hiff.
    destruct (decide (all_readable A B)) as [Hall|Hall].
    + split; [done|]. intros [_ Hno]. destruct Hno. by apply Hiff.
    + split; [|done]. intros _. split; [lia|]. intros Hw. apply Hall. by apply Hiff.
Qed.

Lemma multiply_matrices_index_error_witness :
  (multiply_matrices 4 [[1; 2]; [3]]%Z [[5]; [7]]%Z None [1; 0]).2 = Raise IndexError.
Proof.
  destruct (multiply_matrices_index_error Z _ 4%Z [[1; 2]; [3]]%Z [[5]; [7]]%Z
              None [1; 0]) as [_ Hback].
  { discriminate. } { discriminate. } { reflexivity. }
  { exists 4%Z. split; [reflexivity | lia]. }
  apply Hback.
  split; [simpl; lia|]. intros [Hw _].
  apply Forall_cons in Hw as [_ Hw]. apply Forall_cons in Hw as [Hw _].
  simpl in Hw. lia.
Defined.

(** X3 ([multiply_matrices], lines 38, 54-58): entries of a row of [A] beyond
    the length of [A[0]], and of a row of [B] beyond the length of [B[0]],
    are never read. When no row is shorter than the first one, the call
    returns the product of the operands cut to the lengths of their first
    rows, which are rectangular, and the same as for the cut operands. *)
Theorem multiply_matrices_ignores_surplus :
  ∀ (T : Type) (N : Number T) (cpu_count : Z) (A B : matrix T)
    (num_processes : option pyvalue) (sched : list nat),
    A ≠ [] → B ≠ [] → length (hd [] A) = length B →
    wide A (length B) → wide B (length (hd [] B)) →
    valid_count cpu_count num_processes →
    let A' := truncate (length B) A in
    let B' := truncate (length (hd [] B)) B in
    shape A' (length A) (length B) ∧ shape B' (length B) (length (hd [] B)) ∧
    (multiply_matrices cpu_count A B num_processes sched).2 = Ok (naive_product A' B') ∧
    (multiply_matrices cpu_count A' B' num_processes sched).2 = Ok (naive_product A' B').
Proof.
  intros T N cpu A B np sched HA HB HK HwA HwB Hv A' B'.
  assert (HsA : shape A' (length A) (length B)) by (by apply truncate_shape).
  assert (HsB : shape B' (length B) (length (hd [] B))) by (by apply truncate_shape).
  assert (Hm : 0 < length A) by (destruct A; [done | simpl; lia]).
  assert (Hk : 0 < length B) by (destruct B; [done | simpl; lia]).
  split_and!; [done | done | |].
  - destruct (multiply_matrices_general cpu A B np sched HA HB HK Hv) as (w & evs & ->).
    cbn [snd]. rewrite decide_True.
    + unfold A', B'. by rewrite <- HK, naive_product_truncate.
    + destruct (decide (length (hd [] B) = 0)) as [Hn|Hn].
      * by apply all_readable_no_columns.
      * apply all_readable_wide; [done | done | lia | done].
  - by destruct (multiply_matrices_ok cpu A' B' _ _ _ np sched HsA HsB Hm Hk Hv)
      as (w & evs & -> & _).
Qed.

Lemma multiply_matrices_ignores_surplus_witness :
  let A := [[1; 2]; [3; 4; 99]]%Z in
  let B := [[5; 6]; [7; 8; 99]]%Z in
  let A' := truncate (length B) A in
  let B' := truncate (length (hd [] B)) B in
  shape A' (length A) (length B) ∧ shape B' (length B) (length (hd [] B)) ∧
  (multiply_matrices 4 A B None []).2 = Ok (naive_product A' B') ∧
  (multiply_matrices 4 A' B' None []).2 = Ok (naive_product A' B').
Proof.
  intros A B.
  apply (multiply_matrices_ignores_surplus Z _ 4%Z A B None []).
  - discriminate.
  - discriminate.
  - reflexivity.
  - repeat constructor.
  - repeat constructor.
  - exists 4%Z. split; [reflexivity | lia].
Defined.

(** X4 ([multiply_matrices], lines 44-73): what the call returns or raises
    depends on the operands alone: for any two accepted numbers of workers
    and any two schedules of the workers the outcome is the same, also for
    operands that are rejected or ragged. *)
Theorem multiply_matrices_any_schedule :
  ∀ (T : Type) (N : Number T) (cpu_count : Z) (A B : matrix T)
    (n1 n2 : option pyvalue) (sched1 sched2 : list nat),
    valid_count cpu_count n1 → valid_count cpu_count n2 →
    (multiply_matrices cpu_count A B n1 sched1).2
    = (multiply_matrices cpu_count A B n2 sched2).2.
Proof.
  intros T N cpu A B n1 n2 s1 s2 H1 H2.
  destruct (decide (A = [] ∨ B = [])) as [He|He].
  { by rewrite !multiply_matrices_empty. }
  assert (HA : A ≠ []) by tauto. assert (HB : B ≠ []) by tauto.
  destruct (decide (length (hd [] A) = length B)) as [HK|HK].
  - destruct (multiply_matrices_general cpu A B n1 s1 HA HB HK H1) as (w1 & e1 & ->).
    by destruct (multiply_matrices_general cpu A B n2 s2 HA HB HK H2) as (w2 & e2 & ->).
  - by rewrite !multiply_matrices_mismatch.
Qed.

Lemma multiply_matrices_any_schedule_witness :
  (multiply_matrices 4 [[1; 2]; [3]]%Z [[5]; [7]]%Z None [1; 0]).2
  = (multiply_matrices 4 [[1; 2]; [3]]%Z [[5]; [7]]%Z (Some (PyInt 2)) []).2.
Proof.
  apply (multiply_matrices_any_schedule Z _ 4%Z [[1; 2]; [3]]%Z [[5]; [7]]%Z
           None (Some (PyInt 2)) [1; 0] []).
  - exists 4%Z. split; [reflexivity | lia].
  - exists 2%Z. split; [reflexivity | lia].
Defined.

(** X5 ([multiply_matrices], lines 44-73): whatever the arguments, the call
    either returns a matrix of [len(A)] rows with [len(B[0])] entries each,
    or raises one of: the [ValueError] of an empty operand, the [ValueError]
    of the dimensions, what [Pool] raises for a number of workers it does
    not accept, or [IndexError]. *)
Theorem multiply_matrices_returns_or_raises :
  ∀ (T : Type) (N : Number T) (cpu_count : Z) (A B : matrix T)
    (num_processes : option pyvalue) (sched : list nat),
    match (multiply_matrices cpu_count A B num_processes sched).2 with
    | Ok C => shape C (length A) (length (hd [] B))
    | Raise e => multiply_error e
    end.
Proof. intros. apply multiply_matrices_result. Qed.

(** X6 ([multiply_matrices], lines 49-52): a left operand whose first row is
    empty is always rejected, before any task is built: as an empty operand
    when [B] has no rows, for its dimensions otherwise. *)
Theorem multiply_matrices_rejects_empty_first_row :
  ∀ (T : Type) (N : Number T) (cpu_count : Z) (A B : matrix T)
    (num_processes : option pyvalue) (sched : list nat),
    A ≠ [] → hd [] A = [] →
    multiply_matrices cpu_count A B num_processes sched
    = ([], Raise (if decide (B = []) then EmptyOperand else DimensionMismatch)).
Proof.
  intros T N cpu A B np sched HA H0. case_decide as HB.
  - apply multiply_matrices_empty. by right.
  - apply multiply_matrices_mismatch; [done..|]. rewrite H0. by destruct B.
Qed.

Lemma multiply_matrices_rejects_empty_first_row_witness :
  multiply_matrices 4 [[]; [1]]%Z [[2]]%Z None [] = ([], Raise DimensionMismatch).
Proof.
  apply (multiply_matrices_rejects_empty_first_row Z _ 4%Z [[]; [1]]%Z [[2]]%Z None []).
  - discriminate.
  - reflexivity.
Defined.

(** X24 ([multiply_matrices], lines 58-66): on operands of matching shapes
    one task is built for each cell of the result, the pool is started once,
    and then every cell is computed exactly once, in an order that depends
    on the schedule; no file is touched. *)
Theorem multiply_matrices_runs_each_cell_once :
  ∀ (T : Type) (N : Number T) (cpu_count : Z) (A B : matrix T) (m k n : nat)
    (num_processes : option pyvalue) (sched : list nat),
    shape A m k → shape B k n → 0 < m → 0 < k →
    valid_count cpu_count num_processes →
    ∃ workers runs,
      (multiply_matrices cpu_count A B num_processes sched).1
      = EvTasks (m * n) :: EvPool workers :: runs ∧
      runs ≡ₚ (λ '(i, j), EvRun i j) <$> positions m n ∧
      NoDup runs ∧ length runs = m * n ∧
      ∀ e, e ∈ runs ↔ ∃ i j, e = EvRun i j ∧ i < m ∧ j < n.
Proof.
  intros T N cpu A B m k n np sched HA HB Hm Hk Hv.
  destruct (multiply_matrices_ok cpu A B m k n np sched HA HB Hm Hk Hv)
    as (w & evs & -> & Hperm).
  exists w, evs. cbn [fst]. split_and!.
  - done.
  - done.
  - rewrite Hperm. apply NoDup_fmap_2_strong; [|apply NoDup_positions].
    intros [i1 j1] [i2 j2] _ _. congruence.
  - by rewrite Hperm, length_fmap, length_positions.
  - intros e. rewrite Hperm, list_elem_of_fmap. split.
    + intros ([i j] & -> & Hin%elem_of_positions). by exists i, j.
    + intros (i & j & -> & Hij). exists (i, j). split; [done|].
      by apply elem_of_positions.
Qed.

Lemma multiply_matrices_runs_each_cell_once_witness :
  ∃ workers runs,
    (multiply_matrices 4 [[1; 2]; [3; 4]]%Z [[5; 6]; [7; 8]]%Z (Some (PyInt 2)) [3; 1]).1
    = EvTasks (2 * 2) :: EvPool workers :: runs ∧
    runs ≡ₚ (λ '(i, j), EvRun i j) <$> positions 2 2 ∧
    NoDup runs ∧ length runs = 2 * 2 ∧
    ∀ e, e ∈ runs ↔ ∃ i j, e = EvRun i j ∧ i < 2 ∧ j < 2.
Proof.
  apply (multiply_matrices_runs_each_cell_once Z _ 4%Z
           [[1; 2]; [3; 4]]%Z [[5; 6]; [7; 8]]%Z 2 2 2 (Some (PyInt 2)) [3; 1]).
  - split; [reflexivity | repeat constructor].
  - split; [reflexivity | repeat constructor].
  - lia.
  - lia.
  - exists 2%Z. split; [reflexivity | lia].
Defined.

(** ** The logging multiply on operands of any form *)

(** X7 ([compute_and_write], lines 75-90): a logging worker returns what
    [compute_element] returns for the same cell; with a value it appends the
    one line [i j value] to the named file and touches no other file; when
    the computation raises, nothing is written. *)
Theorem compute_and_write_appends_one_line :
  ∀ (T : Type) (N : Number T) (Tx : Text T) (A B : matrix T) (i j : nat)
    (l : lock) (file : string) (fs : files),
    let plain := compute_element (i, j, A, B) in
    let logging := compute_and_write (i, j, A, B, l, file) in
    logging.2 = plain.2 ∧
    apply_events fs logging.1
    = match plain.2 with
      | Ok (_, _, value) =>
        <[file := default EmptyString (fs !! file) +:+ log_line i j value]> fs
      | Raise _ => fs
      end.
Proof.
  intros T N Tx A B i j l file fs plain logging. unfold logging.
  rewrite compute_and_write_outcome. fold plain.
  pose proof (compute_element_outcome A B i j) as Hp. fold plain in Hp.
  destruct plain as [evs [[[i' j'] r]|e]]; [|done].
  case_decide; [|done]. by injection Hp as _ <- <- _.
Qed.

(** X8 ([multiply_matrices_with_intermediate_write], lines 97-117): the call
    empties the intermediate file exactly when both checks pass, also when
    it then raises; it never appends a line to it and touches no other
    file. *)
Theorem intermediate_write_file_effect :
  ∀ (T : Type) (N : Number T) (Tx : Text T) (cpu_count : Z) (A B : matrix T)
    (file : string) (num_processes : option pyvalue) (sched : list nat) (fs : files),
    apply_events fs
      (multiply_matrices_with_intermediate_write cpu_count A B file num_processes sched).1
    = if decide (A ≠ [] ∧ B ≠ [] ∧ length (hd [] A) = length B)
      then <[file := EmptyString]> fs else fs.
Proof.
  intros. apply intermediate_write_disk.
Qed.

(** X9 ([multiply_matrices_with_intermediate_write], lines 102-124): past the
    checks and with an accepted number of workers, the call returns only when
    there is no cell to compute ([B[0]] is empty), and then rows without
    entries; with a cell to compute it raises the [RuntimeError] of the lock,
    whatever the rows of the operands. So it never returns a matrix that has
    an entry. *)
Theorem intermediate_write_returns_only_empty_rows :
  ∀ (T : Type) (N : Number T) (Tx : Text T) (cpu_count : Z) (A B : matrix T)
    (file : string) (num_processes : option pyvalue) (sched : list nat),
    (A ≠ [] → B ≠ [] → length (hd [] A) = length B →
     valid_count cpu_count num_processes →
     (multiply_matrices_with_intermediate_write cpu_count A B file num_processes sched).2
     = if decide (length (hd [] B) = 0) then Ok (replicate (length A) [])
       else Raise LockNotShareable) ∧
    (∀ C, (multiply_matrices_with_intermediate_write cpu_count A B file
             num_processes sched).2 = Ok C →
          C = replicate (length A) []).
Proof.
  intros T N Tx cpu A B file np sched. split.
  - intros HA HB HK Hv.
    destruct (intermediate_write_past_checks cpu A B file np sched HA HB HK)
      as [(e & _ & _ & HP)|(w & -> & _)]; [|done].
    destruct Hv as (n & Hn & Hn1). by rewrite Hn, Pool_valid in HP.
  - intros C.
    destruct (decide (A ≠ [] ∧ B ≠ [] ∧ length (hd [] A) = length B)) as [Hd|Hd].
    + destruct Hd as (HA & HB & HK).
      destruct (intermediate_write_past_checks cpu A B file np sched HA HB HK)
        as [(e & -> & _)|(w & -> & _)]; [done|].
      cbn [snd]. case_decide; [|done]. by intros [= <-].
    + destruct (intermediate_write_rejects cpu A B file np sched) as [-> _].
      { destruct A; [by left|]. destruct B; [by right; left|]. right. right.
        intros HK. apply Hd. done. }
      pose proof (multiply_matrices_result cpu A B np sched) as Hr.
      intros HC. rewrite HC in Hr. exfalso.
      destruct A as [|a A]; [by rewrite multiply_matrices_empty in HC by (by left)|].
      destruct B as [|b B]; [by rewrite multiply_matrices_empty in HC by (by right)|].
      rewrite multiply_matrices_mismatch in HC; [done..|].
      intros HK. apply Hd. done.
Qed.

Lemma intermediate_write_returns_only_empty_rows_witness :
  (multiply_matrices_with_intermediate_write 4 [[1; 2]]%Z [[]; []]%Z "log.txt" None []).2
  = Ok [[]].
Proof.
  apply (proj1 (intermediate_write_returns_only_empty_rows Z _ _ 4%Z
                  [[1; 2]]%Z [[]; []]%Z "log.txt" None [])).
  - discriminate.
  - discriminate.
  - reflexivity.
  - exists 4%Z. split; [reflexivity | lia].
Defined.

(** X10 (lines 49-52, 65 and 97-100, 116): every rejection of
    [multiply_matrices] is a rejection of the logging multiply: where the
    first raises a [ValueError] or a [TypeError] (an empty operand, the
    dimensions, the number of workers), the second raises the same
    exception for the same arguments. *)
Theorem intermediate_write_same_rejections :
  ∀ (T : Type) (N : Number T) (Tx : Text T) (cpu_count : Z) (A B : matrix T)
    (file : string) (num_processes : option pyvalue) (sched : list nat) (e : exn),
    (multiply_matrices cpu_count A B num_processes sched).2 = Raise e →
    e ≠ IndexError →
    (multiply_matrices_with_intermediate_write cpu_count A B file num_processes sched).2
    = Raise e.
Proof.
  intros T N Tx cpu A B file np sched e He Hne.
  destruct (decide (A ≠ [] ∧ B ≠ [] ∧ length (hd [] A) = length B)) as [Hd|Hd].
  - destruct Hd as (HA & HB & HK).
    destruct (intermediate_write_past_checks cpu A B file np sched HA HB HK)
      as [(e' & -> & _ & Hno)|(w & _ & Hv)].
    + cbn [snd]. revert He. unfold multiply_matrices.
      destruct A as [|a A']; [done|]. destruct B as [|b B']; [done|].
      cbn [is_empty orb]. rewrite (getitem_Some (a :: A') 0 a) by done.
      rewrite bind_lift_Ok. rewrite decide_False by (simpl in *; lia).
      rewrite (getitem_Some (b :: B') 0 b) by done. rewrite bind_lift_Ok, !bind_emit.
      rewrite Hno. cbn [snd]. by intros [= ->].
    + destruct (multiply_matrices_general cpu A B np sched HA HB HK Hv) as (w' & evs & Hm).
      rewrite Hm in He. cbn [snd] in He. case_decide; by simplify_eq.
  - destruct (intermediate_write_rejects cpu A B file np sched) as [-> _]; [|done].
    destruct A; [by left|]. destruct B; [by right; left|]. right. right.
    intros HK. apply Hd. done.
Qed.

Lemma intermediate_write_same_rejections_witness :
  (multiply_matrices_with_intermediate_write 4 [[1; 2]]%Z [[3]]%Z "log.txt"
     (Some (PyInt 0)) []).2 = Raise DimensionMismatch.
Proof.
  apply (intermediate_write_same_rejections Z _ _ 4%Z [[1; 2]]%Z [[3]]%Z "log.txt"
           (Some (PyInt 0)) [] DimensionMismatch).
  - reflexivity.
  - discriminate.
Defined.

(** ** The layout of a matrix file *)

(** X11 ([read_matrix], lines 15-18): lines of whitespace only are skipped:
    a file read as a matrix gives what the same file without its blank lines
    gives, a matrix or an exception. *)
Theorem read_matrix_skips_blank_lines :
  ∀ (T : Type) (Tx : Text T) (fs : files) (filename : string) (ls : list string),
    Forall (λ l, no_nl l = true) ls →
    let text (ls : list string) := concat_text ((λ l, l +:+ nl) <$> ls) in
    read_matrix (T:=T) (<[filename := text ls]> fs) filename
    = read_matrix (<[filename := text (filter (λ l, blank l = false) ls)]> fs) filename.
Proof.
  intros T Tx fs filename ls Hls text.
  rewrite !(read_matrix_tokens _ filename _ (lookup_insert_eq _ _ _)).
  f_equal. unfold text.
  rewrite (token_lines_full ls) by done.
  rewrite token_lines_full by (by apply Forall_filter_keep).
  clear Hls. induction ls as [|l ls IH]; [done|].
  rewrite fmap_cons, !filter_cons.
  destruct (decide (split l ≠ [])) as [Hl|Hl].
  - rewrite decide_True.
    + rewrite fmap_cons, filter_cons, decide_True by done. by f_equal.
    + apply not_true_is_false. rewrite <- strip_blank, <- split_nil. done.
  - rewrite decide_False; [done|].
    apply dec_stable in Hl. apply split_nil, strip_blank in Hl. by rewrite Hl.
Qed.

Lemma read_matrix_skips_blank_lines_witness :
  read_matrix (T:=Z) (<["m.txt" := "1 2" +:+ nl +:+ "  " +:+ nl +:+ "3 4" +:+ nl]> ∅) "m.txt"
  = read_matrix (<["m.txt" := "1 2" +:+ nl +:+ "3 4" +:+ nl]> ∅) "m.txt".
Proof.
  apply (read_matrix_skips_blank_lines Z _ ∅ "m.txt" ["1 2"; "  "; "3 4"]%string).
  repeat constructor.
Defined.

(** X12 ([read_matrix], lines 15-17): the newline at the end of the last
    line is optional: a text and the same text with one more newline read as
    the same matrix. *)
Theorem read_matrix_final_newline :
  ∀ (T : Type) (Tx : Text T) (fs : files) (filename text : string),
    read_matrix (T:=T) (<[filename := text +:+ nl]> fs) filename
    = read_matrix (<[filename := text]> fs) filename.
Proof.
  intros T Tx fs filename text.
  rewrite !(read_matrix_tokens _ filename _ (lookup_insert_eq _ _ _)).
  f_equal. destruct (text_lines text) as (ls & last & Hls & Hlast & ->).
  rewrite token_lines_text by done.
  assert (Heq : (concat_text ((λ l, l +:+ nl) <$> ls) +:+ last) +:+ nl
                = concat_text ((λ l, l +:+ nl) <$> (ls ++ [last]))).
  { rewrite fmap_app, concat_text_app. cbn [fmap list_fmap concat_text].
    by rewrite !string_app_nil_r, !string_app_assoc. }
  rewrite Heq, token_lines_full; [done|].
  apply Forall_app. split; [done | by constructor].
Qed.

(** X13 ([read_matrix], lines 13-19): the matrix read depends on the text
    only through the tokens of the lines that hold one: two files whose
    lines with a token have the same tokens read the same, and whitespace
    before or after the tokens of a line is not seen. *)
Theorem read_matrix_sees_tokens_only :
  ∀ (T : Type) (Tx : Text T),
    (∀ (fs1 fs2 : files) (file1 file2 text1 text2 : string),
       fs1 !! file1 = Some text1 → fs2 !! file2 = Some text2 →
       token_lines text1 = token_lines text2 →
       read_matrix (T:=T) fs1 file1 = read_matrix fs2 file2) ∧
    (∀ w1 line w2, blank w1 = true → blank w2 = true →
       split (w1 +:+ line +:+ w2) = split line).
Proof.
  intros T Tx. split.
  - intros fs1 fs2 f1 f2 t1 t2 H1 H2 Heq.
    by rewrite (read_matrix_tokens fs1 f1 t1 H1), (read_matrix_tokens fs2 f2 t2 H2), Heq.
  - intros w1 line w2 H1 H2. by rewrite split_skip_blank, split_app_blank.
Qed.

Lemma read_matrix_sees_tokens_only_witness :
  read_matrix (T:=Z) (<["a.txt" := " 1   2 " +:+ nl +:+ nl +:+ "3 4"]> ∅) "a.txt"
  = read_matrix (<["b.txt" := "1 2" +:+ nl +:+ "3 4" +:+ nl]> ∅) "b.txt".
Proof.
  apply (proj1 (read_matrix_sees_tokens_only Z _) _ _ "a.txt" "b.txt"
           (" 1   2 " +:+ nl +:+ nl +:+ "3 4") ("1 2" +:+ nl +:+ "3 4" +:+ nl)).
  - reflexivity.
  - reflexivity.
  - vm_compute. reflexivity.
Defined.

(** X14 ([read_matrix], lines 13-19): for a file that exists, [read_matrix]
    returns one row for every line that holds a token, with the numbers of
    its tokens in their order; and when it raises, it raises what [float]
    raises for a token of the file. *)
Theorem read_matrix_rows_or_token_error :
  ∀ (T : Type) (Tx : Text T) (fs : files) (filename text : string),
    fs !! filename = Some text →
    match read_matrix (T:=T) fs filename with
    | Ok matrix =>
      Forall2 (Forall2 (λ token x, float_of token = Ok x)) (token_lines text) matrix
    | Raise e =>
      ∃ tokens token, tokens ∈ token_lines text ∧ token ∈ tokens
                      ∧ float_of (T:=T) token = Raise e
    end.
Proof.
  intros T Tx fs filename text Hf. rewrite (read_matrix_tokens fs filename text Hf).
  pose proof (read_rows (T:=T) (token_lines text) []) as Hr.
  destruct (for_each _ [] (token_lines text)) as [matrix|e]; [|done].
  by destruct Hr as (rows & -> & Hrows).
Qed.

Lemma read_matrix_rows_or_token_error_witness :
  match read_matrix (T:=Z) (<["m.txt" := "1 2" +:+ nl +:+ "3 x" +:+ nl]> ∅) "m.txt" with
  | Ok matrix =>
    Forall2 (Forall2 (λ token x, float_of token = Ok x))
      (token_lines ("1 2" +:+ nl +:+ "3 x" +:+ nl)) matrix
  | Raise e =>
    ∃ tokens token, tokens ∈ token_lines ("1 2" +:+ nl +:+ "3 x" +:+ nl)
                    ∧ token ∈ tokens ∧ float_of (T:=Z) token = Raise e
  end.
Proof.
  apply (read_matrix_rows_or_token_error Z _
           (<["m.txt" := "1 2" +:+ nl +:+ "3 x" +:+ nl]> ∅) "m.txt"
           ("1 2" +:+ nl +:+ "3 x" +:+ nl)).
  reflexivity.
Defined.

(** X15 ([write_matrix] and [read_matrix], lines 7-30): a row without entries
    is written as an empty line and skipped when the file is read: what is
    read back are the rows that have an entry, in their order, entry by entry
    [close] to the ones written. *)
Theorem write_matrix_read_matrix_drops_empty_rows :
  ∀ (T : Type) (Tx : Text T) (close : T → T → Prop) (fs : files)
    (filename : string) (A : matrix T),
    Forall (Forall (printable close)) A →
    ∃ A', read_matrix (apply_events fs (write_matrix filename A).1) filename = Ok A'
          ∧ Forall2 (Forall2 close) (filter (λ row, row ≠ []) A) A'.
Proof.
  intros T Tx close fs filename A HA.
  rewrite write_matrix_files.
  rewrite (read_matrix_tokens _ filename _ (lookup_insert_eq _ _ _)).
  assert (Hl : row_line <$> A
               = (λ l, l +:+ nl) <$> ((λ row, join " " (str <$> row)) <$> A)).
  { by rewrite <- list_fmap_compose. }
  assert (Htoks : ∀ row, row ∈ A → Forall token (str <$> row)).
  { intros row Hin. apply Forall_fmap.
    eapply Forall_impl; [exact (proj1 (Forall_forall _ _) HA row Hin)|]. by intros x [Hx _]. }
  rewrite Hl, token_lines_full.
  - rewrite <- list_fmap_compose.
    assert (Hf : filter (λ toks, toks ≠ [])
                   ((split ∘ (λ row : list T, join " " (str <$> row))) <$> A)
                 = (λ row, str <$> row) <$> filter (λ row, row ≠ []) A).
    { clear Hl HA. induction A as [|row A IH]; [done|].
      rewrite fmap_cons, !filter_cons. simpl.
      rewrite split_join by (apply Htoks; left).
      rewrite IH by (intros; apply Htoks; by right).
      destruct row; [done|]. by rewrite !decide_True. }
    rewrite Hf.
    destruct (read_rows_printable close (filter (λ row, row ≠ []) A) [])
      as (A' & -> & HA'); [by apply Forall_filter_keep|].
    by exists A'.
  - apply Forall_fmap. apply Forall_forall. intros row Hin. simpl.
    by apply no_nl_join, Htoks.
Qed.

Lemma write_matrix_read_matrix_drops_empty_rows_witness :
  ∃ A', read_matrix (apply_events ∅ (write_matrix "m.txt" [[1]; []; [2; 3]]%Z).1) "m.txt"
        = Ok A' ∧ Forall2 (Forall2 eq) [[1]; [2; 3]]%Z A'.
Proof.
  apply (write_matrix_read_matrix_drops_empty_rows Z _ eq ∅ "m.txt" [[1]; []; [2; 3]]%Z).
  repeat constructor; try discriminate; try (vm_compute; reflexivity);
    eexists; split; vm_compute; reflexivity.
Defined.

(** X16 ([write_matrix], lines 27-30): the file is written anew: after the
    call it holds the lines of the matrix and nothing of what it held
    before, no other file has changed, and of two calls on the same file the
    second one wins. *)
Theorem write_matrix_overwrites :
  ∀ (T : Type) (Tx : Text T) (fs : files) (filename : string) (A1 A2 : matrix T),
    apply_events fs (write_matrix filename A2).1
    = <[filename := concat_text (row_line <$> A2)]> fs
    ∧ apply_events (apply_events fs (write_matrix filename A1).1)
        (write_matrix filename A2).1
      = apply_events fs (write_matrix filename A2).1.
Proof.
  intros T Tx fs filename A1 A2. rewrite !write_matrix_files.
  split; [done|]. by rewrite insert_insert_eq.
Qed.

(** ** The pipeline for other sizes and counts *)

(** X17 ([async_multiplication_demo], lines 132-198): for a size below 1 and
    at least one matrix to generate, every generated matrix is [[]], the
    multiplier dies of the [ValueError] of the empty operand on the first
    pair and puts nothing, not even the sentinel, on the result queue: in
    every run the draining loop still waits with its count at 0, so the demo
    never returns. *)
Theorem demo_hangs_below_size_one :
  ∀ (T : Type) (N : Number T) (rng : Type) (cpu_count : Z)
    (random : rng → T * rng) (size num_matrices : Z) (gA gB : rng),
    (size ≤ 0)%Z → (1 ≤ num_matrices)%Z →
    let start := async_multiplication_demo num_matrices gA gB in
    ∀ who p, exec cpu_count random size who start = Some p →
      the_consumer p = Counting 0 ∧
      sent ResultQueue (history p) = [] ∧
      (∃ who' p', exec cpu_count random size who' p = Some p' ∧
                  stuck cpu_count random size p') ∧
      (stuck cpu_count random size p →
       the_multiplier p = MultiplierFailed EmptyOperand ∧
       generator_A p = GeneratorDone ∧ generator_B p = GeneratorDone).
Proof.
  intros T N rng cpu random size num gA gB Hsize Hnum start who p Hrun.
  assert (Hp : starved random size p).
  { apply (starved_exec cpu random size who start p); [|done].
    by apply starved_start. }
  split_and!.
  - by destruct Hp as (_ & ? & _).
  - by destruct Hp as (_ & _ & ? & _).
  - apply run_to_the_end.
  - by apply starved_stuck.
Qed.

Lemma demo_hangs_below_size_one_witness :
  ∃ p, exec 4 counting_random 0
         [GeneratorA; GeneratorB; Multiplier []; Multiplier []; GeneratorA; GeneratorB]
         (async_multiplication_demo 1 0 100) = Some p
       ∧ the_consumer p = Counting 0
       ∧ the_multiplier p = MultiplierFailed EmptyOperand.
Proof.
  eexists. split; [vm_compute; reflexivity|].
  edestruct (demo_hangs_below_size_one Z _ nat 4 counting_random 0 1 0 100
               ltac:(lia) ltac:(lia)
               [GeneratorA; GeneratorB; Multiplier []; Multiplier []; GeneratorA; GeneratorB])
    as (Hc & _ & _ & Hend).
  - vm_compute. reflexivity.
  - split; [exact Hc|]. apply Hend. intros [| |sched|]; reflexivity.
Defined.

(** X18 ([async_multiplication_demo], lines 145-198): for a count of 0 or
    below and any size, each generator puts its sentinel and nothing else,
    the multiplier puts the sentinel and nothing else and returns, and the
    draining loop reports 0; a run has at most five steps. *)
Theorem demo_reports_zero_without_matrices :
  ∀ (T : Type) (N : Number T) (rng : Type) (cpu_count : Z)
    (random : rng → T * rng) (size num_matrices : Z) (gA gB : rng),
    (1 ≤ cpu_count)%Z → (num_matrices ≤ 0)%Z →
    let start := async_multiplication_demo num_matrices gA gB in
    ∀ who p, exec cpu_count random size who start = Some p →
      length who ≤ 5 ∧
      (∃ who' p', exec cpu_count random size who' p = Some p' ∧
                  stuck cpu_count random size p') ∧
      (stuck cpu_count random size p →
       sent QueueA (history p) = [None] ∧ sent QueueB (history p) = [None] ∧
       sent ResultQueue (history p) = [None] ∧
       the_multiplier p = MultiplierDone ∧ the_consumer p = Reported 0).
Proof.
  intros T N rng cpu random size num gA gB Hcpu Hnum start who p Hrun.
  assert (H0 : Z.to_nat num = 0) by lia.
  assert (Hidle : idle_pipeline start) by (split; simpl; by rewrite H0).
  split_and!.
  - apply exec_potential in Hrun. unfold start, potential in Hrun.
    simpl in Hrun. rewrite H0 in Hrun. lia.
  - apply run_to_the_end.
  - intros Hstuck.
    destruct (exec_idle cpu random size 1 who start Hidle) as [Heq Hp].
    specialize (Hp p Hrun). rewrite Heq in Hrun.
    apply (stuck_idle cpu random size 1 p Hp) in Hstuck.
    apply (reachable_fits cpu random 1 Hcpu ltac:(lia)) in Hrun.
    destruct (stuck_done cpu random 1 num gA gB p Hrun Hstuck)
      as (_ & _ & Hm & Hc & _ & _ & _ & HsA & HsB & HsR).
    rewrite H0 in *. done.
Qed.

Lemma demo_reports_zero_without_matrices_witness :
  ∃ p, exec 4 counting_random 0
         [GeneratorA; GeneratorB; Multiplier []; Multiplier []; Consumer]
         (async_multiplication_demo (-2) 0 100) = Some p
       ∧ the_consumer p = Reported 0.
Proof.
  eexists. split; [vm_compute; reflexivity|].
  edestruct (demo_reports_zero_without_matrices Z _ nat 4 counting_random 0 (-2) 0 100
               ltac:(lia) ltac:(lia)
               [GeneratorA; GeneratorB; Multiplier []; Multiplier []; Consumer])
    as (_ & _ & Hend).
  - vm_compute. reflexivity.
  - apply Hend. intros [| |sched|]; reflexivity.
Defined.

(** X19 ([generate_random_matrix], lines 132-137): the matrix has [size]
    rows of [size] entries ([[]] for a size below 1, without a draw); its
    entries, row by row, are [size * size] consecutive draws of the random
    number generator, so what holds for every draw holds for every entry. *)
Theorem generate_random_matrix_draws :
  ∀ (T : Type) (rng : Type) (random : rng → T * rng) (size : Z) (g : rng),
    let n := Z.to_nat size in
    let generated := generate_random_matrix random size g in
    shape generated.1 n n ∧
    (concat generated.1, generated.2) = random_row random (n * n) g ∧
    ((size ≤ 0)%Z → generated = ([], g)) ∧
    (∀ P : T → Prop, (∀ g, P (random g).1) → Forall (Forall P) generated.1).
Proof.
  intros T rng random size g n generated. unfold generated, generate_random_matrix.
  fold n. split_and!.
  - apply random_rows_shape.
  - apply random_rows_draws.
  - intros Hs. by replace n with 0 by lia.
  - intros P HP. by apply random_rows_all.
Qed.

(** X20 ([multiply_matrices_async] and the loop of
    [async_multiplication_demo], lines 153-198): for a size from 1 on, at
    every moment of every run the matrices put on the result queue so far
    are the products of the first pairs of generated matrices, in their
    order; the draining loop has counted no more than that and has taken
    exactly the first products; the multiplier has not died. *)
Theorem demo_results_in_order :
  ∀ (T : Type) (N : Number T) (rng : Type) (cpu_count : Z)
    (random : rng → T * rng) (size num_matrices : Z) (gA gB : rng),
    (1 ≤ cpu_count)%Z → (1 ≤ size)%Z →
    let start := async_multiplication_demo num_matrices gA gB in
    let matrices_A := generated random size (Z.to_nat num_matrices) gA in
    let matrices_B := generated random size (Z.to_nat num_matrices) gB in
    let products := zip_with naive_product matrices_A matrices_B in
    ∀ who p, exec cpu_count random size who start = Some p →
      ∃ k, k ≤ Z.to_nat num_matrices ∧
        matrices (sent ResultQueue (history p)) = take k products ∧
        completed_of (the_consumer p) ≤ k ∧
        matrices (received ResultQueue (history p))
        = take (completed_of (the_consumer p)) products ∧
        ∀ e, the_multiplier p ≠ MultiplierFailed e.
Proof.
  intros T N rng cpu random size num gA gB Hcpu Hsize start mA mB products who p Hrun.
  apply (reachable_fits cpu random size Hcpu Hsize) in Hrun.
  destruct Hrun as (HA & HB & HqA & HqB & HqR & Hm & Hc).
  fold mA in HA. fold mB in HB.
  destruct Hm as (As & Bs & Hl & Hm).
  assert (HAs : ∀ tailA, received QueueA (history p) = (Some <$> As) ++ tailA →
            As = take (length As) mA ∧ length As ≤ length mA).
  { intros tailA Hr. rewrite <- HqA, Hr, <- !app_assoc in HA.
    apply somes_prefix in HA; [done|].
    intros x Hx. by apply list_elem_of_singleton in Hx. }
  assert (HBs : ∀ tailB, received QueueB (history p) = (Some <$> Bs) ++ tailB →
            Bs = take (length Bs) mB ∧ length Bs ≤ length mB).
  { intros tailB Hr. rewrite <- HqB, Hr, <- !app_assoc in HB.
    apply somes_prefix in HB; [done|].
    intros x Hx. by apply list_elem_of_singleton in Hx. }
  assert (Hres : ∃ tailR, sent ResultQueue (history p)
                          = (Some <$> zip_with naive_product As Bs) ++ tailR
                   ∧ (∀ x, Some x ∉ tailR)
                   ∧ As = take (length As) mA ∧ Bs = take (length Bs) mB
                   ∧ length As ≤ length mA
                   ∧ ∀ e, the_multiplier p ≠ MultiplierFailed e).
  { destruct (the_multiplier p) as [|A| |e]; [| | |done].
    - destruct Hm as (HrA & HrB & HsR). exists [].
      destruct (HAs []) as [? ?]; [by rewrite app_nil_r|].
      destruct (HBs []) as [? ?]; [by rewrite app_nil_r|].
      rewrite app_nil_r. split_and!; try done. intros x Hx. by apply not_elem_of_nil in Hx.
    - destruct Hm as (HrA & HrB & HsR). exists [].
      destruct (HAs [A]) as [? ?]; [done|].
      destruct (HBs []) as [? ?]; [by rewrite app_nil_r|].
      rewrite app_nil_r. split_and!; try done. intros x Hx. by apply not_elem_of_nil in Hx.
    - destruct Hm as (A & B & _ & HrA & HrB & HsR). exists [None].
      destruct (HAs [A]) as [? ?]; [done|].
      destruct (HBs [B]) as [? ?]; [done|].
      split_and!; try done. intros x Hx. by apply list_elem_of_singleton in Hx. }
  destruct Hres as (tailR & HsR & HtailR & HAs' & HBs' & HlA & Hnot).
  assert (Hzip : zip_with naive_product As Bs = take (length As) products).
  { unfold products. rewrite <- zip_with_take_both. rewrite <- HAs'.
    rewrite Hl. by rewrite <- HBs'. }
  assert (HtailM : matrices tailR = []).
  { clear -HtailR. unfold matrices. induction tailR as [|[x|] t IH]; [done| |].
    - destruct (HtailR x). left.
    - simpl. apply IH. intros x Hx. apply (HtailR x). by right. }
  unfold mA in HlA. rewrite generated_length in HlA.
  exists (length As). split; [done|].
  split; [by rewrite HsR, matrices_app, matrices_somes, HtailM, app_nil_r|].
  destruct Hc as (Cs & Hc).
  assert (HCs : ∃ tailC, received ResultQueue (history p) = (Some <$> Cs) ++ tailC
                  ∧ matrices tailC = []
                  ∧ completed_of (the_consumer p) = length Cs).
  { destruct (the_consumer p) as [n|n]; destruct Hc as [-> ->].
    - exists []. by rewrite app_nil_r.
    - by exists [None]. }
  destruct HCs as (tailC & HrR & HtailC & Hn).
  rewrite HrR, HsR, <- app_assoc in HqR.
  apply somes_prefix in HqR as [HCs HlC]; [|done].
  rewrite Hzip in HCs, HlC. rewrite length_take in HlC.
  rewrite Hn. split; [lia|]. split; [|done].
  rewrite HrR, matrices_app, matrices_somes, HtailC, app_nil_r.
  rewrite HCs at 1. rewrite take_take. f_equal. lia.
Qed.

Lemma demo_results_in_order_witness :
  ∃ p k, exec 4 counting_random 2
           [GeneratorA; GeneratorB; Multiplier []; Multiplier [1]; GeneratorA]
           (async_multiplication_demo 2 0 100) = Some p
         ∧ matrices (sent ResultQueue (history p))
           = take k (zip_with naive_product (generated counting_random 2 2 0)
                       (generated counting_random 2 2 100)).
Proof.
  eexists.
  edestruct (demo_results_in_order Z _ nat 4 counting_random 2 2 0 100
               ltac:(lia) ltac:(lia)
               [GeneratorA; GeneratorB; Multiplier []; Multiplier [1]; GeneratorA])
    as (k & _ & Hk & _).
  - vm_compute. reflexivity.
  - exists k. split; [reflexivity | exact Hk].
Defined.

(** ** The command line *)

(** X21 ([main], lines 215-235): in mode 1 with two input files that read as
    [A] and [B], [main] consumes the three file names; when the multiply
    returns [C] it returns with the result file holding the lines of [C] and
    no other file changed, and a [C] with printable entries and no empty row
    is read back from it; when the multiply raises, the exception leaves
    [main] and no file has changed. *)
Theorem main_mode_1_writes_the_product :
  ∀ (T : Type) (N : Number T) (Tx : Text T) (cpu_count : Z) (int : string → option Z)
    (sched : list nat) (out : list string) (fs : files)
    (matrix1_file matrix2_file result_file : string) (rest : list string)
    (A B : matrix T),
    read_matrix fs matrix1_file = Ok A → read_matrix fs matrix2_file = Ok B →
    let finish :=
      main cpu_count int sched
        (World ("1" :: matrix1_file :: matrix2_file :: result_file :: rest) out fs) in
    stdin finish.2 = rest ∧
    match (multiply_matrices cpu_count A B None sched).2 with
    | Ok C =>
      finish.1 = Returned ∧
      disk finish.2 = <[result_file := concat_text (row_line <$> C)]> fs ∧
      ∀ close : T → T → Prop,
        Forall (λ row, row ≠ [] ∧ Forall (printable close) row) C →
        ∃ C', read_matrix (disk finish.2) result_file = Ok C'
              ∧ Forall2 (Forall2 close) C C'
    | Raise e => finish.1 = Raised e ∧ disk finish.2 = fs
    end.
Proof.
  intros T N Tx cpu int sched out fs f1 f2 f3 rest A B HA HB finish.
  destruct (main_mode_1_run cpu int sched out fs f1 f2 f3 rest A B HA HB) as [out' Hrun].
  unfold finish. rewrite Hrun.
  destruct (multiply_matrices cpu A B None sched).2 as [C|e]; [|done].
  cbn [fst snd stdin disk]. split_and!; [done..|].
  intros close HC. rewrite <- (write_matrix_files fs f3 C).
  by apply write_read_matrix.
Qed.

Lemma main_mode_1_writes_the_product_witness :
  let fs : files :=
    <["a.txt" := "1 2" +:+ nl +:+ "3 4" +:+ nl]>
      (<["b.txt" := "5 6" +:+ nl +:+ "7 8" +:+ nl]> ∅) in
  let finish :=
    main 4 int_of_digits [] (World ["1"; "a.txt"; "b.txt"; "c.txt"]%string [] fs) in
  stdin finish.2 = [] ∧
  match (multiply_matrices 4 [[1; 2]; [3; 4]]%Z [[5; 6]; [7; 8]]%Z None []).2 with
  | Ok C =>
    finish.1 = Returned ∧
    disk finish.2 = <["c.txt" := concat_text (row_line <$> C)]> fs ∧
    ∀ close : Z → Z → Prop,
      Forall (λ row, row ≠ [] ∧ Forall (printable close) row) C →
      ∃ C', read_matrix (disk finish.2) "c.txt" = Ok C' ∧ Forall2 (Forall2 close) C C'
  | Raise e => finish.1 = Raised e ∧ disk finish.2 = fs
  end.
Proof.
  apply (main_mode_1_writes_the_product Z _ _ 4%Z int_of_digits [] []
           (<["a.txt" := "1 2" +:+ nl +:+ "3 4" +:+ nl]>
              (<["b.txt" := "5 6" +:+ nl +:+ "7 8" +:+ nl]> ∅))
           "a.txt" "b.txt" "c.txt" [] [[1; 2]; [3; 4]]%Z [[5; 6]; [7; 8]]%Z).
  - vm_compute. reflexivity.
  - vm_compute. reflexivity.
Defined.

(** X22 ([main], lines 237-259): mode 2 never writes the result file. With
    its four file names read, [main] returns only when an input file is
    missing; otherwise an exception leaves it, and the files are as before
    except that the intermediate file may have been emptied. When the input
    files read as operands that pass the checks, that exception is the
    [RuntimeError] of the lock and the intermediate file is left empty. *)
Theorem main_mode_2_never_writes_the_result :
  ∀ (T : Type) (N : Number T) (Tx : Text T) (cpu_count : Z) (int : string → option Z)
    (sched : list nat) (out : list string) (fs : files)
    (matrix1_file matrix2_file intermediate_file result_file : string)
    (rest : list string),
    let finish :=
      main (T:=T) cpu_count int sched
        (World ("2" :: matrix1_file :: matrix2_file :: intermediate_file
                    :: result_file :: rest) out fs) in
    (disk finish.2 = fs ∨ disk finish.2 = <[intermediate_file := EmptyString]> fs) ∧
    (finish.1 = Returned ∨ ∃ e, finish.1 = Raised e) ∧
    (finish.1 = Returned ↔ ¬ (is_Some (fs !! matrix1_file) ∧ is_Some (fs !! matrix2_file))) ∧
    (∀ A B : matrix T,
       read_matrix fs matrix1_file = Ok A → read_matrix fs matrix2_file = Ok B →
       A ≠ [] → B ≠ [] → length (hd [] A) = length B → (1 ≤ cpu_count)%Z →
       finish.1 = Raised LockNotShareable ∧
       disk finish.2 = <[intermediate_file := EmptyString]> fs).
Proof.
  intros T N Tx cpu int sched out fs f1 f2 f3 f4 rest finish.
  pose proof (main_mode_2_run (T:=T) cpu int sched out fs f1 f2 f3 f4 rest) as Hrun.
  cbv zeta in Hrun. fold finish in Hrun.
  destruct Hrun as [(Hret & Hd & Hno)|(e & He & H1 & H2 & Hcase)].
  - split_and!; [by left | by left | done |].
    intros A B HA HB. destruct Hno. split; by eapply read_matrix_exists.
  - assert (Hdisk : disk finish.2 = fs ∨ disk finish.2 = <[f3 := EmptyString]> fs).
    { destruct Hcase as [[Hd _]|(A & B & _ & _ & _ & Hd)]; [by left|].
      rewrite Hd, intermediate_write_disk. case_decide; auto. }
    split_and!; [done | by right; exists e | |].
    + rewrite He. split; [done|]. intros Hno. destruct Hno. done.
    + intros A B HA HB HAne HBne HK Hcpu.
      destruct Hcase as [[_ [Hr|Hr]]|(A' & B' & HA' & HB' & Hraise & Hd)];
        [congruence..|].
      assert (A' = A) as -> by congruence. assert (B' = B) as -> by congruence.
      destruct (intermediate_write_past_checks cpu A B f3 None sched HAne HBne HK)
        as [(e' & _ & _ & HP)|(w & Hrun & _)].
      { change (default (PyInt cpu) None) with (PyInt cpu) in HP.
        by rewrite Pool_valid in HP. }
      rewrite Hrun in Hraise, Hd. cbn [fst snd] in *.
      rewrite decide_False in Hraise.
      * split; [congruence|]. by rewrite Hd.
      * destruct B as [|b B]; [done|]. apply read_matrix_rows in HB.
        apply Forall_cons in HB as [Hb _]. simpl. by destruct b.
Qed.

Lemma main_mode_2_never_writes_the_result_witness :
  let fs : files :=
    <["a.txt" := "1 2" +:+ nl +:+ "3 4" +:+ nl]>
      (<["b.txt" := "5 6" +:+ nl +:+ "7 8" +:+ nl]> ∅) in
  let finish :=
    main (T:=Z) 4 int_of_digits []
      (World ["2"; "a.txt"; "b.txt"; "log.txt"; "c.txt"]%string [] fs) in
  finish.1 = Raised LockNotShareable ∧ disk finish.2 = <["log.txt" := EmptyString]> fs.
Proof.
  cbv zeta.
  destruct (main_mode_2_never_writes_the_result Z _ _ 4%Z int_of_digits [] []
              (<["a.txt" := "1 2" +:+ nl +:+ "3 4" +:+ nl]>
                 (<["b.txt" := "5 6" +:+ nl +:+ "7 8" +:+ nl]> ∅))
              "a.txt" "b.txt" "log.txt" "c.txt" []) as (_ & _ & _ & Hmain).
  apply (Hmain [[1; 2]; [3; 4]]%Z [[5; 6]; [7; 8]]%Z).
  - vm_compute. reflexivity.
  - vm_compute. reflexivity.
  - discriminate.
  - discriminate.
  - reflexivity.
  - lia.
Defined.

(** X23 ([main], lines 200-274): whatever is typed and whatever the files
    hold, [main] changes at most one file: it leaves the files as they were,
    or it returns in mode 1 having written the result file, or it ends with
    an exception in mode 2 having emptied the intermediate file. In
    particular mode 3, a wrong choice, a missing input file and an input
    that ends early change nothing. *)
Theorem main_changes_at_most_one_file :
  ∀ (T : Type) (N : Number T) (Tx : Text T) (cpu_count : Z) (int : string → option Z)
    (sched : list nat) (w : world),
    let finish := main (T:=T) cpu_count int sched w in
    disk finish.2 = disk w ∨
    (∃ matrix1_file matrix2_file result_file rest (C : matrix T),
       stdin w = "1"%string :: matrix1_file :: matrix2_file :: result_file :: rest ∧
       is_Some (disk w !! matrix1_file) ∧ is_Some (disk w !! matrix2_file) ∧
       finish.1 = Returned ∧
       disk finish.2 = <[result_file := concat_text (row_line <$> C)]> (disk w)) ∨
    (∃ matrix1_file matrix2_file intermediate_file result_file rest e,
       stdin w = "2"%string :: matrix1_file :: matrix2_file :: intermediate_file
                   :: result_file :: rest ∧
       is_Some (disk w !! matrix1_file) ∧ is_Some (disk w !! matrix2_file) ∧
       finish.1 = Raised e ∧
       disk finish.2 = <[intermediate_file := EmptyString]> (disk w)).
Proof. intros. apply main_disk. Qed.
